(** * doc-tracker-backend: change detection and hybrid classification

    A shallow embedding of [app/services/differ.py] and
    [app/services/classifier.py], together with the parts of the Python
    runtime they call ([difflib.SequenceMatcher], the string methods and
    the regular expressions of module [re]).

    Conventions.
    - A Python [str] is a list of Unicode code points ([text]).
    - Python integers used as list indices are non-negative here and are
      modelled as [nat]; identifiers ([change_id], [index]) are [Z].
    - A Python [float] produced by [SequenceMatcher.ratio] is the quotient
      of two integers; it is modelled by that exact quotient in [Q].
    - A [dict] is a [gmap]; a [set] of indices is a [gset]. *)

From stdpp Require Import gmap list sorting strings.
From Stdlib Require Import QArith Ascii.

#[local] Open Scope nat_scope.
#[local] Open Scope list_scope.

(** ** Python [difflib.SequenceMatcher(None, a, b)]

    [isjunk] is [None] and [autojunk] keeps its default [True] at every
    call site of the repository. *)

Module Difflib.

Inductive tag := Replace | Delete | Insert | Equal.

#[global] Instance tag_eq_dec : EqDecision tag.
Proof. solve_decision. Defined.

(** An opcode [(tag, i1, i2, j1, j2)]. *)
Definition opcode : Type := tag * nat * nat * nat * nat.

(** A matching block [Match(a, b, size)]. *)
Definition block : Type := nat * nat * nat.

Section Matcher.
Context {A : Type} `{EqDecision A}.
Variables a b : list A.

(** [__chain_b]: [b2j] maps an element of [b] to the ascending list of
    the indices where it occurs. *)
Fixpoint indices_from (j : nat) (l : list A) (elt : A) : list nat :=
  match l with
  | [] => []
  | x :: l' =>
      if decide (x = elt) then j :: indices_from (S j) l' elt
      else indices_from (S j) l' elt
  end.

Definition indices (elt : A) : list nat := indices_from 0 b elt.

(** [bjunk] stays empty because [isjunk] is [None]. *)
Definition isbjunk (_ : A) : bool := false.

(** [bpopular]: with [n >= 200], the elements seen more than
    [n // 100 + 1] times. *)
Definition popular (elt : A) : bool :=
  let n := length b in
  (200 <=? n) && (n / 100 + 1 <? length (indices elt)).

(** [b2j.get(elt, nothing)], after the popular keys were deleted. *)
Definition b2j_get (elt : A) : list nat :=
  if popular elt then [] else indices elt.

(** [j2len.get(j-1, 0)]: the key [-1] is never present. *)
Definition j2lenget (j2len : gmap nat nat) (j : nat) : nat :=
  match j with
  | O => 0
  | S j' => default 0 (j2len !! j')
  end.

Section FindLongestMatch.
Variables alo ahi blo bhi : nat.

(** The inner [for j in b2j.get(a[i], nothing)] loop; [continue] below
    [blo], [break] from [bhi] on.  [i-k+1] is written [i+1-k] because
    [k <= i+1] and subtraction on [nat] truncates. *)
Fixpoint inner_loop (j2len : gmap nat nat) (i : nat) (js : list nat)
    (newj2len : gmap nat nat) (best : block) : gmap nat nat * block :=
  match js with
  | [] => (newj2len, best)
  | j :: js' =>
      if j <? blo then inner_loop j2len i js' newj2len best
      else if bhi <=? j then (newj2len, best)
      else
        let k := j2lenget j2len j + 1 in
        let newj2len' := <[j := k]> newj2len in
        let best' :=
          if best.2 <? k then (i + 1 - k, j + 1 - k, k) else best in
        inner_loop j2len i js' newj2len' best'
  end.

(** The outer [for i in range(alo, ahi)] loop. *)
Fixpoint outer_loop (rows : list nat) (j2len : gmap nat nat) (best : block)
    : block :=
  match rows with
  | [] => best
  | i :: rows' =>
      let js := match a !! i with Some x => b2j_get x | None => [] end in
      let '(newj2len, best') := inner_loop j2len i js ∅ best in
      outer_loop rows' newj2len best'
  end.

Definition same_at (i j : nat) (P : A → bool) : bool :=
  match a !! i, b !! j with
  | Some x, Some y => P y && bool_decide (x = y)
  | _, _ => false
  end.

(** [while besti > alo and bestj > blo and P(b[bestj-1]) and
    a[besti-1] == b[bestj-1]]: step back. *)
Fixpoint extend_back (P : A → bool) (besti bestj bestsize : nat) : block :=
  match besti, bestj with
  | S i', S j' =>
      if (alo <? besti) && (blo <? bestj) && same_at i' j' P
      then extend_back P i' j' (S bestsize)
      else (besti, bestj, bestsize)
  | _, _ => (besti, bestj, bestsize)
  end.

(** [while besti+bestsize < ahi and bestj+bestsize < bhi and
    P(b[bestj+bestsize]) and a[besti+bestsize] == b[bestj+bestsize]]:
    grow.  The loop runs at most [ahi - (besti+bestsize)] times. *)
Fixpoint extend_fwd_loop (n : nat) (P : A → bool)
    (besti bestj bestsize : nat) : block :=
  match n with
  | O => (besti, bestj, bestsize)
  | S n' =>
      if (besti + bestsize <? ahi) && (bestj + bestsize <? bhi)
         && same_at (besti + bestsize) (bestj + bestsize) P
      then extend_fwd_loop n' P besti bestj (S bestsize)
      else (besti, bestj, bestsize)
  end.

Definition extend_fwd (P : A → bool) (m : block) : block :=
  let '(besti, bestj, bestsize) := m in
  extend_fwd_loop (ahi - (besti + bestsize)) P besti bestj bestsize.

Definition extend (P : A → bool) (m : block) : block :=
  let '(besti, bestj, bestsize) := m in
  extend_fwd P (extend_back P besti bestj bestsize).

Definition find_longest_match : block :=
  let best := outer_loop (seq alo (ahi - alo)) ∅ (alo, blo, 0) in
  let best := extend (λ y, negb (isbjunk y)) best in
  extend isbjunk best.
End FindLongestMatch.

(** A queue entry [(alo, ahi, blo, bhi)]. *)
Definition range : Type := nat * nat * nat * nat.

(** The [while queue:] loop of [get_matching_blocks]; [queue.pop()] takes
    the last entry, modelled as the head of the list.  [None] when the
    fuel does not suffice. *)
Fixpoint queue_loop (fuel : nat) (queue : list range) (blocks : list block)
    : option (list block) :=
  match queue with
  | [] => Some blocks
  | (alo, ahi, blo, bhi) :: queue' =>
      match fuel with
      | O => None
      | S fuel' =>
          let '(i, j, k) := find_longest_match alo ahi blo bhi in
          if k =? 0 then queue_loop fuel' queue' blocks
          else
            let q1 :=
              if (alo <? i) && (blo <? j) then (alo, i, blo, j) :: queue'
              else queue' in
            let q2 :=
              if (i + k <? ahi) && (j + k <? bhi)
              then (i + k, ahi, j + k, bhi) :: q1 else q1 in
            queue_loop fuel' q2 (blocks ++ [(i, j, k)])
      end
  end.

(** Tuple comparison, as [matching_blocks.sort()] uses it. *)
Definition block_le (x y : block) : Prop :=
  let '(i1, j1, k1) := x in
  let '(i2, j2, k2) := y in
  i1 < i2 ∨ (i1 = i2 ∧ (j1 < j2 ∨ (j1 = j2 ∧ k1 ≤ k2))).

#[global] Instance block_le_dec x y : Decision (block_le x y).
Proof. destruct x as [[??]?], y as [[??]?]; simpl; apply _. Defined.

Fixpoint insert_sorted (x : block) (l : list block) : list block :=
  match l with
  | [] => [x]
  | y :: l' =>
      if decide (block_le x y) then x :: l else y :: insert_sorted x l'
  end.

Definition sort_blocks (l : list block) : list block :=
  foldr insert_sorted [] l.

(** Collapsing adjacent equal blocks: the loop over the sorted list,
    with the running triple [(i1, j1, k1)]. *)
Fixpoint collapse (cur : block) (l : list block) (non_adjacent : list block)
    : list block * block :=
  match l with
  | [] => (non_adjacent, cur)
  | (i2, j2, k2) :: l' =>
      let '(i1, j1, k1) := cur in
      if (i1 + k1 =? i2) && (j1 + k1 =? j2)
      then collapse (i1, j1, k1 + k2) l' non_adjacent
      else
        collapse (i2, j2, k2) l'
          (if k1 =? 0 then non_adjacent else non_adjacent ++ [(i1, j1, k1)])
  end.

Definition finish_blocks (matching_blocks : list block) : list block :=
  let '(non_adjacent, (i1, j1, k1)) :=
    collapse (0, 0, 0) (sort_blocks matching_blocks) [] in
  let non_adjacent :=
    if k1 =? 0 then non_adjacent else non_adjacent ++ [(i1, j1, k1)] in
  non_adjacent ++ [(length a, length b, 0)].

(** Each pass of the loop either drops a queue entry or replaces it by
    entries that cover strictly fewer rows, so [2 * len(a) + 1] passes
    are enough (lemma [queue_loop_total]). *)
Definition queue_fuel : nat := 2 * length a + 2.

Definition get_matching_blocks_opt : option (list block) :=
  finish_blocks <$> queue_loop queue_fuel [(0, length a, 0, length b)] [].

Definition get_matching_blocks : list block :=
  default [] get_matching_blocks_opt.

(** [get_opcodes]: the loop state is [(i, j, answer)]. *)
Fixpoint opcodes_loop (i j : nat) (blocks : list block)
    (answer : list opcode) : list opcode :=
  match blocks with
  | [] => answer
  | (ai, bj, size) :: blocks' =>
      let answer :=
        if (i <? ai) && (j <? bj) then answer ++ [(Replace, i, ai, j, bj)]
        else if i <? ai then answer ++ [(Delete, i, ai, j, bj)]
        else if j <? bj then answer ++ [(Insert, i, ai, j, bj)]
        else answer in
      let i' := ai + size in
      let j' := bj + size in
      let answer :=
        if size =? 0 then answer else answer ++ [(Equal, ai, i', bj, j')] in
      opcodes_loop i' j' blocks' answer
  end.

Definition get_opcodes : list opcode :=
  opcodes_loop 0 0 get_matching_blocks [].

(** [_calculate_ratio(matches, length)]: [2.0 * matches / length], and
    [1.0] for [length = 0]. *)
Definition calculate_ratio (matches len : nat) : Q :=
  if len =? 0 then 1%Q
  else Qmake (2 * Z.of_nat matches) (Pos.of_nat len).

Definition ratio : Q :=
  calculate_ratio (sum_list (map (λ m : block, m.2) get_matching_blocks))
                  (length a + length b).
End Matcher.

End Difflib.

(** ** Python strings

    [str] values are lists of code points.  The character tables of the
    interpreter are fixed here on the ASCII range; beyond it they are the
    fields of [unicode_db]. *)

Definition char : Type := N.
Definition text : Type := list N.

Class unicode_db := {
  (** [str.isspace], also the class [\s], on code points from 128 on *)
  uni_isspace : char → bool;
  (** the class [\d] (decimal digits) on code points from 128 on *)
  uni_isdecimal : char → bool;
  (** [str.isalnum] on code points from 128 on *)
  uni_isalnum : char → bool;
  (** [str.lower] on a string that holds a code point from 128 on *)
  uni_lower : text → text;
  (** whether a cased pattern literal matches a subject character under
      [re.IGNORECASE], when one of the two is not ASCII *)
  uni_ignorecase : char → char → bool
}.

Module Py.

#[local] Open Scope N_scope.

(** Decoding of the UTF-8 source literals into code points. *)
Fixpoint utf8_decode (bs : list N) : text :=
  match bs with
  | [] => []
  | b0 :: r =>
      if b0 <? 128 then b0 :: utf8_decode r
      else if b0 <? 224 then
        match r with
        | b1 :: r1 => ((b0 - 192) * 64 + (b1 - 128)) :: utf8_decode r1
        | _ => []
        end
      else if b0 <? 240 then
        match r with
        | b1 :: b2 :: r2 =>
            ((b0 - 224) * 4096 + (b1 - 128) * 64 + (b2 - 128))
              :: utf8_decode r2
        | _ => []
        end
      else
        match r with
        | b1 :: b2 :: b3 :: r3 =>
            ((b0 - 240) * 262144 + (b1 - 128) * 4096 + (b2 - 128) * 64
             + (b3 - 128)) :: utf8_decode r3
        | _ => []
        end
  end.

(** A source literal. *)
Definition str (s : string) : text :=
  utf8_decode (map Ascii.N_of_ascii (String.list_ascii_of_string s)).

(** [str(n)] for an integer: decimal digits, most significant first.  A
    number has no more decimal digits than bits. *)
Fixpoint digits_loop (fuel : nat) (n : N) (acc : text) : text :=
  match fuel with
  | O => acc
  | S fuel' =>
      let acc' := (48 + n mod 10) :: acc in
      if n / 10 =? 0 then acc' else digits_loop fuel' (n / 10) acc'
  end.

Definition digits (n : N) : text := digits_loop (S (N.size_nat n)) n [].

Definition str_of_int (z : Z) : text :=
  match z with
  | Z0 => digits 0
  | Zpos p => digits (Npos p)
  | Zneg p => 45 :: digits (Npos p)
  end.

Definition is_ascii (c : char) : bool := c <? 128.

Definition between (lo hi c : N) : bool := (lo <=? c) && (c <=? hi).

Definition ascii_isspace (c : char) : bool :=
  between 9 13 c || between 28 32 c.

Definition ascii_isdigit (c : char) : bool := between 48 57 c.

Definition ascii_isalnum (c : char) : bool :=
  ascii_isdigit c || between 65 90 c || between 97 122 c.

Definition ascii_lower (c : char) : char :=
  if between 65 90 c then c + 32 else c.

Section Unicode.
Context `{unicode_db}.

Definition isspace (c : char) : bool :=
  if is_ascii c then ascii_isspace c else uni_isspace c.

Definition isdecimal (c : char) : bool :=
  if is_ascii c then ascii_isdigit c else uni_isdecimal c.

Definition isalnum (c : char) : bool :=
  if is_ascii c then ascii_isalnum c else uni_isalnum c.

(** The class [\w]: alphanumeric or the underscore. *)
Definition isword (c : char) : bool := isalnum c || (c =? 95).

(** [s.lower()] *)
Definition lower (s : text) : text :=
  if forallb is_ascii s then map ascii_lower s else uni_lower s.

(** [s.strip()] *)
Fixpoint lstrip (s : text) : text :=
  match s with
  | c :: s' => if isspace c then lstrip s' else s
  | [] => []
  end.

Definition rstrip (s : text) : text := reverse (lstrip (reverse s)).

Definition strip (s : text) : text := rstrip (lstrip s).

(** [s.split()]: the maximal runs of non-whitespace characters.  [cur]
    is the word being read. *)
Fixpoint split_loop (s : text) (cur : text) : list text :=
  match s with
  | [] => if bool_decide (cur = []) then [] else [cur]
  | c :: s' =>
      if isspace c
      then (if bool_decide (cur = []) then split_loop s' []
            else cur :: split_loop s' [])
      else split_loop s' (cur ++ [c])
  end.

Definition split (s : text) : list text := split_loop s [].
End Unicode.

(** [sep.join(parts)] *)
Fixpoint join (sep : text) (parts : list text) : text :=
  match parts with
  | [] => []
  | [p] => p
  | p :: rest => p ++ sep ++ join sep rest
  end.

(** Truthiness of a [str] and of a list: non-empty. *)
Definition truthy {A} (l : list A) : bool :=
  match l with [] => false | _ => true end.

End Py.

(** ** Python [re]: the fragment used by the classifier

    Only the truth value of [re.search] is used by the repository, so a
    pattern is given the set of substrings it matches rather than one
    preferred match. *)

Module Re.

(** A member of a bracketed set: a character or one of the classes
    [\d], [\w], [\s]. *)
Inductive item := IChar (c : char) | IDigit | IWord | ISpace.

Inductive regex :=
| Eps
| Lit (c : char)                      (** a literal without case *)
| LitI (c : char)                     (** a cased literal, [re.IGNORECASE] *)
| InSet (items : list item)           (** [[...]] *)
| NotInSet (items : list item)        (** [[^...]] *)
| Cat (r1 r2 : regex)
| Alt (r1 r2 : regex)
| Repeat (lo : nat) (hi : option nat) (r : regex)   (** [r{lo,hi}] *)
| Boundary.                           (** [\b] *)

Definition star := Repeat 0 None.
Definition plus := Repeat 1 None.
Definition opt := Repeat 0 (Some 1).
Definition digit := InSet [IDigit].
Definition space := InSet [ISpace].

(** A character of a pattern, written as an ASCII literal. *)
Definition ch (c : Ascii.ascii) : char := Ascii.N_of_ascii c.
#[global] Arguments ch c%_char.

(** A word of cased letters. *)
Definition word_i (w : text) : regex := foldr (λ c r, Cat (LitI c) r) Eps w.

Section Matching.
Context `{unicode_db}.

Definition in_item (c : char) (it : item) : bool :=
  match it with
  | IChar c' => (c =? c')%N
  | IDigit => Py.isdecimal c
  | IWord => Py.isword c
  | ISpace => Py.isspace c
  end.

Definition in_set (c : char) (items : list item) : bool :=
  existsb (in_item c) items.

Definition ignorecase_eq (p c : char) : bool :=
  if Py.is_ascii p && Py.is_ascii c
  then (Py.ascii_lower p =? Py.ascii_lower c)%N
  else uni_ignorecase p c.

Definition is_word_opt (c : option char) : bool :=
  match c with Some c => Py.isword c | None => false end.

(** At a position of the subject: [prev] is the character before it,
    [s] the rest; [k] continues after the match.  A repetition is tried
    at most [length s + 1] times, since each round of the patterns below
    reads a character. *)
Fixpoint matches (r : regex) (prev : option char) (s : text)
    (k : option char → text → bool) : bool :=
  match r with
  | Eps => k prev s
  | Lit c =>
      match s with
      | x :: s' => if (x =? c)%N then k (Some x) s' else false
      | [] => false
      end
  | LitI c =>
      match s with
      | x :: s' => if ignorecase_eq c x then k (Some x) s' else false
      | [] => false
      end
  | InSet items =>
      match s with
      | x :: s' => if in_set x items then k (Some x) s' else false
      | [] => false
      end
  | NotInSet items =>
      match s with
      | x :: s' => if in_set x items then false else k (Some x) s'
      | [] => false
      end
  | Cat r1 r2 => matches r1 prev s (λ p' s', matches r2 p' s' k)
  | Alt r1 r2 => if matches r1 prev s k then true else matches r2 prev s k
  | Repeat lo hi r' =>
      (fix rounds (fuel done : nat) (prev : option char) (s : text) : bool :=
         if (if lo <=? done then k prev s else false) then true
         else
           match fuel with
           | O => false
           | S fuel' =>
               if match hi with
                  | Some h => done <? h
                  | None => true
                  end
               then matches r' prev s (λ p' s', rounds fuel' (S done) p' s')
               else false
           end) (S (length s)) 0 prev s
  | Boundary =>
      if xorb (is_word_opt prev) (is_word_opt (head s)) then k prev s
      else false
  end.

Fixpoint search_from (r : regex) (prev : option char) (s : text) : bool :=
  if matches r prev s (λ _ _, true) then true
  else
    match s with
    | [] => false
    | c :: s' => search_from r (Some c) s'
    end.

(** [bool(re.search(pattern, s))] *)
Definition search (r : regex) (s : text) : bool := search_from r None s.

(** [re.sub(r'[^\w]', '', s)]: every character outside [\w] is removed. *)
Definition sub_non_word (s : text) : text := filter (λ c, Py.isword c) s.
End Matching.

End Re.

(** ** Data model ([app/models]) *)

Inductive ChangeType := ADDED | DELETED | MODIFIED.
Inductive ImpactLevel := CRITICAL | MEDIUM | LOW.

#[global] Instance ChangeType_eq_dec : EqDecision ChangeType.
Proof. solve_decision. Defined.
#[global] Instance ImpactLevel_eq_dec : EqDecision ImpactLevel.
Proof. solve_decision. Defined.

Module ContentBlock.
Record t := {
  index : Z;
  block_type : text;
  content : text
}.
End ContentBlock.

Module WordChange.
Record t := {
  change_type : text;
  old_text : text;
  new_text : text;
  context : text
}.
End WordChange.

Module Change.
Record t := {
  change_id : Z;
  change_type : ChangeType;
  block_type : text;
  location : text;
  original : option text;
  modified : option text;
  similarity : option Q;
  diff_text : option text;
  word_changes : option (list WordChange.t)
}.
End Change.

Module ClassifiedChange.
Record t := {
  change_id : Z;
  change_type : ChangeType;
  block_type : text;
  location : text;
  original : option text;
  modified : option text;
  similarity : option Q;
  diff_text : option text;
  word_changes : option (list WordChange.t);
  impact : ImpactLevel;
  reasoning : text;
  risk_analysis : text;
  classification_source : text
}.
End ClassifiedChange.

(** ** [app/services/differ.py] *)

Module Differ.

(** [l[i:j]] for [0 <= i]. *)
Definition slice {A} (l : list A) (i j : nat) : list A :=
  take (j - i) (drop i l).

(** [[l[i] for i in range(i1, i2)]]; [None] stands for [IndexError]. *)
Definition getitems {A} (l : list A) (i1 i2 : nat) : option (list A) :=
  mapM (λ i, l !! i) (seq i1 (i2 - i1)).

Definition Qlt_bool (x y : Q) : bool := negb (Qle_bool y x).

(** One entry of the list returned by [_match_similar_blocks].  The source
    builds a dict with the keys [type], [v1], [v2], [similarity],
    [diff_text], [word_changes]; the keys that are [None] for a given
    [type] are left out of the constructor. *)
Inductive match_result :=
| Modified (v1 v2 : ContentBlock.t) (similarity : Q) (diff_text : text)
           (word_changes : list WordChange.t)
| Deleted (v1 : ContentBlock.t) (diff_text : text)
          (word_changes : list WordChange.t)
| Added (v2 : ContentBlock.t) (diff_text : text)
        (word_changes : list WordChange.t).

Definition is_modified (m : match_result) : bool :=
  match m with Modified _ _ _ _ _ => true | _ => false end.

Definition whole_block_deleted (content : text) : list WordChange.t :=
  [ {| WordChange.change_type := Py.str "deleted";
       WordChange.old_text := content;
       WordChange.new_text := [];
       WordChange.context := Py.str "Entire block deleted" |} ].

Definition whole_block_added (content : text) : list WordChange.t :=
  [ {| WordChange.change_type := Py.str "added";
       WordChange.old_text := [];
       WordChange.new_text := content;
       WordChange.context := Py.str "Entire block added" |} ].

Definition minus_marker (s : text) : text := Py.str "[-" ++ s ++ Py.str "-]".
Definition plus_marker (s : text) : text := Py.str "[+" ++ s ++ Py.str "+]".

(** The entry for a v1 block without a partner. *)
Definition deleted_entry (b1 : ContentBlock.t) : match_result :=
  Deleted b1 (minus_marker (ContentBlock.content b1))
          (whole_block_deleted (ContentBlock.content b1)).

(** The entry for a v2 block without a partner. *)
Definition added_entry (b2 : ContentBlock.t) : match_result :=
  Added b2 (plus_marker (ContentBlock.content b2))
        (whole_block_added (ContentBlock.content b2)).

Definition modified_count (rs : list match_result) : nat :=
  length (filter (λ m, is_modified m = true) rs).

Definition count_modified (changes : list Change.t) : nat :=
  length (filter (λ c, Change.change_type c = MODIFIED) changes).

Section WithUnicode.
Context `{unicode_db}.

Definition space_join : list text → text := Py.join (Py.str " ").

(** The context string around a word-level edit. *)
Definition edit_context (words : list text) (lo hi : nat) (marker : string)
    : text :=
  let context_before := space_join (slice words (lo - 2) lo) in
  let context_after := space_join (slice words hi (hi + 2)) in
  Py.strip (context_before ++ Py.str " " ++ Py.str marker ++ Py.str " "
            ++ context_after).

(** One pass of the loop over the opcodes in [get_word_level_diff]. *)
Definition word_diff_step (orig_words mod_words : list text)
    (st : list text * list WordChange.t) (op : Difflib.opcode)
    : list text * list WordChange.t :=
  let '(diff_parts, word_changes) := st in
  let '(tag, i1, i2, j1, j2) := op in
  match tag with
  | Difflib.Equal => (diff_parts ++ slice orig_words i1 i2, word_changes)
  | Difflib.Delete =>
      let deleted := slice orig_words i1 i2 in
      (diff_parts ++ [minus_marker (space_join deleted)],
       word_changes ++
         [ {| WordChange.change_type := Py.str "deleted";
              WordChange.old_text := space_join deleted;
              WordChange.new_text := [];
              WordChange.context :=
                edit_context orig_words i1 i2 "[DELETED]" |} ])
  | Difflib.Insert =>
      let added := slice mod_words j1 j2 in
      (diff_parts ++ [plus_marker (space_join added)],
       word_changes ++
         [ {| WordChange.change_type := Py.str "added";
              WordChange.old_text := [];
              WordChange.new_text := space_join added;
              WordChange.context :=
                edit_context mod_words j1 j2 "[ADDED]" |} ])
  | Difflib.Replace =>
      let old := slice orig_words i1 i2 in
      let new := slice mod_words j1 j2 in
      (diff_parts ++ [minus_marker (space_join old);
                      plus_marker (space_join new)],
       word_changes ++
         [ {| WordChange.change_type := Py.str "replaced";
              WordChange.old_text := space_join old;
              WordChange.new_text := space_join new;
              WordChange.context :=
                edit_context orig_words i1 i2 "[REPLACED]" |} ])
  end.

Definition get_word_level_diff (original modified : text)
    : text * list WordChange.t :=
  let orig_words := Py.split original in
  let mod_words := Py.split modified in
  let '(diff_parts, word_changes) :=
    foldl (word_diff_step orig_words mod_words) ([], [])
          (Difflib.get_opcodes orig_words mod_words) in
  (space_join diff_parts, word_changes).

(** The threshold argument of [_match_similar_blocks] keeps its default
    at the only call site. *)
Definition threshold : Q := 1 # 2.

(** The inner [for idx, b2 in enumerate(v2_blocks)] loop: the state is
    [(best_match, best_sim)]. *)
Fixpoint best_loop (used_v2 : gset nat) (b1 : ContentBlock.t) (idx : nat)
    (v2_blocks : list ContentBlock.t)
    (best_match : option (nat * ContentBlock.t)) (best_sim : Q)
    : option (nat * ContentBlock.t) * Q :=
  match v2_blocks with
  | [] => (best_match, best_sim)
  | b2 :: rest =>
      if decide (idx ∈ used_v2)
      then best_loop used_v2 b1 (S idx) rest best_match best_sim
      else
        let sim :=
          Difflib.ratio (ContentBlock.content b1) (ContentBlock.content b2) in
        if Qlt_bool best_sim sim
        then best_loop used_v2 b1 (S idx) rest (Some (idx, b2)) sim
        else best_loop used_v2 b1 (S idx) rest best_match best_sim
  end.

(** The body of [for b1 in v1_blocks]: the entry appended to [results]
    and the new [used_v2]. *)
Definition match_step (v2_blocks : list ContentBlock.t) (used_v2 : gset nat)
    (b1 : ContentBlock.t) : match_result * gset nat :=
  match best_loop used_v2 b1 0 v2_blocks None 0%Q with
  | (Some (idx, b2), best_sim) =>
      if Qle_bool threshold best_sim
      then
        let '(diff_text, word_changes) :=
          get_word_level_diff (ContentBlock.content b1)
                              (ContentBlock.content b2) in
        (Modified b1 b2 best_sim diff_text word_changes,
         {[idx]} ∪ used_v2)
      else (deleted_entry b1, used_v2)
  | (None, _) => (deleted_entry b1, used_v2)
  end.

(** The entry for a pair of blocks taken as one edited block. *)
Definition modified_entry (b1 b2 : ContentBlock.t) : match_result :=
  let d := get_word_level_diff (ContentBlock.content b1)
                               (ContentBlock.content b2) in
  Modified b1 b2
    (Difflib.ratio (ContentBlock.content b1) (ContentBlock.content b2))
    d.1 d.2.

Fixpoint match_loop (v2_blocks : list ContentBlock.t)
    (v1_blocks : list ContentBlock.t) (used_v2 : gset nat)
    : list match_result * gset nat :=
  match v1_blocks with
  | [] => ([], used_v2)
  | b1 :: rest =>
      let '(r, used_v2') := match_step v2_blocks used_v2 b1 in
      let '(rs, used_v2'') := match_loop v2_blocks rest used_v2' in
      (r :: rs, used_v2'')
  end.

(** The closing loop: unmatched v2 blocks are additions. *)
Fixpoint additions (used_v2 : gset nat) (idx : nat)
    (v2_blocks : list ContentBlock.t) : list match_result :=
  match v2_blocks with
  | [] => []
  | b2 :: rest =>
      if decide (idx ∈ used_v2) then additions used_v2 (S idx) rest
      else added_entry b2 :: additions used_v2 (S idx) rest
  end.

Definition _match_similar_blocks (v1_blocks v2_blocks : list ContentBlock.t)
    : list match_result :=
  let '(results, used_v2) := match_loop v2_blocks v1_blocks ∅ in
  results ++ additions used_v2 0 v2_blocks.

Definition location_of (block : ContentBlock.t) : text :=
  Py.str "Block " ++ Py.str_of_int (ContentBlock.index block + 1).

Definition deleted_change (change_id : Z) (block : ContentBlock.t)
    (diff_text : text) (word_changes : list WordChange.t) : Change.t :=
  {| Change.change_id := change_id;
     Change.change_type := DELETED;
     Change.block_type := ContentBlock.block_type block;
     Change.location := location_of block;
     Change.original := Some (ContentBlock.content block);
     Change.modified := None;
     Change.similarity := None;
     Change.diff_text := Some diff_text;
     Change.word_changes := Some word_changes |}.

Definition added_change (change_id : Z) (block : ContentBlock.t)
    (diff_text : text) (word_changes : list WordChange.t) : Change.t :=
  {| Change.change_id := change_id;
     Change.change_type := ADDED;
     Change.block_type := ContentBlock.block_type block;
     Change.location := location_of block;
     Change.original := None;
     Change.modified := Some (ContentBlock.content block);
     Change.similarity := None;
     Change.diff_text := Some diff_text;
     Change.word_changes := Some word_changes |}.

Definition modified_change (change_id : Z) (v1 v2 : ContentBlock.t)
    (similarity : Q) (diff_text : text) (word_changes : list WordChange.t)
    : Change.t :=
  {| Change.change_id := change_id;
     Change.change_type := MODIFIED;
     Change.block_type := ContentBlock.block_type v1;
     Change.location := location_of v1;
     Change.original := Some (ContentBlock.content v1);
     Change.modified := Some (ContentBlock.content v2);
     Change.similarity := Some similarity;
     Change.diff_text := Some diff_text;
     Change.word_changes := Some word_changes |}.

(** The change built from one entry of [matched]. *)
Definition change_of_match (change_id : Z) (m : match_result) : Change.t :=
  match m with
  | Modified v1 v2 sim dt wcs => modified_change change_id v1 v2 sim dt wcs
  | Deleted v1 dt wcs => deleted_change change_id v1 dt wcs
  | Added v2 dt wcs => added_change change_id v2 dt wcs
  end.

(** Appending one change per element, [change_id] counting up. *)
Fixpoint number {X} (mk : Z → X → Change.t) (change_id : Z) (xs : list X)
    : list Change.t :=
  match xs with
  | [] => []
  | x :: xs' => mk change_id x :: number mk (change_id + 1)%Z xs'
  end.

(** The changes of the [delete] and [insert] branches. *)
Definition whole_deleted (change_id : Z) (block : ContentBlock.t) :=
  deleted_change change_id block (minus_marker (ContentBlock.content block))
                 (whole_block_deleted (ContentBlock.content block)).

Definition whole_added (change_id : Z) (block : ContentBlock.t) :=
  added_change change_id block (plus_marker (ContentBlock.content block))
               (whole_block_added (ContentBlock.content block)).

(** The changes one opcode contributes, numbered from [change_id];
    [None] stands for [IndexError]. *)
Definition opcode_changes (blocks_v1 blocks_v2 : list ContentBlock.t)
    (change_id : Z) (op : Difflib.opcode) : option (list Change.t) :=
  let '(tag, i1, i2, j1, j2) := op in
  match tag with
  | Difflib.Equal => Some []
  | Difflib.Delete =>
      number whole_deleted change_id <$> getitems blocks_v1 i1 i2
  | Difflib.Insert =>
      number whole_added change_id <$> getitems blocks_v2 j1 j2
  | Difflib.Replace =>
      v1_blocks ← getitems blocks_v1 i1 i2;
      v2_blocks ← getitems blocks_v2 j1 j2;
      Some (number change_of_match change_id
                   (_match_similar_blocks v1_blocks v2_blocks))
  end.

(** The loop over [matcher.get_opcodes()]: the state is
    [(changes, change_id)]. *)
Fixpoint opcodes_changes (blocks_v1 blocks_v2 : list ContentBlock.t)
    (ops : list Difflib.opcode) (changes : list Change.t) (change_id : Z)
    : option (list Change.t) :=
  match ops with
  | [] => Some changes
  | op :: ops' =>
      new ← opcode_changes blocks_v1 blocks_v2 change_id op;
      opcodes_changes blocks_v1 blocks_v2 ops' (changes ++ new)
                      (change_id + Z.of_nat (length new))%Z
  end.

Definition diff_documents (blocks_v1 blocks_v2 : list ContentBlock.t)
    : option (list Change.t) :=
  let contents_v1 := map ContentBlock.content blocks_v1 in
  let contents_v2 := map ContentBlock.content blocks_v2 in
  opcodes_changes blocks_v1 blocks_v2
                  (Difflib.get_opcodes contents_v1 contents_v2) [] 1%Z.
End WithUnicode.

End Differ.

(** ** [app/services/classifier.py] *)

(** A value returned by [json.loads].  A float is kept as what [int(x)]
    makes of it ([None] for [nan] and the infinities); an object is kept
    as its key/value pairs, keys distinct. *)
#[local] Unset Elimination Schemes.
Inductive json :=
| JNull
| JBool (b : bool)
| JInt (z : Z)
| JFloat (truncated : option Z)
| JStr (s : text)
| JList (items : list json)
| JDict (pairs : list (text * json)).
#[local] Set Elimination Schemes.

(** The exceptions that can reach the handler of [classify_batch]. *)
Inductive exn :=
| ApiError (msg : text)            (** raised while calling the service or
                                       reading its reply; [str(e)] is [msg] *)
| NotSubscriptable                 (** [response_text[:200]] on [None] *)
| JSONDecodeError (doc : text)
| NotIterable (v : json)           (** [for item in parsed] *)
| NoAttribute (v : json) (name : text)   (** [item.get], [x.lower] *)
| IntError (v : json)              (** [int(change_id)] *)
| LoadError (msg : text).          (** raised by [json.loads] and not a
                                       [JSONDecodeError]: [RecursionError]
                                       on deep nesting, [ValueError] on an
                                       integer beyond the digit limit;
                                       [str(e)] is [msg] *)

Inductive except (A : Type) :=
| Ok (x : A)
| Raise (e : exn).
Arguments Ok {A} x.
Arguments Raise {A} e.

Definition except_bind {A B} (m : except A) (f : A → except B) : except B :=
  match m with
  | Ok x => f x
  | Raise e => Raise e
  end.

(** What the call [json.loads(s)] does: it returns a value, raises
    [json.JSONDecodeError], or raises another exception. *)
Inductive loaded :=
| Loaded (v : json)
| DecodeError
| LoadRaises (msg : text).

(** The parts of the interpreter and of its library left open. *)
Class interpreter := {
  (** [json.loads(s)] *)
  json_loads : text → loaded;
  (** [int(s)] for a string; [None] stands for [ValueError] *)
  int_of_str : text → option Z;
  (** [str(e)] for the exceptions the interpreter words itself *)
  exn_str : exn → text
}.

(** What the call [client.chat.completions.create(...)] does, up to the
    read of [response.choices[0].message.content]. *)
Inductive outcome :=
| Raises (msg : text)
| Replies (llm_time_ms : Z) (content : option text).

(** The external service.  The request is built from the model name, the
    changes and the document type only ([_build_prompt],
    [_get_system_prompt]), so the service is a function of these. *)
Class service := {
  chat_completions_create : text → list Change.t → text → outcome
}.

(** [app/config.py] *)
Record Settings := {
  OPENAI_API_KEY : text;
  OPENAI_MODEL : text
}.

Module Classifier.

Record ClassificationResult := {
  classified_changes : list ClassifiedChange.t;
  llm_time_ms : Z;
  llm_calls : Z
}.

Definition percent_reason : text := Py.str "Giá trị phần trăm thay đổi".
Definition usd_reason : text := Py.str "Giá trị tiền tệ thay đổi (USD)".
Definition vnd_reason : text := Py.str "Giá trị tiền tệ thay đổi (VND)".
Definition number_reason : text := Py.str "Giá trị số thay đổi".

Import Re.

(** [\d+[.,]?\d*\s*%] *)
Definition percent_pattern : regex :=
  Cat (plus digit)
    (Cat (opt (InSet [IChar (ch "."); IChar (ch ",")]))
       (Cat (star digit) (Cat (star space) (Lit (ch "%"))))).

(** [\$\s*[\d,]+\.?\d*] *)
Definition usd_pattern : regex :=
  Cat (Lit (ch "$"))
    (Cat (star space)
       (Cat (plus (InSet [IDigit; IChar (ch ",")]))
          (Cat (opt (Lit (ch "."))) (star digit)))).

Definition amount : regex :=
  plus (InSet [IDigit; IChar (ch "."); IChar (ch ",")]).

(** [[\d.,]+\s*(VND|đồng|vnđ|VNĐ)] *)
Definition vnd_pattern : regex :=
  Cat amount
    (Cat (star space)
       (Alt (word_i (Py.str "VND"))
          (Alt (word_i (Py.str "đồng"))
             (Alt (word_i (Py.str "vnđ")) (word_i (Py.str "VNĐ")))))).

(** [[\d.,]+\s*(triệu|tỷ|nghìn|ngàn)] *)
Definition vnd_word_pattern : regex :=
  Cat amount
    (Cat (star space)
       (Alt (word_i (Py.str "triệu"))
          (Alt (word_i (Py.str "tỷ"))
             (Alt (word_i (Py.str "nghìn")) (word_i (Py.str "ngàn")))))).

Definition separator : regex := InSet [IChar (ch "."); IChar (ch ",")].

(** [\b\d{1,3}([.,]\d{3})+\b] *)
Definition grouped_pattern : regex :=
  Cat Boundary
    (Cat (Repeat 1 (Some 3) digit)
       (Cat (plus (Cat separator (Repeat 3 (Some 3) digit))) Boundary)).

(** [\b\d+[.,]\d+\b] *)
Definition decimal_pattern : regex :=
  Cat Boundary (Cat (plus digit) (Cat separator (Cat (plus digit) Boundary))).

Definition CRITICAL_PATTERNS : list (regex * text) :=
  [ (percent_pattern, percent_reason);
    (usd_pattern, usd_reason);
    (vnd_pattern, vnd_reason);
    (vnd_word_pattern, vnd_reason);
    (grouped_pattern, number_reason);
    (decimal_pattern, number_reason) ].

Definition RISK_STATEMENTS : gmap text text :=
  list_to_map
    [ (percent_reason,
       Py.str "Có thể ảnh hưởng đến các tính toán tài chính - cần xác minh");
      (usd_reason,
       Py.str "Sai lệch giá trị tiền tệ - có thể ảnh hưởng tài chính");
      (vnd_reason,
       Py.str "Sai lệch giá trị tiền tệ - có thể ảnh hưởng tài chính");
      (number_reason,
       Py.str "Thay đổi dữ liệu số - cần kiểm tra với nguồn gốc") ].

(** [change.word_changes] as a condition: neither [None] nor empty. *)
Definition has_word_changes (change : Change.t) : bool :=
  match Change.word_changes change with
  | Some (_ :: _) => true
  | _ => false
  end.

Definition word_changes_of (change : Change.t) : list WordChange.t :=
  default [] (Change.word_changes change).

Section Rules.
Context `{unicode_db}.

Definition texts_to_check (wcs : list WordChange.t) : list text :=
  flat_map
    (λ wc,
       (if Py.truthy (WordChange.old_text wc)
        then [WordChange.old_text wc] else [])
       ++ (if Py.truthy (WordChange.new_text wc)
           then [WordChange.new_text wc] else []))
    wcs.

Definition text_to_analyze (change : Change.t) : text :=
  if has_word_changes change
  then Py.join (Py.str " ") (texts_to_check (word_changes_of change))
  else default [] (Change.diff_text change).

(** The test on one word change in [_is_trivial_change]. *)
Definition same_letters (wc : WordChange.t) : bool :=
  let old := Py.strip (WordChange.old_text wc) in
  let new := Py.strip (WordChange.new_text wc) in
  let old_alpha := sub_non_word old in
  let new_alpha := sub_non_word new in
  bool_decide (Py.lower old_alpha = Py.lower new_alpha).

Definition _is_trivial_change (change : Change.t) : bool :=
  if negb (has_word_changes change) then false
  else forallb same_letters (word_changes_of change).

(** The loop over [CRITICAL_PATTERNS]. *)
Fixpoint scan_patterns (patterns : list (regex * text)) (s : text)
    : option ImpactLevel * text * text :=
  match patterns with
  | [] => (None, [], [])
  | (pattern, reason) :: rest =>
      if search pattern s
      then
        let risk :=
          default (Py.str "Phát hiện thay đổi - cần xem xét")
                  (RISK_STATEMENTS !! reason) in
        (Some CRITICAL, reason, risk)
      else scan_patterns rest s
  end.

Definition trivial_result : option ImpactLevel * text * text :=
  (Some LOW, Py.str "Thay đổi không đáng kể",
   Py.str "Không ảnh hưởng đến nghiệp vụ - chỉ thay đổi định dạng").

Definition classify_by_rules (change : Change.t)
    : option ImpactLevel * text * text :=
  let text_to_analyze := text_to_analyze change in
  if _is_trivial_change change then trivial_result
  else scan_patterns CRITICAL_PATTERNS text_to_analyze.
End Rules.

(** The value stored for an id: [(impact, reasoning, risk_analysis)]. *)
Definition verdict : Type := ImpactLevel * text * text.

(** [{c.change_id: v for c in changes}] *)
Definition same_for_all (changes : list Change.t) (v : verdict)
    : gmap (option Z) verdict :=
  foldl (λ d c, <[Some (Change.change_id c) := v]> d) ∅ changes.

Definition manual_review : text := Py.str "Cần xem xét thủ công".

Definition unavailable : verdict :=
  (MEDIUM, Py.str "LLM không khả dụng - mặc định mức trung bình",
   manual_review).

Section LLM.
Context `{unicode_db} `{interpreter} `{service}.
Variable settings : Settings.

Definition str_of_exn (e : exn) : text :=
  match e with
  | ApiError msg => msg
  | LoadError msg => msg
  | _ => exn_str e
  end.

(** The verdict of the [except Exception as e] handler. *)
Definition failed (e : exn) : verdict :=
  (MEDIUM, Py.str "Lỗi LLM: " ++ take 50 (str_of_exn e), manual_review).

Definition startswith (p s : text) : bool :=
  bool_decide (take (length p) s = p).

Definition endswith (p s : text) : bool :=
  bool_decide (drop (length s - length p) s = p) && (length p <=? length s).

(** The code-fence trimming at the head of [_parse_response]. *)
Definition unfence (response_text : text) : text :=
  let t := Py.strip response_text in
  let t := if startswith (Py.str "```json") t then drop 7 t else t in
  let t := if startswith (Py.str "```") t then drop 3 t else t in
  let t := if endswith (Py.str "```") t then take (length t - 3) t else t in
  Py.strip t.

(** [for item in parsed]: what the iteration yields. *)
Definition iterate (parsed : json) : except (list json) :=
  match parsed with
  | JList items => Ok items
  | JDict pairs => Ok (map (λ p, JStr p.1) pairs)
  | JStr s => Ok (map (λ c, JStr [c]) s)
  | _ => Raise (NotIterable parsed)
  end.

Fixpoint assoc (key : text) (pairs : list (text * json)) : option json :=
  match pairs with
  | [] => None
  | (k, v) :: rest => if decide (k = key) then Some v else assoc key rest
  end.

(** [item.get(key)] *)
Definition dict_get (item : json) (key : text) : except (option json) :=
  match item with
  | JDict pairs => Ok (assoc key pairs)
  | _ => Raise (NoAttribute item (Py.str "get"))
  end.

(** [int(change_id)] *)
Definition to_int (v : json) : except Z :=
  match v with
  | JBool b => Ok (if b then 1 else 0)%Z
  | JInt z => Ok z
  | JFloat (Some z) => Ok z
  | JStr s =>
      match int_of_str s with
      | Some z => Ok z
      | None => Raise (IntError v)
      end
  | _ => Raise (IntError v)
  end.

Definition impact_map : gmap text ImpactLevel :=
  list_to_map
    [ (Py.str "critical", CRITICAL); (Py.str "medium", MEDIUM);
      (Py.str "low", LOW); (Py.str "high", CRITICAL) ].

Definition default_reasons (impact : ImpactLevel) : text * text :=
  match impact with
  | CRITICAL => (Py.str "Thay đổi quan trọng", Py.str "Cần xem xét kỹ")
  | MEDIUM => (Py.str "Thay đổi có ý nghĩa", Py.str "Cần xem xét")
  | LOW => (Py.str "Thay đổi nhỏ", Py.str "Ảnh hưởng thấp")
  end.

(** The body of [for item in parsed]. *)
Definition parse_item (results : gmap (option Z) verdict) (item : json)
    : except (gmap (option Z) verdict) :=
  except_bind (dict_get item (Py.str "id")) (λ id,
  except_bind
    (match id with
     | None | Some JNull => Ok None
     | Some v => except_bind (to_int v) (λ z, Ok (Some z))
     end) (λ change_id,
  except_bind (dict_get item (Py.str "impact")) (λ imp,
  except_bind
    (match default (JStr (Py.str "medium")) imp with
     | JStr s => Ok (Py.lower s)
     | v => Raise (NoAttribute v (Py.str "lower"))
     end) (λ impact_str,
  let impact := default MEDIUM (impact_map !! impact_str) in
  let '(reasoning, risk) := default_reasons impact in
  Ok (<[change_id := (impact, reasoning, risk)]> results))))).

Fixpoint parse_items (items : list json) (results : gmap (option Z) verdict)
    : except (gmap (option Z) verdict) :=
  match items with
  | [] => Ok results
  | item :: rest =>
      except_bind (parse_item results item) (parse_items rest)
  end.

Definition _parse_response (response_text : text) (changes : list Change.t)
    : except (gmap (option Z) verdict) :=
  match json_loads (unfence response_text) with
  | DecodeError => Ok ∅
  | LoadRaises msg => Raise (LoadError msg)
  | Loaded parsed =>
      except_bind (iterate parsed) (λ items, parse_items items ∅)
  end.

(** [LLMClassifier(api_key)]: the object is its [self.api_key], which is
    [api_key or settings.OPENAI_API_KEY]; [self.client] is set when that
    key is not empty. *)
Definition make_classifier (api_key : option text) : text :=
  match api_key with
  | Some (c :: k) => c :: k
  | _ => OPENAI_API_KEY settings
  end.

Definition has_client (self_api_key : text) : bool := Py.truthy self_api_key.

Definition classify_batch (self_api_key : text) (changes : list Change.t)
    (document_type : text) : gmap (option Z) verdict * Z :=
  if negb (Py.truthy changes) then (∅, 0%Z)
  else if negb (has_client self_api_key)
  then (same_for_all changes unavailable, 0%Z)
  else
    match chat_completions_create (OPENAI_MODEL settings) changes
                                  document_type with
    | Raises msg => (same_for_all changes (failed (ApiError msg)), 0%Z)
    | Replies llm_time_ms None =>
        (same_for_all changes (failed NotSubscriptable), 0%Z)
    | Replies llm_time_ms (Some response_text) =>
        match _parse_response response_text changes with
        | Ok parsed_results => (parsed_results, llm_time_ms)
        | Raise e => (same_for_all changes (failed e), 0%Z)
        end
    end.

Definition classified (change : Change.t) (v : verdict) (source : text)
    : ClassifiedChange.t :=
  {| ClassifiedChange.change_id := Change.change_id change;
     ClassifiedChange.change_type := Change.change_type change;
     ClassifiedChange.block_type := Change.block_type change;
     ClassifiedChange.location := Change.location change;
     ClassifiedChange.original := Change.original change;
     ClassifiedChange.modified := Change.modified change;
     ClassifiedChange.similarity := Change.similarity change;
     ClassifiedChange.diff_text := Change.diff_text change;
     ClassifiedChange.word_changes := Change.word_changes change;
     ClassifiedChange.impact := v.1.1;
     ClassifiedChange.reasoning := v.1.2;
     ClassifiedChange.risk_analysis := v.2;
     ClassifiedChange.classification_source := source |}.

(** Layer 1: the loop over [changes]; the state is
    [(classified, needs_llm)]. *)
Fixpoint rule_layer (changes : list Change.t)
    (done : list ClassifiedChange.t) (needs_llm : list Change.t)
    : list ClassifiedChange.t * list Change.t :=
  match changes with
  | [] => (done, needs_llm)
  | change :: rest =>
      match classify_by_rules change with
      | (Some impact, reasoning, risk) =>
          rule_layer rest
            (done ++ [classified change (impact, reasoning, risk)
                                 (Py.str "rule-based")])
            needs_llm
      | (None, _, _) => rule_layer rest done (needs_llm ++ [change])
      end
  end.

Definition unclassified : verdict :=
  (MEDIUM, Py.str "Không thể phân loại", manual_review).

(** Layer 2: the body of [for change in needs_llm]. *)
Definition llm_classified (llm_results : gmap (option Z) verdict)
    (change : Change.t) : ClassifiedChange.t :=
  classified change
    (default unclassified (llm_results !! Some (Change.change_id change)))
    (Py.str "llm").

(** [classified.sort(key=lambda c: c.change_id)]: a stable sort. *)
Fixpoint insert_by_id (c : ClassifiedChange.t) (l : list ClassifiedChange.t)
    : list ClassifiedChange.t :=
  match l with
  | [] => [c]
  | d :: l' =>
      if (ClassifiedChange.change_id c <=? ClassifiedChange.change_id d)%Z
      then c :: l
      else d :: insert_by_id c l'
  end.

Definition sort_by_id (l : list ClassifiedChange.t)
    : list ClassifiedChange.t :=
  foldr insert_by_id [] l.

Definition classify_changes (changes : list Change.t) (document_type : text)
    (api_key : option text) : ClassificationResult :=
  let '(done, needs_llm) := rule_layer changes [] [] in
  if Py.truthy needs_llm
  then
    let llm := make_classifier api_key in
    let '(llm_results, llm_time_ms) :=
      classify_batch llm needs_llm document_type in
    let llm_calls := if Py.truthy needs_llm then 1%Z else 0%Z in
    {| classified_changes :=
         sort_by_id (done ++ map (llm_classified llm_results) needs_llm);
       llm_time_ms := llm_time_ms;
       llm_calls := llm_calls |}
  else
    {| classified_changes := sort_by_id done;
       llm_time_ms := 0;
       llm_calls := 0 |}.
End LLM.

End Classifier.

(** ** Sample environments and inputs

    Used to run the definitions on concrete values. *)

Module Samples.

(** A database that knows no character beyond ASCII; on ASCII inputs the
    database is not consulted. *)
Definition ascii_db : unicode_db := {|
  uni_isspace := λ _, false;
  uni_isdecimal := λ _, false;
  uni_isalnum := λ _, false;
  uni_lower := λ s, s;
  uni_ignorecase := λ p c, bool_decide (p = c)
|}.

(** An interpreter whose [json.loads] rejects every text. *)
Definition rejecting : interpreter := {|
  json_loads := λ _, DecodeError;
  int_of_str := λ _, None;
  exn_str := λ _, Py.str "error"
|}.

(** An interpreter whose [json.loads] returns a fixed value. *)
Definition loading (v : json) : interpreter := {|
  json_loads := λ _, Loaded v;
  int_of_str := λ _, None;
  exn_str := λ _, Py.str "error"
|}.


(** A service that raises, and one that replies a fixed text after
    [ms] milliseconds. *)
Definition raising (msg : string) : service := {|
  chat_completions_create := λ _ _ _, Raises (Py.str msg)
|}.

Definition replying (ms : Z) (reply : string) : service := {|
  chat_completions_create := λ _ _ _, Replies ms (Some (Py.str reply))
|}.


Definition no_key : Settings :=
  {| OPENAI_API_KEY := []; OPENAI_MODEL := Py.str "gpt-4o" |}.

Definition with_key : Settings :=
  {| OPENAI_API_KEY := Py.str "sk-test"; OPENAI_MODEL := Py.str "gpt-4o" |}.

Definition paragraph (i : Z) (s : string) : ContentBlock.t :=
  {| ContentBlock.index := i;
     ContentBlock.block_type := Py.str "paragraph";
     ContentBlock.content := Py.str s |}.

Definition word_change (kind old new : string) : WordChange.t :=
  {| WordChange.change_type := Py.str kind;
     WordChange.old_text := Py.str old;
     WordChange.new_text := Py.str new;
     WordChange.context := [] |}.

(** A modified paragraph with the given id and word changes. *)
Definition edit (id : Z) (diff : string) (wcs : option (list WordChange.t))
    : Change.t :=
  {| Change.change_id := id;
     Change.change_type := MODIFIED;
     Change.block_type := Py.str "paragraph";
     Change.location := Py.str "Block 1";
     Change.original := Some (Py.str "before");
     Change.modified := Some (Py.str "after");
     Change.similarity := Some (1 # 2)%Q;
     Change.diff_text := Some (Py.str diff);
     Change.word_changes := wcs |}.

(** A whole-paragraph deletion, as [diff_documents] emits it. *)
Definition deletion (id : Z) (s : string) : Change.t :=
  @Differ.whole_deleted id (paragraph (id - 1) s).

(** A reply that names only edit 2. *)
Definition partial_reply : json :=
  JList [JDict [(Py.str "id", JInt 2);
                (Py.str "impact", JStr (Py.str "low"))]].

(** Edit 1 changes a percentage; edits 2 and 3 carry no number. *)
Definition three_edits : list Change.t :=
  [ edit 1 "" (Some [word_change "replaced" "5%." "10%."]);
    deletion 2 "Note: see appendix.";
    edit 3 "" (Some [word_change "replaced" "shall" "may"]) ].

Definition general : text := Py.str "general".

End Samples.

(** The fields a classified change shares with the change it comes from. *)
Definition base (c : ClassifiedChange.t) : Change.t :=
  {| Change.change_id := ClassifiedChange.change_id c;
     Change.change_type := ClassifiedChange.change_type c;
     Change.block_type := ClassifiedChange.block_type c;
     Change.location := ClassifiedChange.location c;
     Change.original := ClassifiedChange.original c;
     Change.modified := ClassifiedChange.modified c;
     Change.similarity := ClassifiedChange.similarity c;
     Change.diff_text := ClassifiedChange.diff_text c;
     Change.word_changes := ClassifiedChange.word_changes c |}.


(** The similarity [_match_similar_blocks] computes for two blocks. *)
Definition similarity_of (b1 b2 : ContentBlock.t) : Q :=
  Difflib.ratio (ContentBlock.content b1) (ContentBlock.content b2).

(** The length of the run of non-popular elements of [a] that ends at
    index [i]. *)
Fixpoint run {A} `{EqDecision A} (a : list A) (i : nat) : nat :=
  let before := match i with O => 0 | S i' => run a i' end in
  match a !! i with
  | Some x => if Difflib.popular a x then 0 else S before
  | None => 0
  end.

Definition run_before {A} `{EqDecision A} (a : list A) (i : nat) : nat :=
  match i with O => 0 | S i' => run a i' end.

(** A block on the diagonal that ends before row [i]. *)
Definition diagonal (i : nat) (best : Difflib.block) : Prop :=
  best.1.1 = best.1.2 ∧ best.1.1 + best.2 ≤ i.

(** The state of [find_longest_match] on [a] against itself after the
    rows before [i]: [j2len] is bounded by the runs, exact on the diagonal,
    and the best block lies on the diagonal and is at least as long as
    every run seen. *)
Definition rows_done {A} `{EqDecision A} (a : list A) (i : nat)
    (J : gmap nat nat) (best : Difflib.block) : Prop :=
  (∀ j, default 0 (J !! j) ≤ run_before a i ∧ default 0 (J !! j) ≤ run a j)
  ∧ Difflib.j2lenget J i = run_before a i
  ∧ diagonal i best
  ∧ ∀ i', i' < i → run a i' ≤ best.2.

(** Order of classified changes by id. *)
Definition id_le (c d : ClassifiedChange.t) : Prop :=
  (ClassifiedChange.change_id c ≤ ClassifiedChange.change_id d)%Z.

Definition id_lt (c d : ClassifiedChange.t) : Prop :=
  (ClassifiedChange.change_id c < ClassifiedChange.change_id d)%Z.

Definition dollar_100 : text := Py.str "$100".

(** The two texts of a word change agree once surrounding whitespace and
    every character outside [\w] are dropped and the rest is lowered. *)
Definition same_word_characters `{unicode_db} (wc : WordChange.t) : Prop :=
  Py.lower (Re.sub_non_word (Py.strip (WordChange.old_text wc)))
  = Py.lower (Re.sub_non_word (Py.strip (WordChange.new_text wc))).

(** The two texts of a word change agree once every character that is not
    alphanumeric is dropped and the rest is lowered. *)
Definition same_alphanumerics `{unicode_db} (wc : WordChange.t) : Prop :=
  Py.lower (filter (λ c, Py.isalnum c) (WordChange.old_text wc))
  = Py.lower (filter (λ c, Py.isalnum c) (WordChange.new_text wc)).

(** ** [app/services/annotator.py] *)

Module Annotator.

(** What [_extract_block_index] does: it returns [None], returns an
    integer, or [int] raises [ValueError]. *)
Inductive extracted := NoIndex | Index (i : Z) | ValueError.

Section Annotator.
Context `{unicode_db} `{interpreter}.

(** The longest run of [\d] at the head of [s]: what the greedy group
    [(\d+)] takes, nothing following it in the pattern. *)
Fixpoint digit_run (s : text) : text :=
  match s with
  | c :: s' => if Py.isdecimal c then c :: digit_run s' else []
  | [] => []
  end.

(** [re.search(r'Block (\d+)', s)]: group 1 of the leftmost match, which
    begins at the first place where [Block ] is followed by a digit. *)
Fixpoint search_block (s : text) : option text :=
  let here :=
    if Classifier.startswith (Py.str "Block ") s
    then digit_run (drop 6 s) else [] in
  if Py.truthy here then Some here
  else
    match s with
    | [] => None
    | _ :: s' => search_block s'
    end.

Definition _extract_block_index (location : text) : extracted :=
  match search_block location with
  | Some group =>
      match int_of_str group with
      | Some z => Index (z - 1)
      | None => ValueError
      end
  | None => NoIndex
  end.
End Annotator.
End Annotator.

(** ** [app/utils/storage.py] *)

Module Storage.
Section Storage.

(** The values of [time.time()], and the test
    [now - created > max_age_seconds] on them. *)
Variable time : Type.
Variable older_than : time → time → Z → bool.

Record document := {
  bytes : list N;
  filename : text;
  created : time
}.

(** [self._storage] is a [gmap text document]; [DocumentStorage()]
    starts with the empty one. *)
Definition empty : gmap text document := ∅.

(** [store]; [now] is what [time.time()] returns. *)
Definition store (st : gmap text document) (doc_id : text)
    (doc_bytes : list N) (name : text) (now : time) : gmap text document :=
  <[doc_id := {| bytes := doc_bytes; filename := name; created := now |}]> st.

Definition get (st : gmap text document) (doc_id : text) : option document :=
  st !! doc_id.

Definition delete (st : gmap text document) (doc_id : text)
    : gmap text document * bool :=
  if decide (is_Some (st !! doc_id))
  then (base.delete doc_id st, true)
  else (st, false).

(** The list [to_remove] of [cleanup]. *)
Definition to_remove (st : gmap text document) (now : time)
    (max_age_seconds : Z) : list text :=
  (filter (λ p, older_than now (created p.2) max_age_seconds = true)
     (map_to_list st)).*1.

Definition cleanup (st : gmap text document) (now : time)
    (max_age_seconds : Z) : gmap text document * Z :=
  let ids := to_remove st now max_age_seconds in
  (foldl (λ m doc_id, base.delete doc_id m) st ids, Z.of_nat (length ids)).
End Storage.
End Storage.

(** ** [app/main.py]: the summary of [compare_documents] *)

Module Main.

Record ChangeSummary := {
  total : Z;
  critical : Z;
  medium : Z;
  low : Z
}.

(** [sum(1 for c in classified if c.impact == level)] *)
Definition count_impact (level : ImpactLevel)
    (classified : list ClassifiedChange.t) : Z :=
  foldl (λ n c, if decide (ClassifiedChange.impact c = level)
                then (n + 1)%Z else n) 0%Z classified.

Definition summary (classified : list ClassifiedChange.t) : ChangeSummary :=
  {| total := Z.of_nat (length classified);
     critical := count_impact CRITICAL classified;
     medium := count_impact MEDIUM classified;
     low := count_impact LOW classified |}.

Section Compare.
Context `{unicode_db} `{interpreter} `{service}.
Variable settings : Settings.

(** Steps 2 and 3 of [compare_documents] and the summary built from them;
    [None] stands for an exception of the differ, which the endpoint
    turns into a 500 response. *)
Definition compare_summary (blocks_v1 blocks_v2 : list ContentBlock.t)
    (document_type : text) : option ChangeSummary :=
  match Differ.diff_documents blocks_v1 blocks_v2 with
  | Some changes =>
      Some (summary
              (Classifier.classified_changes
                 (Classifier.classify_changes settings changes document_type
                    (Some (OPENAI_API_KEY settings)))))
  | None => None
  end.
End Compare.
End Main.

(** ** Further auxiliary definitions *)

(** A block inside the window [alo, ahi) x [blo, bhi). *)
Definition within (alo ahi blo bhi : nat) (m : Difflib.block) : Prop :=
  alo ≤ m.1.1 ∧ m.1.1 + m.2 ≤ ahi ∧ blo ≤ m.1.2 ∧ m.1.2 + m.2 ≤ bhi.

(** The entries of [j2len] after row [i]: keys from [blo] on, lengths that
    fit between the window corner and the cell. *)
Definition j2len_fits (alo blo i : nat) (J : gmap nat nat) : Prop :=
  ∀ j v, J !! j = Some v → blo ≤ j ∧ v ≤ i + 1 - alo ∧ v ≤ j + 1 - blo.

(** A queue entry inside the two sequences. *)
Definition range_ok (la lb : nat) (r : Difflib.range) : Prop :=
  let '(alo, ahi, blo, bhi) := r in alo ≤ ahi ∧ ahi ≤ la ∧ blo ≤ bhi ∧ bhi ≤ lb.

(** The passes of the queue loop a queue entry can still cause. *)
Definition weight (r : Difflib.range) : nat :=
  let '(alo, ahi, blo, bhi) := r in 2 * (ahi - alo) + 1.

(** The most elements a queue entry can still match. *)
Definition room (r : Difflib.range) : nat :=
  let '(alo, ahi, blo, bhi) := r in (ahi - alo) `min` (bhi - blo).

Definition sizes (l : list Difflib.block) : nat :=
  sum_list (map (λ m : Difflib.block, m.2) l).

(** A block that ends inside the sequences. *)
Definition ends_inside {A} (a b : list A) (m : Difflib.block) : Prop :=
  m.1.1 + m.2 ≤ length a ∧ m.1.2 + m.2 ≤ length b.

(** An opcode whose two ranges end inside the sequences. *)
Definition opcode_inside {A} (a b : list A) (op : Difflib.opcode) : Prop :=
  let '(tag, i1, i2, j1, j2) := op in i2 ≤ length a ∧ j2 ≤ length b.

(** An opcode whose ranges are as its tag says: the v1 range of a delete,
    the v2 range of an insert, both ranges of a replace and of an equal
    are not empty. *)
Definition tag_ok (op : Difflib.opcode) : Prop :=
  let '(tag, i1, i2, j1, j2) := op in
  match tag with
  | Difflib.Replace => i1 < i2 ∧ j1 < j2
  | Difflib.Delete => i1 < i2
  | Difflib.Insert => j1 < j2
  | Difflib.Equal => i1 < i2 ∧ j1 < j2
  end.

(** What a change says about the two documents it was computed from. *)
Definition change_from `{unicode_db}
    (blocks_v1 blocks_v2 : list ContentBlock.t)
    (c : Change.t) : Prop :=
  match Change.change_type c with
  | DELETED =>
      ∃ b1, b1 ∈ blocks_v1
        ∧ Change.block_type c = ContentBlock.block_type b1
        ∧ Change.location c = Differ.location_of b1
        ∧ Change.original c = Some (ContentBlock.content b1)
        ∧ Change.modified c = None
        ∧ Change.similarity c = None
        ∧ Change.diff_text c
          = Some (Differ.minus_marker (ContentBlock.content b1))
        ∧ Change.word_changes c
          = Some (Differ.whole_block_deleted (ContentBlock.content b1))
  | ADDED =>
      ∃ b2, b2 ∈ blocks_v2
        ∧ Change.block_type c = ContentBlock.block_type b2
        ∧ Change.location c = Differ.location_of b2
        ∧ Change.original c = None
        ∧ Change.modified c = Some (ContentBlock.content b2)
        ∧ Change.similarity c = None
        ∧ Change.diff_text c
          = Some (Differ.plus_marker (ContentBlock.content b2))
        ∧ Change.word_changes c
          = Some (Differ.whole_block_added (ContentBlock.content b2))
  | MODIFIED =>
      ∃ b1 b2, b1 ∈ blocks_v1 ∧ b2 ∈ blocks_v2
        ∧ Change.block_type c = ContentBlock.block_type b1
        ∧ Change.location c = Differ.location_of b1
        ∧ Change.original c = Some (ContentBlock.content b1)
        ∧ Change.modified c = Some (ContentBlock.content b2)
        ∧ Change.similarity c = Some (similarity_of b1 b2)
        ∧ (1 # 2 <= similarity_of b1 b2)%Q
        ∧ (similarity_of b1 b2 <= 1)%Q
        ∧ Change.diff_text c
          = Some (Differ.get_word_level_diff (ContentBlock.content b1)
                    (ContentBlock.content b2)).1
        ∧ Change.word_changes c
          = Some (Differ.get_word_level_diff (ContentBlock.content b1)
                    (ContentBlock.content b2)).2
  end.

(** The v1 block and the v2 block an entry speaks of. *)
Definition v1_side (r : Differ.match_result) : option ContentBlock.t :=
  match r with
  | Differ.Modified v1 _ _ _ _ | Differ.Deleted v1 _ _ => Some v1
  | Differ.Added _ _ _ => None
  end.

Definition v2_side (r : Differ.match_result) : option ContentBlock.t :=
  match r with
  | Differ.Modified _ v2 _ _ _ | Differ.Added v2 _ _ => Some v2
  | Differ.Deleted _ _ _ => None
  end.

(** The shape of a word change: which of its two texts is empty follows
    its type. *)
Definition word_change_ok (wc : WordChange.t) : Prop :=
  (WordChange.change_type wc = Py.str "deleted"
   ∧ WordChange.old_text wc ≠ [] ∧ WordChange.new_text wc = [])
  ∨ (WordChange.change_type wc = Py.str "added"
     ∧ WordChange.old_text wc = [] ∧ WordChange.new_text wc ≠ [])
  ∨ (WordChange.change_type wc = Py.str "replaced"
     ∧ WordChange.old_text wc ≠ [] ∧ WordChange.new_text wc ≠ []).

(** The changes the rules leave to the service. *)
Definition unresolved `{unicode_db} (c : Change.t) : bool :=
  match (Classifier.classify_by_rules c).1.1 with
  | None => true
  | Some _ => false
  end.

(** The verdict the rules give, as a classified change. *)
Definition by_rules `{unicode_db} (c : Change.t)
    : option ClassifiedChange.t :=
  match Classifier.classify_by_rules c with
  | (Some impact, reasoning, risk) =>
      Some (Classifier.classified c (impact, reasoning, risk)
              (Py.str "rule-based"))
  | _ => None
  end.

(** A well-formed item of a reply: [{"id": id, "impact": impact}]. *)
Definition reply_item (id : Z) (impact : text) : json :=
  JDict [(Py.str "id", JInt id); (Py.str "impact", JStr impact)].

(** The impact a lowered impact word stands for. *)
Definition impact_of (word : text) : ImpactLevel :=
  if decide (word = Py.str "critical") then CRITICAL
  else if decide (word = Py.str "high") then CRITICAL
  else if decide (word = Py.str "low") then LOW
  else MEDIUM.

(** The verdict stored for an impact word of the reply. *)
Definition verdict_of `{unicode_db} (impact : text) : Classifier.verdict :=
  let level := impact_of (Py.lower impact) in
  (level, (Classifier.default_reasons level).1,
   (Classifier.default_reasons level).2).

(** An ASCII digit. *)
Definition is_digit (c : char) : Prop := (48 ≤ c ≤ 57)%N.

(** Order of changes by id. *)
Definition change_id_lt (c d : Change.t) : Prop :=
  (Change.change_id c < Change.change_id d)%Z.


(** The elements of [a] and [b] agree along the block. *)
Definition agree {A} (a b : list A) (m : Difflib.block) : Prop :=
  ∀ t, t < m.2 →
    is_Some (a !! (m.1.1 + t)) ∧ a !! (m.1.1 + t) = b !! (m.1.2 + t).

(** The entries of [j2len] before row [i]: each is the length of a match
    that ends in row [i - 1] at its key. *)
Definition j2len_sound {A} (a b : list A) (i : nat) (J : gmap nat nat)
    : Prop :=
  ∀ j v, J !! j = Some v →
    v ≤ i ∧ v ≤ j + 1 ∧ agree a b (i - v, j + 1 - v, v).

(** The part of the two sequences a block covers, as a queue entry. *)
Definition rect (m : Difflib.block) : Difflib.range :=
  (m.1.1, m.1.1 + m.2, m.1.2, m.1.2 + m.2).

(** [r] ends, in both sequences, where [s] begins or earlier. *)
Definition before (r s : Difflib.range) : Prop :=
  r.1.1.2 ≤ s.1.1.1 ∧ r.2 ≤ s.1.2.

Definition apart (r s : Difflib.range) : Prop := before r s ∨ before s r.

Definition before_block (x y : Difflib.block) : Prop :=
  before (rect x) (rect y).

(** Opcodes that follow one another from [(i, j)] to [(la, lb)]. *)
Fixpoint chained (i j : nat) (ops : list Difflib.opcode) (la lb : nat)
    : Prop :=
  match ops with
  | [] => i = la ∧ j = lb
  | (tag, i1, i2, j1, j2) :: ops' =>
      i1 = i ∧ j1 = j ∧ i1 ≤ i2 ∧ j1 ≤ j2 ∧ chained i2 j2 ops' la lb
  end.

(** What the tag of an opcode says about its two ranges, and about the
    elements for [equal]. *)
Definition opcode_exact {A} (a b : list A) (op : Difflib.opcode) : Prop :=
  let '(tag, i1, i2, j1, j2) := op in
  match tag with
  | Difflib.Replace => i1 < i2 ∧ j1 < j2
  | Difflib.Delete => i1 < i2 ∧ j1 = j2
  | Difflib.Insert => i1 = i2 ∧ j1 < j2
  | Difflib.Equal =>
      i1 < i2 ∧ i2 - i1 = j2 - j1 ∧ agree a b (i1, j1, i2 - i1)
  end.

(** [p] lies inside [r]. *)
Definition inside (r p : Difflib.range) : Prop :=
  r.1.1.1 ≤ p.1.1.1 ∧ p.1.1.2 ≤ r.1.1.2 ∧ r.1.2 ≤ p.1.2 ∧ p.2 ≤ r.2.

(** The number of changes of a type. *)
Definition count_type (ty : ChangeType) (changes : list Change.t) : nat :=
  length (filter (λ c, Change.change_type c = ty) changes).

(** The elements of the first and of the second sequence that the
    opcodes other than [equal] cover, and those the [equal] ones cover. *)
Definition v1_changed (ops : list Difflib.opcode) : nat :=
  sum_list (map (λ op : Difflib.opcode,
                   let '(tag, i1, i2, j1, j2) := op in
                   if decide (tag = Difflib.Equal) then 0 else i2 - i1) ops).

Definition v2_changed (ops : list Difflib.opcode) : nat :=
  sum_list (map (λ op : Difflib.opcode,
                   let '(tag, i1, i2, j1, j2) := op in
                   if decide (tag = Difflib.Equal) then 0 else j2 - j1) ops).

Definition equal_total (ops : list Difflib.opcode) : nat :=
  sum_list (map (λ op : Difflib.opcode,
                   let '(tag, i1, i2, j1, j2) := op in
                   if decide (tag = Difflib.Equal) then i2 - i1 else 0) ops).

(** The change type an entry of [_match_similar_blocks] leads to. *)
Definition entry_type (r : Differ.match_result) : ChangeType :=
  match r with
  | Differ.Modified _ _ _ _ _ => MODIFIED
  | Differ.Deleted _ _ _ => DELETED
  | Differ.Added _ _ _ => ADDED
  end.

(** * Properties *)

(** ** The hybrid pipeline: completeness, order and frame *)

Section Pipeline.
Context `{unicode_db} `{interpreter} `{service}.
Variable settings : Settings.

Import Classifier.

Lemma base_classified (c : Change.t) (v : verdict) (src : text) :
  base (classified c v src) = c.
Proof. by destruct c. Qed.

Lemma base_llm_classified res (cs : list Change.t) :
  map base (map (llm_classified res) cs) = cs.
Proof.
  induction cs as [|c cs IH]; simpl; [done|].
  unfold llm_classified at 1. by rewrite base_classified, IH.
Qed.

Lemma rule_layer_split (changes : list Change.t) done needs done' needs' :
  rule_layer changes done needs = (done', needs') →
  map base done' ++ needs' ≡ₚ (map base done ++ needs) ++ changes.
Proof.
  revert done needs.
  induction changes as [|c cs IH]; intros done needs Hrun; simpl in Hrun.
  - injection Hrun as <- <-. by rewrite app_nil_r.
  - destruct (classify_by_rules c) as [[[impact|] reasoning] risk].
    + apply IH in Hrun. rewrite Hrun, map_app. simpl.
      rewrite base_classified.
      rewrite <-!app_assoc. apply Permutation_app_head.
      simpl. by rewrite Permutation_middle.
    + apply IH in Hrun. rewrite Hrun.
      rewrite <-!app_assoc. done.
Qed.

Lemma insert_by_id_perm c l : insert_by_id c l ≡ₚ c :: l.
Proof.
  induction l as [|d l IH]; simpl; [done|].
  case_match; [done|]. rewrite IH. apply Permutation_swap.
Qed.

Lemma sort_by_id_perm l : sort_by_id l ≡ₚ l.
Proof.
  induction l as [|c l IH]; simpl; [done|].
  by rewrite insert_by_id_perm, IH.
Qed.

Lemma insert_by_id_sorted c l :
  StronglySorted id_le l → StronglySorted id_le (insert_by_id c l).
Proof.
  induction 1 as [|d l Hl IH Hd]; simpl.
  - repeat constructor.
  - destruct (Z.leb_spec (ClassifiedChange.change_id c)
                         (ClassifiedChange.change_id d)) as [Hle|Hgt].
    + constructor; [by constructor|].
      constructor; [done|].
      eapply Forall_impl; [exact Hd|]. unfold id_le. intros; lia.
    + constructor; [done|].
      rewrite insert_by_id_perm. constructor; [|done].
      unfold id_le. lia.
Qed.

Lemma sort_by_id_sorted l : StronglySorted id_le (sort_by_id l).
Proof.
  induction l; simpl; [constructor|]. by apply insert_by_id_sorted.
Qed.

(** A list sorted by id whose ids are pairwise distinct ascends
    strictly. *)
Lemma sorted_distinct_strict l :
  StronglySorted id_le l →
  NoDup (map ClassifiedChange.change_id l) →
  StronglySorted id_lt l.
Proof.
  induction 1 as [|c l Hl IH Hc]; simpl; intros Hnd; [constructor|].
  apply NoDup_cons in Hnd as [Hnotin Hnd].
  constructor; [by apply IH|].
  apply Forall_forall. intros d Hd.
  rewrite Forall_forall in Hc. specialize (Hc d Hd).
  unfold id_le, id_lt in *.
  assert (ClassifiedChange.change_id c ≠ ClassifiedChange.change_id d).
  { intros Heq. apply Hnotin. rewrite Heq. by apply list_elem_of_fmap_2. }
  lia.
Qed.

Lemma base_change_id c : Change.change_id (base c) = ClassifiedChange.change_id c.
Proof. done. Qed.

(** The classified list is a rearrangement of one classified change per
    input change. *)
Lemma classify_changes_perm changes document_type api_key :
  map base (classified_changes
              (classify_changes settings changes document_type api_key))
  ≡ₚ changes.
Proof.
  unfold classify_changes.
  destruct (rule_layer changes [] []) as [done needs] eqn:Hrun.
  apply rule_layer_split in Hrun. simpl in Hrun.
  destruct (Py.truthy needs) eqn:Hneeds.
  - destruct (classify_batch _ _ _ _) as [res ms]. simpl.
    rewrite sort_by_id_perm, map_app, base_llm_classified. done.
  - destruct needs; [|done]. simpl.
    rewrite sort_by_id_perm. by rewrite app_nil_r in Hrun.
Qed.

Lemma classify_changes_sorted changes document_type api_key :
  StronglySorted id_le
    (classified_changes
       (classify_changes settings changes document_type api_key)).
Proof.
  unfold classify_changes.
  destruct (rule_layer changes [] []) as [done needs].
  destruct (Py.truthy needs).
  - destruct (classify_batch _ _ _ _). apply sort_by_id_sorted.
  - apply sort_by_id_sorted.
Qed.
End Pipeline.

Section PipelineClaims.
Context `{unicode_db} `{interpreter} `{service}.
Variable settings : Settings.

Import Classifier.

(** C10: every output record carries the nine fields of the input
    change it classifies, unchanged; the outputs, stripped of the four
    classification fields, are exactly the input changes (each one once),
    whichever path classified them. *)
Theorem classify_changes_frame changes document_type api_key :
  let out :=
    classified_changes
      (classify_changes settings changes document_type api_key) in
  map base out ≡ₚ changes
  ∧ (∀ cc, cc ∈ out →
       ∃ c, c ∈ changes
         ∧ ClassifiedChange.change_id cc = Change.change_id c
         ∧ ClassifiedChange.change_type cc = Change.change_type c
         ∧ ClassifiedChange.block_type cc = Change.block_type c
         ∧ ClassifiedChange.location cc = Change.location c
         ∧ ClassifiedChange.original cc = Change.original c
         ∧ ClassifiedChange.modified cc = Change.modified c
         ∧ ClassifiedChange.similarity cc = Change.similarity c
         ∧ ClassifiedChange.diff_text cc = Change.diff_text c
         ∧ ClassifiedChange.word_changes cc = Change.word_changes c).
Proof.
  intros out.
  pose proof (classify_changes_perm settings changes document_type api_key)
    as Hperm.
  fold out in Hperm. split; [done|].
  intros cc Hcc. exists (base cc). split; [|done].
  rewrite <-Hperm. by apply list_elem_of_fmap_2.
Qed.

(** C3: when the input edits have pairwise distinct ids, the result holds
    exactly one classified change per input edit and its ids ascend
    strictly, whatever the service does. *)
Theorem classify_changes_complete_sorted changes document_type api_key :
  NoDup (map Change.change_id changes) →
  let out :=
    classified_changes
      (classify_changes settings changes document_type api_key) in
  length out = length changes
  ∧ map base out ≡ₚ changes
  ∧ StronglySorted id_lt out.
Proof.
  intros Hnd out.
  pose proof (classify_changes_perm settings changes document_type api_key)
    as Hperm.
  fold out in Hperm. split_and!.
  - by rewrite <-(length_map base), Hperm.
  - done.
  - apply sorted_distinct_strict.
    + apply classify_changes_sorted.
    + fold out.
      assert (map ClassifiedChange.change_id out
              = map Change.change_id (map base out)) as ->.
      { rewrite map_map. done. }
      by rewrite Hperm.
Qed.
End PipelineClaims.

(** ** The reasoning classifier: degraded results *)

Section Degradation.
Context `{unicode_db} `{interpreter} `{service}.
Variable settings : Settings.

Import Classifier.

Lemma same_for_all_lookup_from (changes : list Change.t) (v : verdict)
    (d : gmap (option Z) verdict) (k : Z) :
  foldl (λ d c, <[Some (Change.change_id c) := v]> d) d changes !! Some k
  = if bool_decide (k ∈ map Change.change_id changes) then Some v
    else d !! Some k.
Proof.
  revert d. induction changes as [|c cs IH]; intros d; simpl; [done|].
  rewrite IH. destruct (decide (k = Change.change_id c)) as [->|Hne].
  - rewrite lookup_insert_eq.
    rewrite (bool_decide_eq_true_2 (_ ∈ _ :: _))
      by (apply elem_of_cons; auto).
    by case_bool_decide.
  - rewrite lookup_insert_ne by congruence.
    case_bool_decide as Hin.
    + rewrite bool_decide_eq_true_2; [done|]. apply elem_of_cons; auto.
    + rewrite bool_decide_eq_false_2; [done|].
      rewrite elem_of_cons. intros [?|?]; done.
Qed.

Lemma same_for_all_lookup (changes : list Change.t) (v : verdict) c :
  c ∈ changes →
  same_for_all changes v !! Some (Change.change_id c) = Some v.
Proof.
  intros Hc. unfold same_for_all. rewrite same_for_all_lookup_from.
  rewrite bool_decide_eq_true_2; [done|]. by apply list_elem_of_fmap_2.
Qed.




(** Without a credential, a non-empty batch gets the fixed
    service-unavailable verdict for every change and zero time. *)
Lemma classify_batch_no_client changes document_type :
  changes ≠ [] →
  let r := classify_batch settings [] changes document_type in
  r.2 = 0%Z ∧ ∀ c, c ∈ changes →
    r.1 !! Some (Change.change_id c) = Some unavailable.
Proof.
  intros Hne r. subst r. unfold classify_batch.
  destruct changes; [done|]. simpl. split; [done|].
  intros c Hc. by apply (same_for_all_lookup (_ :: _)).
Qed.

(** Without a credential the pipeline still counts one call as soon as a
    change is left to the second layer. *)
Lemma classify_changes_no_client changes document_type api_key done needs :
  make_classifier settings api_key = [] →
  rule_layer changes [] [] = (done, needs) →
  needs ≠ [] →
  let result := classify_changes settings changes document_type api_key in
  llm_calls result = 1%Z
  ∧ llm_time_ms result = 0%Z
  ∧ ∀ c, c ∈ needs →
      classified c unavailable (Py.str "llm") ∈ classified_changes result.
Proof.
  intros Hkey Hrun Hne result. subst result. unfold classify_changes.
  rewrite Hrun, Hkey.
  destruct (classify_batch_no_client needs document_type Hne) as [Ht Hl].
  destruct (classify_batch settings [] needs document_type) as [res ms].
  simpl in Ht, Hl. subst ms.
  destruct needs as [|n ns]; [done|]. cbn [Py.truthy llm_calls llm_time_ms
    classified_changes].
  split_and!; [done..|].
  intros c Hc. rewrite sort_by_id_perm. apply elem_of_app. right.
  apply list_elem_of_fmap. exists c. split; [|done].
  unfold llm_classified. by rewrite Hl.
Qed.
End Degradation.

(** ** The rule classifier *)

Section RuleFacts.
Context `{unicode_db}.

Import Classifier.

Lemma truthy_false {A} (l : list A) : Py.truthy l = false ↔ l = [].
Proof. by destruct l. Qed.

(** Joining two or more parts leaves a separator in the result. *)
Lemma join_keeps_separator (c : char) (parts : list text) (s : text) :
  Py.join [c] parts = s → c ∉ s → parts = [] ∨ parts = [s].
Proof.
  destruct parts as [|p [|q rest]]; simpl; intros Hs Hc.
  - by left.
  - right. by rewrite Hs.
  - exfalso. apply Hc. rewrite <-Hs.
    apply elem_of_app. right. apply elem_of_cons. by left.
Qed.

(** When the texts to check reduce to one text, one word change holds
    it on one side and nothing on the other. *)
Lemma texts_to_check_single (wcs : list WordChange.t) (s : text) :
  texts_to_check wcs = [s] →
  Exists (λ wc, (WordChange.old_text wc = s ∧ WordChange.new_text wc = [])
                ∨ (WordChange.old_text wc = [] ∧ WordChange.new_text wc = s))
         wcs.
Proof.
  induction wcs as [|wc wcs IH]; simpl; [done|].
  destruct (WordChange.old_text wc) as [|o os] eqn:Hold;
    destruct (WordChange.new_text wc) as [|n ns] eqn:Hnew; simpl.
  - intros Hs. apply Exists_cons_tl. by apply IH.
  - intros Hs. injection Hs as <- _. apply Exists_cons_hd. right.
    by rewrite Hold, Hnew.
  - intros Hs. injection Hs as <- _. apply Exists_cons_hd. left.
    by rewrite Hold, Hnew.
  - intros Hs. discriminate.
Qed.

(** The loop over the patterns returns the verdict of the first pattern
    that matches. *)
Lemma scan_patterns_first (patterns : list (Re.regex * text)) (s : text)
    (i : nat) (p : Re.regex) (reason : text) :
  patterns !! i = Some (p, reason) →
  Re.search p s = true →
  (∀ j q r, j < i → patterns !! j = Some (q, r) → Re.search q s = false) →
  scan_patterns patterns s
  = (Some CRITICAL, reason,
     default (Py.str "Phát hiện thay đổi - cần xem xét")
             (RISK_STATEMENTS !! reason)).
Proof.
  revert i. induction patterns as [|[q r] rest IH]; intros i Hi Hp Hbefore.
  - done.
  - destruct i as [|i]; simpl in *.
    + injection Hi as -> ->. by rewrite Hp.
    + rewrite (Hbefore 0 q r) by (done || lia).
      apply (IH i); [done..|].
      intros j q' r' Hj. apply (Hbefore (S j)). lia.
Qed.

Lemma scan_patterns_none (patterns : list (Re.regex * text)) (s : text) :
  Forall (λ pr, Re.search pr.1 s = false) patterns →
  scan_patterns patterns s = (None, [], []).
Proof.
  induction 1 as [|[q r] rest Hq _ IH]; simpl; [done|].
  simpl in Hq. by rewrite Hq.
Qed.

(** The pattern scan answers CRITICAL or nothing, never LOW. *)
Lemma scan_patterns_not_low (patterns : list (Re.regex * text)) (s : text) :
  (scan_patterns patterns s).1.1 = Some CRITICAL
  ∨ scan_patterns patterns s = (None, [], []).
Proof.
  induction patterns as [|[q r] rest IH]; simpl; [by right|].
  destruct (Re.search q s); [by left|done].
Qed.

Lemma classify_not_trivial (change : Change.t) :
  _is_trivial_change change = false →
  classify_by_rules change
  = scan_patterns CRITICAL_PATTERNS (text_to_analyze change).
Proof. intros Ht. unfold classify_by_rules. by rewrite Ht. Qed.

(** An edit whose analysed text is [$100] is not trivial. *)
Lemma dollar_100_not_trivial (change : Change.t) :
  text_to_analyze change = dollar_100 →
  _is_trivial_change change = false.
Proof.
  unfold text_to_analyze, _is_trivial_change.
  destruct (has_word_changes change) eqn:Hwc; [|done]. simpl.
  intros Htext. pose proof Htext as Hj.
  change (Py.str " ") with [32%N] in Hj.
  apply join_keeps_separator in Hj as [Hnil|Hone].
  - rewrite Hnil in Htext. discriminate Htext.
  - apply not_true_is_false. intros Hall.
    apply texts_to_check_single in Hone.
    rewrite forallb_forall in Hall.
    apply Exists_exists in Hone as (wc & Hin & Hside).
    apply list_elem_of_In in Hin.
    specialize (Hall wc Hin). revert Hall.
    unfold same_letters.
    destruct Hside as [[-> ->]|[-> ->]]; vm_compute; discriminate.
  - vm_compute. intros Hin. repeat
      (apply elem_of_cons in Hin as [Hin|Hin]; [discriminate Hin|]).
    by apply not_elem_of_nil in Hin.
Qed.
End RuleFacts.

Section RuleClaims.
Context `{unicode_db}.

Import Classifier.

(** C5: an edit whose analysed text is [$100] is classified CRITICAL with
    the USD reasoning, which differs from the generic-number reasoning;
    and for any edit that is not trivial the verdict is that of the first
    matching pattern in the order percentage, USD, VND, VND word, grouped
    number, decimal number. *)
Theorem rule_priority :
  (∀ change,
     text_to_analyze change = dollar_100 →
     classify_by_rules change
     = (Some CRITICAL, usd_reason,
        Py.str "Sai lệch giá trị tiền tệ - có thể ảnh hưởng tài chính")
     ∧ usd_reason ≠ number_reason)
  ∧ CRITICAL_PATTERNS
    = [ (percent_pattern, percent_reason); (usd_pattern, usd_reason);
        (vnd_pattern, vnd_reason); (vnd_word_pattern, vnd_reason);
        (grouped_pattern, number_reason);
        (decimal_pattern, number_reason) ]
  ∧ (∀ change i p reason,
       _is_trivial_change change = false →
       CRITICAL_PATTERNS !! i = Some (p, reason) →
       Re.search p (text_to_analyze change) = true →
       (∀ j q r, j < i → CRITICAL_PATTERNS !! j = Some (q, r) →
                 Re.search q (text_to_analyze change) = false) →
       classify_by_rules change
       = (Some CRITICAL, reason,
          default (Py.str "Phát hiện thay đổi - cần xem xét")
                  (RISK_STATEMENTS !! reason))).
Proof.
  split_and!.
  - intros change Htext. split; [|by vm_compute].
    rewrite classify_not_trivial by by apply dollar_100_not_trivial.
    rewrite Htext. by vm_compute.
  - done.
  - intros change i p reason Htriv Hi Hp Hbefore.
    rewrite classify_not_trivial by done.
    by apply (scan_patterns_first _ _ i p).
Qed.

(** C6 (amended): when the word changes are not empty and the two texts
    of each agree after dropping surrounding whitespace and every
    character that is not a word character (alphanumeric or underscore)
    and lowering the rest, the verdict is LOW, whatever the patterns
    match. *)
Theorem trivial_change_low (change : Change.t) :
  has_word_changes change = true →
  Forall same_word_characters (word_changes_of change) →
  classify_by_rules change
  = (Some LOW, Py.str "Thay đổi không đáng kể",
     Py.str "Không ảnh hưởng đến nghiệp vụ - chỉ thay đổi định dạng").
Proof.
  intros Hwc Hall. unfold classify_by_rules, _is_trivial_change.
  rewrite Hwc. simpl.
  assert (forallb same_letters (word_changes_of change) = true) as ->.
  { apply forallb_forall. intros wc Hin.
    apply list_elem_of_In in Hin.
    rewrite Forall_forall in Hall. specialize (Hall wc Hin).
    unfold same_letters. by apply bool_decide_eq_true_2. }
  done.
Qed.

(** C7: the code does not classify such an edit LOW.  When the word
    changes are empty or absent the guard of [_is_trivial_change] answers
    [False], so the triviality rule does not fire; the verdict is that of
    the pattern scan over [diff_text] (or the empty text), which is
    CRITICAL or absent and never LOW. *)
Theorem no_word_changes_not_low (change : Change.t) :
  Change.word_changes change = None ∨ Change.word_changes change = Some [] →
  _is_trivial_change change = false
  ∧ classify_by_rules change
    = scan_patterns CRITICAL_PATTERNS (default [] (Change.diff_text change))
  ∧ (classify_by_rules change).1.1 ≠ Some LOW.
Proof.
  intros Hwc.
  assert (has_word_changes change = false) as Hno.
  { unfold has_word_changes. by destruct Hwc as [->| ->]. }
  assert (_is_trivial_change change = false) as Htriv.
  { unfold _is_trivial_change. by rewrite Hno. }
  assert (classify_by_rules change
          = scan_patterns CRITICAL_PATTERNS
              (default [] (Change.diff_text change))) as Hscan.
  { rewrite classify_not_trivial by done.
    unfold text_to_analyze. by rewrite Hno. }
  split_and!; [done..|].
  rewrite Hscan.
  destruct (scan_patterns_not_low CRITICAL_PATTERNS
              (default [] (Change.diff_text change))) as [-> | ->]; done.
Qed.
End RuleClaims.

(** ** Matching inside a replace run *)

Section MatchFacts.
Context `{unicode_db}.

Import Differ.

Lemma Qlt_bool_true (x y : Q) : Qlt_bool x y = true ↔ (x < y)%Q.
Proof.
  unfold Qlt_bool. rewrite negb_true_iff, <-not_true_iff_false, Qle_bool_iff.
  split; [apply Qnot_le_lt|apply Qlt_not_le].
Qed.

Lemma Qlt_bool_false (x y : Q) : Qlt_bool x y = false ↔ (y <= x)%Q.
Proof.
  unfold Qlt_bool. by rewrite negb_false_iff, Qle_bool_iff.
Qed.

(** What the search for the best unconsumed v2 block returns: the running
    best only grows, it bounds every unconsumed candidate, and it is
    either the initial one or the score of an unconsumed candidate. *)
Lemma best_loop_spec used b1 v2_blocks : ∀ idx bm bs bm' bs',
  best_loop used b1 idx v2_blocks bm bs = (bm', bs') →
  (bs <= bs')%Q
  ∧ (∀ k b2, v2_blocks !! k = Some b2 → (idx + k) ∉ used →
             (similarity_of b1 b2 <= bs')%Q)
  ∧ ((bm' = bm ∧ bs' = bs)
     ∨ ∃ k b2, v2_blocks !! k = Some b2 ∧ ((idx + k) ∉ used)
               ∧ bm' = Some (idx + k, b2) ∧ bs' = similarity_of b1 b2
               ∧ (bs < bs')%Q).
Proof.
  induction v2_blocks as [|b2 rest IH]; intros idx bm bs bm' bs' Hrun;
    simpl in Hrun.
  - injection Hrun as <- <-. split_and!.
    + apply Qle_refl.
    + intros k b2 Hk. done.
    + by left.
  - destruct (decide (idx ∈ used)) as [Hused|Hfree].
    + apply IH in Hrun as (Hle & Hbound & Hwho). split_and!.
      * done.
      * intros [|k] b Hk Hnot; simpl in Hk.
        -- rewrite Nat.add_0_r in Hnot. done.
        -- apply (Hbound k); [done|].
           by replace (S idx + k) with (idx + S k) by lia.
      * destruct Hwho as [?|(k & b & Hk & Hnot & -> & -> & Hlt)]; [by left|].
        right. exists (S k), b. split_and!; try done.
        -- by replace (idx + S k) with (S idx + k) by lia.
        -- f_equal. f_equal. lia.
    + fold (similarity_of b1 b2) in Hrun.
      destruct (Qlt_bool bs (similarity_of b1 b2)) eqn:Hcmp.
      * apply Qlt_bool_true in Hcmp.
        apply IH in Hrun as (Hle & Hbound & Hwho). split_and!.
        -- eapply Qle_trans; [apply Qlt_le_weak, Hcmp|done].
        -- intros [|k] b Hk Hnot; simpl in Hk.
           ++ by injection Hk as <-.
           ++ apply (Hbound k); [done|].
              by replace (S idx + k) with (idx + S k) by lia.
        -- right.
           destruct Hwho as [[-> ->]|(k & b & Hk & Hnot & -> & -> & Hlt)].
           ++ exists 0, b2. rewrite Nat.add_0_r. done.
           ++ exists (S k), b. split_and!; try done.
              ** by replace (idx + S k) with (S idx + k) by lia.
              ** f_equal. f_equal. lia.
              ** eapply Qlt_trans; done.
      * apply Qlt_bool_false in Hcmp.
        apply IH in Hrun as (Hle & Hbound & Hwho). split_and!.
        -- done.
        -- intros [|k] b Hk Hnot; simpl in Hk.
           ++ injection Hk as <-. by eapply Qle_trans.
           ++ apply (Hbound k); [done|].
              by replace (S idx + k) with (idx + S k) by lia.
        -- destruct Hwho as [?|(k & b & Hk & Hnot & -> & -> & Hlt)];
             [by left|].
           right. exists (S k), b. split_and!; try done.
           ++ by replace (idx + S k) with (S idx + k) by lia.
           ++ f_equal. f_equal. lia.
Qed.

(** The three ways one pass over a v1 block can end. *)
Lemma match_step_cases v2_blocks used b1 :
  (match_step v2_blocks used b1 = (deleted_entry b1, used)
   ∧ ∀ k b2, v2_blocks !! k = Some b2 → k ∉ used →
             (similarity_of b1 b2 < threshold)%Q)
  ∨ ∃ k b2, v2_blocks !! k = Some b2 ∧ (k ∉ used)
            ∧ (threshold <= similarity_of b1 b2)%Q
            ∧ (∀ k' b2', v2_blocks !! k' = Some b2' → k' ∉ used →
                         (similarity_of b1 b2' <= similarity_of b1 b2)%Q)
            ∧ match_step v2_blocks used b1
              = (modified_entry b1 b2, {[k]} ∪ used).
Proof.
  unfold match_step.
  destruct (best_loop used b1 0 v2_blocks None 0%Q) as [bm bs] eqn:Hrun.
  apply best_loop_spec in Hrun as (Hle & Hbound & Hwho).
  assert (0 < threshold)%Q as Hpos by done.
  destruct Hwho as [[-> ->]|(k & b2 & Hk & Hnot & -> & -> & Hlt)].
  - left. split; [done|]. intros k b2 Hk Hnot.
    eapply Qle_lt_trans; [by apply (Hbound k)|done].
  - simpl in *. destruct (Qle_bool threshold (similarity_of b1 b2)) eqn:Hcmp.
    + right. exists k, b2. apply Qle_bool_iff in Hcmp.
      split_and!; try done.
      unfold modified_entry.
      by destruct (get_word_level_diff _ _).
    + left. split; [done|]. intros k' b2' Hk' Hnot'.
      eapply Qle_lt_trans; [by apply (Hbound k')|].
      apply Qnot_le_lt. intros Hge. apply Qle_bool_iff in Hge. congruence.
Qed.

(** Each pass either leaves [used_v2] alone or adds one fresh index of
    the v2 run to it, the latter exactly when it emits a modified
    entry. *)
Lemma match_step_used v2_blocks used b1 r used' :
  match_step v2_blocks used b1 = (r, used') →
  (is_modified r = false ∧ used' = used)
  ∨ (is_modified r = true
     ∧ ∃ k, (k ∉ used) ∧ k < length v2_blocks ∧ used' = {[k]} ∪ used).
Proof.
  intros Hstep.
  destruct (match_step_cases v2_blocks used b1)
    as [[Hdel _]|(k & b2 & Hk & Hnot & _ & _ & Hmod)].
  - rewrite Hdel in Hstep. injection Hstep as <- <-. by left.
  - rewrite Hmod in Hstep. injection Hstep as <- <-. right.
    split; [done|]. exists k. split_and!; try done.
    by eapply lookup_lt_Some.
Qed.

Lemma match_loop_count v2_blocks v1_blocks : ∀ used rs used',
  match_loop v2_blocks v1_blocks used = (rs, used') →
  length rs = length v1_blocks
  ∧ modified_count rs + size used = size used'
  ∧ used ⊆ used'
  ∧ (∀ k, k ∈ used' → k ∈ used ∨ k < length v2_blocks).
Proof.
  induction v1_blocks as [|b1 rest IH]; intros used rs used' Hrun;
    simpl in Hrun.
  - injection Hrun as <- <-. split_and!; try done. by left.
  - destruct (match_step v2_blocks used b1) as [r used1] eqn:Hstep.
    destruct (match_loop v2_blocks rest used1) as [rs' used2] eqn:Hrest.
    injection Hrun as <- <-.
    apply IH in Hrest as (Hlen & Hcount & Hsub & Hin).
    unfold modified_count in *.
    apply match_step_used in Hstep
      as [[Hr ->]|(Hr & k & Hnot & Hlt & ->)].
    + rewrite filter_cons_False by congruence.
      split_and!; simpl; try done. by rewrite Hlen.
    + rewrite filter_cons_True by done.
      rewrite size_union in Hcount by (by apply disjoint_singleton_l).
      rewrite size_singleton in Hcount.
      split_and!; simpl.
      * by rewrite Hlen.
      * lia.
      * etrans; [|exact Hsub]. apply union_subseteq_r.
      * intros k' Hk'. destruct (Hin k' Hk') as [Hk''|?]; [|by right].
        apply elem_of_union in Hk'' as [Hk''|?]; [|by left].
        apply elem_of_singleton in Hk'' as ->. by right.
Qed.

Lemma additions_not_modified used v2_blocks : ∀ idx,
  modified_count (additions used idx v2_blocks) = 0.
Proof.
  induction v2_blocks as [|b2 rest IH]; intros idx; simpl; [done|].
  destruct (decide (idx ∈ used)); [apply IH|].
  unfold modified_count. rewrite filter_cons_False by done. apply IH.
Qed.


(** The number of modified entries is bounded by both run lengths. *)
Lemma modified_count_bound v1_blocks v2_blocks :
  modified_count (_match_similar_blocks v1_blocks v2_blocks)
  ≤ length v1_blocks `min` length v2_blocks.
Proof.
  unfold _match_similar_blocks.
  destruct (match_loop v2_blocks v1_blocks ∅) as [rs used] eqn:Hrun.
  apply match_loop_count in Hrun as (Hlen & Hcount & _ & Hin).
  unfold modified_count in *. rewrite filter_app, length_app.
  fold (modified_count (additions used 0 v2_blocks)).
  rewrite additions_not_modified, Nat.add_0_r.
  rewrite size_empty, Nat.add_0_r in Hcount.
  apply Nat.min_glb.
  - rewrite <-Hlen. apply length_filter.
  - rewrite Hcount.
    assert (used ⊆ set_seq 0 (length v2_blocks)) as Hsub.
    { intros k Hk. apply elem_of_set_seq.
      destruct (Hin k Hk) as [Hk'|?]; [|lia].
      by apply not_elem_of_empty in Hk'. }
    apply subseteq_size in Hsub. by rewrite size_set_seq in Hsub.
Qed.
End MatchFacts.

Section Singletons.
Context {A : Type} `{EqDecision A}.
Import Difflib.

End Singletons.

Section MatchLookup.
Context `{unicode_db}.
Import Differ.



End MatchLookup.

Section MatchClaims.
Context `{unicode_db}.

Import Differ.

Lemma count_modified_number (rs : list match_result) : ∀ change_id,
  count_modified (number change_of_match change_id rs) = modified_count rs.
Proof.
  unfold count_modified, modified_count.
  induction rs as [|r rs IH]; intros change_id; [done|].
  cbn [number]. rewrite !filter_cons.
  destruct r; cbn [change_of_match is_modified].
  - rewrite !decide_True by done. simpl. by rewrite IH.
  - rewrite !decide_False by done. by rewrite IH.
  - rewrite !decide_False by done. by rewrite IH.
Qed.

(** C9: out of one replace run, the entries of type modified, and so the
    changes of type MODIFIED built from them, are at most as many as the
    v1 blocks of the run and at most as many as its v2 blocks; each one
    consumes its own v2 index. *)
Theorem modified_at_most_min v1_blocks v2_blocks change_id :
  modified_count (_match_similar_blocks v1_blocks v2_blocks)
  ≤ length v1_blocks `min` length v2_blocks
  ∧ count_modified
      (number change_of_match change_id
              (_match_similar_blocks v1_blocks v2_blocks))
    ≤ length v1_blocks `min` length v2_blocks
  ∧ modified_count (match_loop v2_blocks v1_blocks ∅).1
    = size (match_loop v2_blocks v1_blocks ∅).2.
Proof.
  split_and!.
  - apply modified_count_bound.
  - rewrite count_modified_number. apply modified_count_bound.
  - destruct (match_loop v2_blocks v1_blocks ∅) as [rs used] eqn:Hrun.
    apply match_loop_count in Hrun as (_ & Hcount & _).
    rewrite size_empty in Hcount. simpl. lia.
Qed.

Lemma Qeq_le_l (x y : Q) : (x == y)%Q → (x <= y)%Q.
Proof. intros ->. apply Qle_refl. Qed.

Lemma Qeq_le_r (x y : Q) : (x == y)%Q → (y <= x)%Q.
Proof. intros ->. apply Qle_refl. Qed.




End MatchClaims.

(** ** Sequence matching of a sequence against itself *)

Section Indices.
Context {A : Type} `{EqDecision A}.
Import Difflib.

Lemma elem_of_indices_from (l : list A) (elt : A) : ∀ j k,
  k ∈ indices_from j l elt ↔ ∃ m, k = j + m ∧ l !! m = Some elt.
Proof.
  induction l as [|x l IH]; intros j k; simpl.
  - split; [intros Hin; by apply not_elem_of_nil in Hin|].
    intros (m & _ & Hm). done.
  - destruct (decide (x = elt)) as [->|Hne].
    + rewrite elem_of_cons, IH. split.
      * intros [->|(m & -> & Hm)].
        -- exists 0. split; [lia|done].
        -- exists (S m). split; [lia|done].
      * intros (m & -> & Hm). destruct m as [|m]; simpl in Hm.
        -- left. lia.
        -- right. exists m. split; [lia|done].
    + rewrite IH. split.
      * intros (m & -> & Hm). exists (S m). split; [lia|done].
      * intros (m & -> & Hm). destruct m as [|m]; simpl in Hm.
        -- congruence.
        -- exists m. split; [lia|done].
Qed.

Lemma indices_from_sorted (l : list A) (elt : A) : ∀ j,
  StronglySorted lt (indices_from j l elt).
Proof.
  induction l as [|x l IH]; intros j; simpl; [constructor|].
  destruct (decide (x = elt)); [|apply IH].
  constructor; [apply IH|].
  apply Forall_forall. intros k Hk.
  apply elem_of_indices_from in Hk as (m & -> & _). lia.
Qed.

Lemma elem_of_indices (b : list A) (elt : A) (k : nat) :
  k ∈ indices b elt ↔ b !! k = Some elt.
Proof.
  unfold indices. rewrite elem_of_indices_from. split.
  - by intros (m & -> & Hm).
  - intros Hk. by exists k.
Qed.

Lemma elem_of_b2j_get (b : list A) (elt : A) (k : nat) :
  k ∈ b2j_get b elt ↔ b !! k = Some elt ∧ popular b elt = false.
Proof.
  unfold b2j_get. destruct (popular b elt).
  - split; [intros Hin; by apply not_elem_of_nil in Hin|]. by intros [_ ?].
  - rewrite elem_of_indices. split; [done|by intros [? _]].
Qed.

Lemma b2j_get_sorted (b : list A) (elt : A) :
  StronglySorted lt (b2j_get b elt).
Proof.
  unfold b2j_get. destruct (popular b elt); [constructor|].
  apply indices_from_sorted.
Qed.
End Indices.

Section Identical.
Context {A : Type} `{EqDecision A}.
Variable a : list A.
Import Difflib.

Lemma run_unfold i :
  run a i = match a !! i with
            | Some x => if popular a x then 0 else S (run_before a i)
            | None => 0
            end.
Proof. by destruct i. Qed.

Lemma run_le i : run a i ≤ S i.
Proof.
  induction i as [|i IH]; rewrite run_unfold; simpl;
    destruct (a !! _) as [x|]; try lia; destruct (popular a x); lia.
Qed.

Lemma run_before_le i : run_before a i ≤ i.
Proof. destruct i; simpl; [done|]. apply run_le. Qed.

Lemma j2lenget_default (J : gmap nat nat) (j : nat) (bound : nat → nat) :
  (∀ j', default 0 (J !! j') ≤ bound j') →
  j2lenget J j ≤ match j with O => 0 | S j' => bound j' end.
Proof. intros HJ. destruct j; simpl; [done|apply HJ]. Qed.

Lemma inner_loop_identical i x J :
  a !! i = Some x →
  (∀ j, default 0 (J !! j) ≤ run_before a i ∧ default 0 (J !! j) ≤ run a j) →
  j2lenget J i = run_before a i →
  ∀ rest N best,
    StronglySorted lt rest →
    (∀ j, j ∈ rest → a !! j = Some x ∧ popular a x = false) →
    (∀ j, default 0 (N !! j) ≤ run a i ∧ default 0 (N !! j) ≤ run a j) →
    (i ∈ rest ∨ default 0 (N !! i) = run a i) →
    diagonal (S i) best →
    (∀ i', i' < i → run a i' ≤ best.2) →
    (i ∈ rest ∨ run a i ≤ best.2) →
    let r := inner_loop 0 (length a) J i rest N best in
    rows_done a (S i) r.1 r.2.
Proof.
  intros Hx HJ HJi.
  induction rest as [|j rest IH];
    intros N best Hsorted Hrest HN HNi Hdiag Hcover Hi; simpl.
  - destruct HNi as [HNi|HNi]; [by apply not_elem_of_nil in HNi|].
    destruct Hi as [Hi|Hi]; [by apply not_elem_of_nil in Hi|].
    split_and!; try done.
    intros i' Hi'. destruct (decide (i' = i)) as [->|]; [done|].
    apply Hcover. lia.
  - apply StronglySorted_inv in Hsorted as [Hsorted Hj].
    destruct (Hrest j) as [Haj Hpop]; [apply elem_of_cons; by left|].
    assert (j < length a) as Hjlen by by eapply lookup_lt_Some.
    rewrite (proj2 (Nat.leb_gt _ _)) by done.
    assert (run a j = S (run_before a j)) as Hrunj
      by by rewrite run_unfold, Haj, Hpop.
    assert (run a i = S (run_before a i)) as Hruni
      by by rewrite run_unfold, Hx, Hpop.
    set (k := j2lenget J j + 1).
    assert (k ≤ run a j) as Hkj.
    { rewrite Hrunj. unfold k.
      pose proof (j2lenget_default J j (run a) (λ j', proj2 (HJ j'))).
      destruct j; simpl in *; lia. }
    assert (k ≤ run a i) as Hki.
    { rewrite Hruni. unfold k.
      destruct j as [|j']; simpl; [lia|].
      pose proof (proj1 (HJ j')). lia. }
    assert (j = i → k = run a i) as Hkeq.
    { intros ->. rewrite Hruni. unfold k. lia. }
    assert (i ∉ rest ∨ True) as _ by by right.
    assert (j ≠ i → i ∈ rest ∨ run a i ≤ best.2) as Hi'.
    { intros Hne. destruct Hi as [Hi|?]; [|by right].
      apply elem_of_cons in Hi as [?|?]; [done|by left]. }
    assert (best.2 < k → j = i) as Hupd.
    { intros Hlt. destruct (Nat.lt_trichotomy j i) as [Hji|[?|Hji]]; [|done|].
      - specialize (Hcover j Hji). lia.
      - destruct Hi' as [Hin|?]; [lia| |lia].
        rewrite Forall_forall in Hj. specialize (Hj i Hin). lia. }
    apply IH; clear IH.
    + done.
    + intros j' Hj'. apply Hrest. apply elem_of_cons. by right.
    + intros j'. destruct (decide (j' = j)) as [->|Hne].
      * rewrite lookup_insert_eq. simpl. done.
      * rewrite lookup_insert_ne by done. apply HN.
    + destruct (decide (j = i)) as [->|Hne].
      * right. rewrite lookup_insert_eq. simpl. by apply Hkeq.
      * destruct HNi as [HNi|HNi].
        -- apply elem_of_cons in HNi as [?|?]; [done|by left].
        -- right. by rewrite lookup_insert_ne.
    + destruct (Nat.ltb_spec best.2 k) as [Hlt|Hge]; [|done].
      rewrite (Hupd Hlt) in *. split; simpl; [done|].
      pose proof (run_le i). lia.
    + intros i' Hi'0. specialize (Hcover i' Hi'0).
      destruct (Nat.ltb_spec best.2 k) as [Hlt|Hge]; simpl; lia.
    + destruct (decide (j = i)) as [->|Hne].
      * right. specialize (Hkeq eq_refl).
        destruct (Nat.ltb_spec best.2 k) as [Hlt|Hge]; simpl; lia.
      * destruct (Hi' Hne) as [?|Hle]; [by left|right].
        destruct (Nat.ltb_spec best.2 k) as [Hlt|Hge]; simpl; lia.
Qed.

(** One row of the outer loop keeps the state well formed. *)
Lemma row_identical i J best :
  i < length a →
  rows_done a i J best →
  let js := match a !! i with Some x => b2j_get a x | None => [] end in
  let r := inner_loop 0 (length a) J i js ∅ best in
  rows_done a (S i) r.1 r.2.
Proof.
  intros Hi (HJ & HJi & [Hd1 Hd2] & Hcover).
  destruct (lookup_lt_is_Some_2 a i Hi) as [x Hx]. rewrite Hx. simpl.
  apply (inner_loop_identical i x); try done.
  - apply b2j_get_sorted.
  - intros j Hj. by apply elem_of_b2j_get in Hj.
  - intros j. rewrite lookup_empty. simpl. lia.
  - destruct (popular a x) eqn:Hpop.
    + right. by rewrite lookup_empty, run_unfold, Hx, Hpop.
    + left. by apply elem_of_b2j_get.
  - split; [done|lia].
  - destruct (popular a x) eqn:Hpop.
    + right. rewrite run_unfold, Hx, Hpop. lia.
    + left. by apply elem_of_b2j_get.
Qed.

Lemma outer_loop_identical m : ∀ i J best,
  i + m = length a →
  rows_done a i J best →
  diagonal (length a) (outer_loop a a 0 (length a) (seq i m) J best).
Proof.
  induction m as [|m IH]; intros i J best Hlen Hdone; simpl.
  - destruct Hdone as (_ & _ & [??] & _). split; [done|lia].
  - pose proof (row_identical i J best ltac:(lia) Hdone) as Hrow.
    simpl in Hrow.
    destruct (inner_loop 0 (length a) J i _ ∅ best) as [J' best'].
    apply IH; [lia|done].
Qed.

Lemma same_at_diagonal i :
  i < length a → same_at a a i i (λ y, negb (isbjunk y)) = true.
Proof.
  intros Hi. unfold same_at.
  destruct (lookup_lt_is_Some_2 a i Hi) as [x ->]. simpl.
  by apply bool_decide_eq_true_2.
Qed.

Lemma extend_back_diagonal p : ∀ s,
  p ≤ length a →
  extend_back a a 0 0 (λ y, negb (isbjunk y)) p p s = (0, 0, p + s).
Proof.
  induction p as [|p IH]; intros s Hp; simpl; [done|].
  rewrite same_at_diagonal by lia. rewrite IH by lia. f_equal. lia.
Qed.

Lemma extend_fwd_diagonal m : ∀ s,
  s + m = length a →
  extend_fwd_loop a a (length a) (length a) m (λ y, negb (isbjunk y)) 0 0 s
  = (0, 0, length a).
Proof.
  induction m as [|m IH]; intros s Hs; simpl.
  - by rewrite Nat.add_0_r in Hs; subst.
  - rewrite (proj2 (Nat.ltb_lt s (length a))) by lia. simpl.
    rewrite same_at_diagonal by lia. apply IH. lia.
Qed.

(** On two equal sequences the longest match is the whole sequence. *)
Lemma find_longest_match_identical :
  find_longest_match a a 0 (length a) 0 (length a) = (0, 0, length a).
Proof.
  unfold find_longest_match. rewrite Nat.sub_0_r.
  pose proof (outer_loop_identical (length a) 0 ∅ (0, 0, 0) eq_refl) as Hd.
  destruct (outer_loop a a 0 (length a) (seq 0 (length a)) ∅ (0, 0, 0))
    as [[p q] s].
  destruct Hd as [Hpq Hps].
  { split_and!; try done.
    - intros j. rewrite lookup_empty. simpl. lia.
    - intros i' Hi'. lia. }
  simpl in Hpq, Hps. subst q.
  unfold extend at 2. rewrite extend_back_diagonal by lia.
  unfold extend_fwd. rewrite extend_fwd_diagonal by lia.
  unfold extend, extend_fwd. simpl.
  by rewrite Nat.sub_diag.
Qed.

Lemma get_matching_blocks_identical :
  get_matching_blocks_opt a a
  = Some (if length a =? 0 then [(0, 0, 0)]
          else [(0, 0, length a); (length a, length a, 0)]).
Proof.
  unfold get_matching_blocks_opt, queue_fuel.
  replace (2 * length a + 2) with (S (2 * length a + 1)) by lia.
  cbn [queue_loop]. rewrite find_longest_match_identical.
  destruct (length a) as [|n] eqn:Hn.
  - simpl. unfold finish_blocks. simpl. by rewrite Hn.
  - replace (S n =? 0) with false by done.
    replace (0 <? 0) with false by done. cbn [andb].
    rewrite Nat.add_0_l, Nat.ltb_irrefl. cbn [andb].
    destruct (2 * S n + 1); cbn [queue_loop fmap option_fmap option_map app];
      unfold finish_blocks; simpl; rewrite Hn; done.
Qed.

Lemma get_opcodes_identical :
  get_opcodes a a
  = if length a =? 0 then [] else [(Equal, 0, length a, 0, length a)].
Proof.
  unfold get_opcodes, get_matching_blocks.
  rewrite get_matching_blocks_identical.
  destruct (length a) as [|n]; simpl; [done|].
  by rewrite Nat.ltb_irrefl.
Qed.
End Identical.

Section Idempotence.
Context `{unicode_db}.
Import Differ.

(** C8: comparing a list of content blocks with itself yields no
    change. *)
Theorem diff_documents_identical (blocks : list ContentBlock.t) :
  diff_documents blocks blocks = Some [].
Proof.
  unfold diff_documents. rewrite get_opcodes_identical.
  by destruct (length _).
Qed.
End Idempotence.

(** ** The statements above at concrete inputs *)

Module Witnesses.

Import Samples Classifier Differ.

Lemma classify_changes_complete_sorted_witness :
  NoDup (map Change.change_id three_edits)
  ∧ let out :=
      classified_changes
        (@classify_changes ascii_db (loading partial_reply)
           (replying 40 "[]") with_key three_edits general None) in
    length out = length three_edits
    ∧ map base out ≡ₚ three_edits
    ∧ StronglySorted id_lt out.
Proof.
  assert (NoDup (map Change.change_id three_edits)) as Hnd.
  { refine (bool_decide_unpack _ _). vm_compute. exact I. }
  split; [exact Hnd|].
  exact (@classify_changes_complete_sorted ascii_db (loading partial_reply)
           (replying 40 "[]") with_key three_edits general None Hnd).
Defined.

Definition one_deletion : list Change.t := [deletion 1 "Note: see appendix."].




(** C2: without a credential and with one edit left to the service, the
    edit is MEDIUM with the fixed reasoning and the time is zero, but the
    result counts one call. *)
Theorem no_credential_counts_one_call :
  let result :=
    @classify_changes ascii_db rejecting (raising "unreachable") no_key
      one_deletion general None in
  llm_calls result = 1%Z
  ∧ llm_time_ms result = 0%Z
  ∧ map ClassifiedChange.impact (classified_changes result) = [MEDIUM]
  ∧ map ClassifiedChange.reasoning (classified_changes result)
    = [Py.str "LLM không khả dụng - mặc định mức trung bình"]
  ∧ map ClassifiedChange.classification_source (classified_changes result)
    = [Py.str "llm"].
Proof. by vm_compute. Qed.

Definition half_a : ContentBlock.t := paragraph 0 "ab".
Definition half_b : ContentBlock.t := paragraph 0 "ac".


Definition hundred_dollars : Change.t := edit 1 "$100" None.
Definition dollars_first : Change.t := edit 1 "$100 is 1,000" None.

Lemma rule_priority_witness :
  @classify_by_rules ascii_db hundred_dollars
  = (Some CRITICAL, usd_reason,
     Py.str "Sai lệch giá trị tiền tệ - có thể ảnh hưởng tài chính")
  ∧ @classify_by_rules ascii_db dollars_first
    = (Some CRITICAL, usd_reason,
       default (Py.str "Phát hiện thay đổi - cần xem xét")
               (RISK_STATEMENTS !! usd_reason))
  ∧ @Re.search ascii_db grouped_pattern (@text_to_analyze dollars_first)
    = true.
Proof.
  split_and!.
  - refine (proj1 (proj1 (@rule_priority ascii_db) hundred_dollars _)).
    by vm_compute.
  - refine (proj2 (proj2 (@rule_priority ascii_db)) dollars_first 1
              usd_pattern usd_reason _ eq_refl _ _).
    + by vm_compute.
    + by vm_compute.
    + intros [|j] q r Hj Hq; [|lia].
  change (Some (percent_pattern, percent_reason) = Some (q, r)) in Hq.
  assert (q = percent_pattern) as -> by congruence.
  by vm_compute.
  - by vm_compute.
Defined.

Definition punctuation_and_price : Change.t :=
  edit 1 "" (Some [word_change "replaced" "Hello," "Hello";
                   word_change "replaced" "$100" "$100."]).

Lemma trivial_change_low_witness :
  @classify_by_rules ascii_db punctuation_and_price
  = (Some LOW, Py.str "Thay đổi không đáng kể",
     Py.str "Không ảnh hưởng đến nghiệp vụ - chỉ thay đổi định dạng")
  ∧ @Re.search ascii_db usd_pattern (@text_to_analyze punctuation_and_price)
    = true.
Proof.
  split; [|by vm_compute].
  refine (@trivial_change_low ascii_db punctuation_and_price eq_refl _).
  repeat constructor; by vm_compute.
Defined.

Definition underscore_only : Change.t :=
  edit 1 "" (Some [word_change "replaced" "a_b" "ab"]).

(** C6, as stated, fails on the underscore, which is not alphanumeric but
    is kept by the triviality check. *)
Lemma underscore_counterexample :
  has_word_changes underscore_only = true
  ∧ Forall (@same_alphanumerics ascii_db) (word_changes_of underscore_only)
  ∧ @classify_by_rules ascii_db underscore_only = (None, [], []).
Proof.
  split_and!; [reflexivity| |by vm_compute].
  repeat constructor; by vm_compute.
Qed.

(** Two paragraphs that differ by one space: the differ pairs them as
    one modification without word changes, which the rules then read as
    a change of a percentage. *)
Definition spaced_total : ContentBlock.t := paragraph 0 "Total: 5%  due".
Definition tight_total : ContentBlock.t := paragraph 0 "Total: 5% due".

(** The change the differ reports for them. *)
Definition whitespace_edit : Change.t :=
  change_of_match 1 (@modified_entry ascii_db spaced_total tight_total).

Lemma no_word_changes_not_low_witness :
  @diff_documents ascii_db [spaced_total] [tight_total]
  = Some [whitespace_edit]
  ∧ Change.word_changes whitespace_edit = Some []
  ∧ Change.diff_text whitespace_edit = Some (Py.str "Total: 5% due")
  ∧ (_is_trivial_change (H:=ascii_db) whitespace_edit = false
     ∧ @classify_by_rules ascii_db whitespace_edit
       = @scan_patterns ascii_db CRITICAL_PATTERNS
           (default [] (Change.diff_text whitespace_edit))
     ∧ (@classify_by_rules ascii_db whitespace_edit).1.1 ≠ Some LOW)
  ∧ @classify_by_rules ascii_db whitespace_edit
    = (Some CRITICAL, percent_reason,
       Py.str "Có thể ảnh hưởng đến các tính toán tài chính - cần xác minh").
Proof.
  assert (Change.word_changes whitespace_edit = Some []) as Hwc
    by by vm_compute.
  split_and!.
  - by vm_compute.
  - exact Hwc.
  - by vm_compute.
  - exact (proj1 (@no_word_changes_not_low ascii_db whitespace_edit
                    (or_intror Hwc))).
  - exact (proj1 (proj2 (@no_word_changes_not_low ascii_db whitespace_edit
                           (or_intror Hwc)))).
  - exact (proj2 (proj2 (@no_word_changes_not_low ascii_db whitespace_edit
                           (or_intror Hwc)))).
  - by vm_compute.
Defined.

End Witnesses.

(** * Further properties *)

(** ** Bounds of the matching blocks *)

Section Bounds.
Context {A : Type} `{EqDecision A}.
Variables a b : list A.
Import Difflib.

Lemma j2lenget_fits alo blo i J j :
  (∀ j v, J !! j = Some v → blo ≤ j ∧ v ≤ i - alo ∧ v ≤ j + 1 - blo) →
  alo ≤ i → blo ≤ j →
  j2lenget J j + 1 ≤ i + 1 - alo ∧ j2lenget J j + 1 ≤ j + 1 - blo.
Proof.
  intros HJ Hi Hj. destruct j as [|j']; simpl; [lia|].
  destruct (J !! j') as [v|] eqn:Hv; simpl; [|lia].
  destruct (HJ j' v Hv) as (? & ? & ?). lia.
Qed.

Lemma inner_loop_within alo ahi blo bhi J i :
  alo ≤ i → i < ahi →
  (∀ j v, J !! j = Some v → blo ≤ j ∧ v ≤ i - alo ∧ v ≤ j + 1 - blo) →
  ∀ js N best,
    j2len_fits alo blo i N →
    within alo ahi blo bhi best →
    let r := inner_loop blo bhi J i js N best in
    j2len_fits alo blo i r.1 ∧ within alo ahi blo bhi r.2.
Proof.
  intros Hlo Hhi HJ.
  induction js as [|j js IH]; intros N best HN Hbest; simpl; [done|].
  destruct (Nat.ltb_spec j blo) as [?|Hjlo]; [by apply IH|].
  destruct (Nat.leb_spec bhi j) as [?|Hjhi]; [done|].
  destruct (j2lenget_fits alo blo i J j HJ Hlo Hjlo) as [Hk1 Hk2].
  apply IH.
  - intros j' v. destruct (decide (j' = j)) as [->|Hne].
    + rewrite lookup_insert_eq. intros [= <-]. lia.
    + rewrite lookup_insert_ne by done. apply HN.
  - destruct (Nat.ltb_spec best.2 (j2lenget J j + 1)); [|done].
    unfold within. simpl. lia.
Qed.

Lemma outer_loop_within alo ahi blo bhi m : ∀ i J best,
  alo ≤ i → i + m ≤ ahi →
  (∀ j v, J !! j = Some v → blo ≤ j ∧ v ≤ i - alo ∧ v ≤ j + 1 - blo) →
  within alo ahi blo bhi best →
  within alo ahi blo bhi (outer_loop a b blo bhi (seq i m) J best).
Proof.
  induction m as [|m IH]; intros i J best Hlo Hhi HJ Hbest; simpl; [done|].
  pose proof (inner_loop_within alo ahi blo bhi J i Hlo ltac:(lia) HJ
                (match a !! i with Some x => b2j_get b x | None => [] end)
                ∅ best) as Hrow.
  simpl in Hrow.
  destruct (inner_loop blo bhi J i _ ∅ best) as [J' best'].
  destruct Hrow as [HJ' Hbest']; [by intros j v; rewrite lookup_empty|done|].
  apply IH; [lia|lia| |done].
  intros j v Hv. destruct (HJ' j v Hv) as (? & ? & ?). simpl in *. lia.
Qed.

Lemma extend_back_within alo ahi blo bhi P besti : ∀ bestj bestsize,
  within alo ahi blo bhi (besti, bestj, bestsize) →
  within alo ahi blo bhi (extend_back a b alo blo P besti bestj bestsize).
Proof.
  induction besti as [|i IH]; intros bestj bestsize Hin; simpl; [done|].
  destruct bestj as [|j]; [done|].
  destruct (Nat.ltb_spec alo (S i)); simpl; [|done].
  destruct (Nat.ltb_spec blo (S j)); simpl; [|done].
  destruct (same_at a b i j P); [|done].
  apply IH. unfold within in *. simpl in *. lia.
Qed.

Lemma extend_fwd_loop_within alo ahi blo bhi P n : ∀ besti bestj bestsize,
  within alo ahi blo bhi (besti, bestj, bestsize) →
  within alo ahi blo bhi
    (extend_fwd_loop a b ahi bhi n P besti bestj bestsize).
Proof.
  induction n as [|n IH]; intros besti bestj bestsize Hin; simpl; [done|].
  destruct (Nat.ltb_spec (besti + bestsize) ahi); simpl; [|done].
  destruct (Nat.ltb_spec (bestj + bestsize) bhi); simpl; [|done].
  destruct (same_at a b _ _ P); [|done].
  apply IH. unfold within in *. simpl in *. lia.
Qed.

Lemma extend_within alo ahi blo bhi P m :
  within alo ahi blo bhi m →
  within alo ahi blo bhi (extend a b alo ahi blo bhi P m).
Proof.
  destruct m as [[besti bestj] bestsize]. intros Hin. unfold extend.
  pose proof (extend_back_within alo ahi blo bhi P besti bestj bestsize Hin)
    as Hback.
  destruct (extend_back a b alo blo P besti bestj bestsize) as [[i j] k].
  by apply extend_fwd_loop_within.
Qed.

(** The longest match lies inside the window it was searched in. *)
Lemma find_longest_match_within alo ahi blo bhi :
  alo ≤ ahi → blo ≤ bhi →
  within alo ahi blo bhi (find_longest_match a b alo ahi blo bhi).
Proof.
  intros Ha Hb. unfold find_longest_match.
  do 2 apply extend_within.
  apply outer_loop_within; try lia.
  - by intros j v; rewrite lookup_empty.
  - unfold within. simpl. lia.
Qed.
End Bounds.

Section Blocks.
Context {A : Type} `{EqDecision A}.
Variables a b : list A.
Import Difflib.

Lemma sizes_app l1 l2 : sizes (l1 ++ l2) = sizes l1 + sizes l2.
Proof. unfold sizes. by rewrite map_app, sum_list_with_app. Qed.

(** The queue loop ends within its fuel; the blocks it adds lie inside the
    sequences, are not empty, and match no more elements than the queue
    had room for. *)
Lemma queue_loop_spec fuel : ∀ queue blocks,
  Forall (range_ok (length a) (length b)) queue →
  sum_list (map weight queue) ≤ fuel →
  ∃ found,
    queue_loop a b fuel queue blocks = Some (blocks ++ found)
    ∧ Forall (λ m, within 0 (length a) 0 (length b) m ∧ 0 < m.2) found
    ∧ sizes found ≤ sum_list (map room queue).
Proof.
  induction fuel as [|fuel IH]; intros queue blocks Hok Hfuel.
  - destruct queue as [|[[[alo ahi] blo] bhi] queue].
    + exists []. by rewrite app_nil_r.
    + cbn [map sum_list_with weight id] in Hfuel. lia.
  - destruct queue as [|[[[alo ahi] blo] bhi] queue].
    { exists []. by rewrite app_nil_r. }
    apply Forall_cons in Hok as [(Ha1 & Ha2 & Hb1 & Hb2) Hok].
    cbn [queue_loop].
    pose proof (find_longest_match_within a b alo ahi blo bhi Ha1 Hb1) as Hin.
    destruct (find_longest_match a b alo ahi blo bhi) as [[i j] k].
    destruct Hin as (Hi1 & Hi2 & Hj1 & Hj2). simpl in Hi1, Hi2, Hj1, Hj2.
    cbn [map sum_list_with weight id] in Hfuel.
    destruct (Nat.eqb_spec k 0) as [->|Hk].
    + destruct (IH queue blocks Hok ltac:(lia)) as (found & Hrun & Hf & Hs).
      exists found. split_and!; [done..|].
      cbn [map sum_list_with room id]. lia.
    + set (q1 := if (alo <? i) && (blo <? j) then (alo, i, blo, j) :: queue
                 else queue).
      set (q2 := if (i + k <? ahi) && (j + k <? bhi)
                 then (i + k, ahi, j + k, bhi) :: q1 else q1).
      assert (Forall (range_ok (length a) (length b)) q2
              ∧ sum_list (map weight q2) ≤ fuel
              ∧ k + sum_list (map room q2)
                ≤ (ahi - alo) `min` (bhi - blo) + sum_list (map room queue))
        as (Hok2 & Hfuel2 & Hroom2).
      { subst q1 q2.
        assert (range_ok (length a) (length b) (alo, i, blo, j)) as Hr1
          by (unfold range_ok; lia).
        assert (range_ok (length a) (length b) (i + k, ahi, j + k, bhi))
          as Hr2 by (unfold range_ok; lia).
        destruct ((alo <? i) && (blo <? j)), ((i + k <? ahi) && (j + k <? bhi));
          (split_and!;
           [ repeat (apply Forall_cons; split; [assumption|]); exact Hok
           | cbn [map sum_list_with weight id]; lia
           | cbn [map sum_list_with room id]; lia ]). }
      destruct (IH q2 (blocks ++ [(i, j, k)]) Hok2 Hfuel2)
        as (found & Hrun & Hf & Hs).
      exists ((i, j, k) :: found). split_and!.
      * rewrite Hrun. by rewrite <-app_assoc.
      * apply Forall_cons. split; [|done].
        unfold within. simpl. lia.
      * unfold sizes in *. cbn [map sum_list_with room snd id] in *. lia.
Qed.

(** The loop never runs out of the fuel [queue_fuel] gives it. *)
Lemma queue_loop_total :
  ∃ found,
    queue_loop a b (queue_fuel a) [(0, length a, 0, length b)] [] = Some found
    ∧ Forall (λ m, within 0 (length a) 0 (length b) m) found
    ∧ sizes found ≤ length a `min` length b.
Proof.
  destruct (queue_loop_spec (queue_fuel a) [(0, length a, 0, length b)] [])
    as (found & Hrun & Hf & Hs).
  - apply Forall_singleton. simpl. lia.
  - unfold queue_fuel. simpl. lia.
  - exists found. split_and!; [done| |simpl in Hs; lia].
    eapply Forall_impl; [exact Hf|]. by intros m [? _].
Qed.

Lemma insert_sorted_perm x l : insert_sorted x l ≡ₚ x :: l.
Proof.
  induction l as [|y l IH]; simpl; [done|].
  destruct (decide (block_le x y)); [done|].
  rewrite IH. apply Permutation_swap.
Qed.

Lemma sort_blocks_perm l : sort_blocks l ≡ₚ l.
Proof.
  induction l as [|x l IH]; simpl; [done|].
  by rewrite insert_sorted_perm, IH.
Qed.

Lemma sizes_perm l1 l2 : l1 ≡ₚ l2 → sizes l1 = sizes l2.
Proof. intros Hp. unfold sizes. by rewrite Hp. Qed.

Lemma collapse_spec l : ∀ cur acc,
  Forall (ends_inside a b) l → (ends_inside a b) cur → Forall (ends_inside a b) acc →
  let r := collapse cur l acc in
  Forall (ends_inside a b) r.1 ∧ (ends_inside a b) r.2
  ∧ sizes r.1 + r.2.2 = sizes acc + cur.2 + sizes l.
Proof.
  induction l as [|[[i2 j2] k2] l IH]; intros [[i1 j1] k1] acc Hl Hcur Hacc.
  - simpl. split_and!; [done..|]. unfold sizes. simpl. lia.
  - apply Forall_cons in Hl as [Hm Hl]. cbn [collapse].
    destruct ((i1 + k1 =? i2) && (j1 + k1 =? j2)) eqn:Hadj.
    + apply andb_true_iff in Hadj as [Hi Hj].
      apply Nat.eqb_eq in Hi, Hj.
      destruct (IH (i1, j1, k1 + k2) acc Hl) as (? & ? & Hs); [|done|].
      { unfold ends_inside in *. simpl in *. lia. }
      split_and!; [done..|]. rewrite Hs. unfold sizes. simpl. lia.
    + destruct (Nat.eqb_spec k1 0) as [->|Hk].
      * destruct (IH (i2, j2, k2) acc Hl Hm Hacc) as (? & ? & Hs).
        split_and!; [done..|]. rewrite Hs. unfold sizes. simpl. lia.
      * destruct (IH (i2, j2, k2) (acc ++ [(i1, j1, k1)]) Hl Hm)
          as (? & ? & Hs).
        { apply Forall_app. split; [done|by apply Forall_singleton]. }
        split_and!; [done..|]. rewrite Hs, sizes_app.
        unfold sizes. simpl. lia.
Qed.

Lemma finish_blocks_spec found :
  Forall (λ m, within 0 (length a) 0 (length b) m) found →
  Forall (ends_inside a b) (finish_blocks a b found)
  ∧ sizes (finish_blocks a b found) = sizes found.
Proof.
  intros Hf. unfold finish_blocks.
  assert (Forall (ends_inside a b) (sort_blocks found)) as Hsorted.
  { rewrite sort_blocks_perm. eapply Forall_impl; [exact Hf|].
    intros m (_ & ? & _ & ?). by split. }
  destruct (collapse_spec (sort_blocks found) (0, 0, 0) [] Hsorted)
    as (Hacc & Hcur & Hs).
  { unfold ends_inside. simpl. lia. }
  { constructor. }
  destruct (collapse (0, 0, 0) (sort_blocks found) []) as [acc [[i1 j1] k1]].
  simpl in Hacc, Hcur, Hs.
  rewrite (sizes_perm _ _ (sort_blocks_perm found)) in Hs.
  assert ((ends_inside a b) (length a, length b, 0)) as Hlast.
  { unfold ends_inside. simpl. lia. }
  destruct (Nat.eqb_spec k1 0) as [->|Hk].
  - split.
    + apply Forall_app. split; [done|by apply Forall_singleton].
    + rewrite sizes_app. unfold sizes in *. simpl in *. lia.
  - split.
    + repeat (apply Forall_app; split); try done; by apply Forall_singleton.
    + rewrite !sizes_app. unfold sizes in *. simpl in *. lia.
Qed.

(** [get_matching_blocks] always returns: the fuel of the model is
    enough. *)
Lemma get_matching_blocks_total :
  get_matching_blocks_opt a b = Some (get_matching_blocks a b)
  ∧ Forall (ends_inside a b) (get_matching_blocks a b)
  ∧ sizes (get_matching_blocks a b) ≤ length a `min` length b.
Proof.
  unfold get_matching_blocks, get_matching_blocks_opt.
  destruct queue_loop_total as (found & -> & Hf & Hs). simpl.
  destruct (finish_blocks_spec found Hf) as [Hin Hsz].
  split_and!; [done..|]. by rewrite Hsz.
Qed.

Lemma opcodes_loop_inside blocks : ∀ i j answer,
  Forall (ends_inside a b) blocks →
  Forall (opcode_inside a b) answer →
  Forall (opcode_inside a b) (opcodes_loop i j blocks answer).
Proof.
  induction blocks as [|[[ai bj] size] blocks IH]; intros i j answer Hb Ha;
    simpl; [done|].
  apply Forall_cons in Hb as [[Hai Hbj] Hb]. simpl in Hai, Hbj.
  apply IH; [done|].
  assert (∀ tag, (opcode_inside a b) (tag, i, ai, j, bj)) as Hop.
  { intros tag. simpl. lia. }
  assert ((opcode_inside a b) (Equal, ai, ai + size, bj, bj + size)) as Heq.
  { simpl. lia. }
  destruct (size =? 0), ((i <? ai) && (j <? bj)), (i <? ai), (j <? bj);
    repeat (apply Forall_app; split); try done; by apply Forall_singleton.
Qed.

Lemma get_opcodes_inside : Forall (opcode_inside a b) (get_opcodes a b).
Proof.
  unfold get_opcodes. apply opcodes_loop_inside; [|constructor].
  apply get_matching_blocks_total.
Qed.

(** The ratio is a number between zero and one. *)
Lemma ratio_bounds : (0 <= ratio a b)%Q ∧ (ratio a b <= 1)%Q.
Proof.
  unfold ratio, calculate_ratio. fold (sizes (get_matching_blocks a b)).
  destruct get_matching_blocks_total as (_ & _ & Hs).
  destruct (Nat.eqb_spec (length a + length b) 0) as [?|Hlen]; [done|].
  assert (Z.pos (Pos.of_nat (length a + length b))
          = Z.of_nat (length a + length b)) as Hden
    by by rewrite <-positive_nat_Z, Nat2Pos.id.
  split; unfold Qle; cbn [Qnum Qden]; rewrite ?Hden; lia.
Qed.
End Blocks.

(** ** The changes of [diff_documents] *)

Section Changes.
Context `{unicode_db}.
Import Differ.

Lemma getitems_inside {X} (l : list X) m : ∀ i,
  i + m ≤ length l →
  mapM (λ i, l !! i) (seq i m) = Some (take m (drop i l)).
Proof.
  induction m as [|m IH]; intros i Hi; simpl; [done|].
  destruct (lookup_lt_is_Some_2 l i ltac:(lia)) as [x Hx].
  rewrite Hx. simpl. rewrite IH by lia. simpl.
  rewrite (drop_S l x i Hx). done.
Qed.

Lemma getitems_Some {X} (l : list X) i1 i2 :
  i2 ≤ length l → getitems l i1 i2 = Some (slice l i1 i2).
Proof.
  intros Hi. unfold getitems, slice.
  destruct (decide (i1 ≤ i2)).
  - apply getitems_inside. lia.
  - by replace (i2 - i1) with 0 by lia.
Qed.

Lemma elem_of_slice {X} (l : list X) i1 i2 x : x ∈ slice l i1 i2 → x ∈ l.
Proof.
  unfold slice. intros Hx.
  apply elem_of_take in Hx as (k & Hk & _).
  rewrite lookup_drop in Hk. by eapply list_elem_of_lookup_2.
Qed.

(** The entries of one pass over the v1 blocks. *)
Lemma match_loop_entries v2_blocks v1_blocks : ∀ used,
  Forall (λ r, (∃ b1, b1 ∈ v1_blocks ∧ r = deleted_entry b1)
               ∨ ∃ b1 b2, b1 ∈ v1_blocks ∧ b2 ∈ v2_blocks
                          ∧ r = modified_entry b1 b2
                          ∧ (threshold <= similarity_of b1 b2)%Q)
         (match_loop v2_blocks v1_blocks used).1.
Proof.
  induction v1_blocks as [|b1 rest IH]; intros used; simpl; [constructor|].
  destruct (match_step v2_blocks used b1) as [r used1] eqn:Hstep.
  specialize (IH used1).
  destruct (match_loop v2_blocks rest used1) as [rs used2]. simpl in *.
  constructor.
  - destruct (match_step_cases v2_blocks used b1)
      as [[Hdel _]|(k & b2 & Hk & _ & Hge & _ & Hmod)].
    + rewrite Hdel in Hstep. injection Hstep as <- _.
      left. exists b1. split; [apply elem_of_cons; by left|done].
    + rewrite Hmod in Hstep. injection Hstep as <- _.
      right. exists b1, b2. split_and!; try done.
      * apply elem_of_cons; by left.
      * by eapply list_elem_of_lookup_2.
  - eapply Forall_impl; [exact IH|]. intros r' [(b & Hb & ->)|Hr'].
    + left. exists b. split; [apply elem_of_cons; by right|done].
    + right. destruct Hr' as (b & b' & Hb & Hb' & -> & Hge).
      exists b, b'. split_and!; try done. apply elem_of_cons; by right.
Qed.

Lemma additions_entries used v2_blocks : ∀ idx,
  Forall (λ r, ∃ b2, b2 ∈ v2_blocks ∧ r = added_entry b2)
         (additions used idx v2_blocks).
Proof.
  induction v2_blocks as [|b2 rest IH]; intros idx; simpl; [constructor|].
  assert (Forall (λ r, ∃ b, b ∈ b2 :: rest ∧ r = added_entry b)
                 (additions used (S idx) rest)) as Hrest.
  { eapply Forall_impl; [apply IH|]. intros r (b & Hb & ->).
    exists b. split; [apply elem_of_cons; by right|done]. }
  destruct (decide (idx ∈ used)); [done|].
  constructor; [|done]. exists b2. split; [apply elem_of_cons; by left|done].
Qed.

Lemma change_of_match_from v1 v2 id r :
  ((∃ b1, b1 ∈ v1 ∧ r = deleted_entry b1)
   ∨ (∃ b1 b2, b1 ∈ v1 ∧ b2 ∈ v2 ∧ r = modified_entry b1 b2
               ∧ (threshold <= similarity_of b1 b2)%Q)
   ∨ ∃ b2, b2 ∈ v2 ∧ r = added_entry b2) →
  change_from v1 v2 (change_of_match id r) ∧
  Change.change_id (change_of_match id r) = id.
Proof.
  intros [(b1 & Hb1 & ->)|[(b1 & b2 & Hb1 & Hb2 & -> & Hge)|(b2 & Hb2 & ->)]].
  - split; [|done]. exists b1. by split_and!.
  - split; [|done]. exists b1, b2. split_and!; try done.
    apply (ratio_bounds (ContentBlock.content b1) (ContentBlock.content b2)).
  - split; [|done]. exists b2. by split_and!.
Qed.

Lemma number_spec {X} (mk : Z → X → Change.t) (P : Change.t → Prop)
    (xs : list X) : ∀ id,
  (∀ id x, x ∈ xs → P (mk id x) ∧ Change.change_id (mk id x) = id) →
  Forall P (number mk id xs)
  ∧ map Change.change_id (number mk id xs) = seqZ id (Z.of_nat (length xs))
  ∧ length (number mk id xs) = length xs.
Proof.
  induction xs as [|x xs IH]; intros id Hmk; simpl; [done|].
  destruct (Hmk id x) as [HP Hid]; [apply elem_of_cons; by left|].
  destruct (IH (id + 1)%Z) as (HF & Hids & Hlen).
  { intros id' x' Hx'. apply Hmk. apply elem_of_cons. by right. }
  split_and!.
  - by constructor.
  - rewrite Hid, Hids.
    replace (Z.of_nat (S (length xs))) with (Z.succ (Z.of_nat (length xs)))
      by lia.
    rewrite (seqZ_cons id) by lia. by rewrite Z.pred_succ, Z.add_1_r.
  - by rewrite Hlen.
Qed.

(** The entries of a replace run. *)
Lemma match_similar_blocks_entries v1_blocks v2_blocks :
  Forall (λ r, (∃ b1, b1 ∈ v1_blocks ∧ r = deleted_entry b1)
               ∨ (∃ b1 b2, b1 ∈ v1_blocks ∧ b2 ∈ v2_blocks
                           ∧ r = modified_entry b1 b2
                           ∧ (threshold <= similarity_of b1 b2)%Q)
               ∨ ∃ b2, b2 ∈ v2_blocks ∧ r = added_entry b2)
         (_match_similar_blocks v1_blocks v2_blocks).
Proof.
  unfold _match_similar_blocks.
  pose proof (match_loop_entries v2_blocks v1_blocks ∅) as Hloop.
  destruct (match_loop v2_blocks v1_blocks ∅) as [rs used]. simpl in Hloop.
  apply Forall_app. split.
  - eapply Forall_impl; [exact Hloop|]. intros r [?|?]; auto.
  - eapply Forall_impl; [apply additions_entries|]. intros r ?; auto.
Qed.

(** The changes of one opcode: they are returned, describe blocks of the
    two documents, and are numbered from [change_id] on. *)
Lemma opcode_changes_spec blocks_v1 blocks_v2 change_id op :
  opcode_inside (map ContentBlock.content blocks_v1)
                (map ContentBlock.content blocks_v2) op →
  ∃ new,
    opcode_changes blocks_v1 blocks_v2 change_id op = Some new
    ∧ Forall (change_from blocks_v1 blocks_v2) new
    ∧ map Change.change_id new = seqZ change_id (Z.of_nat (length new)).
Proof.
  destruct op as [[[[tag i1] i2] j1] j2]. simpl. rewrite !length_map.
  intros [Hi Hj]. destruct tag.
  - rewrite (getitems_Some blocks_v1 i1 i2 Hi). simpl.
    rewrite (getitems_Some blocks_v2 j1 j2 Hj). simpl.
    eexists. split; [done|].
    destruct (number_spec change_of_match (change_from blocks_v1 blocks_v2)
                (_match_similar_blocks (slice blocks_v1 i1 i2)
                   (slice blocks_v2 j1 j2)) change_id) as (HF & Hids & Hlen).
    { intros id r Hr. apply change_of_match_from.
      pose proof (match_similar_blocks_entries (slice blocks_v1 i1 i2)
                    (slice blocks_v2 j1 j2)) as Hall.
      rewrite Forall_forall in Hall.
      destruct (Hall r Hr)
        as [(b1 & Hb1 & ->)|[(b1 & b2 & Hb1 & Hb2 & -> & Hge)|(b2 & Hb2 & ->)]].
      - left. exists b1. split; [by eapply elem_of_slice|done].
      - right; left. exists b1, b2.
        split_and!; try done; by eapply elem_of_slice.
      - right; right. exists b2. split; [by eapply elem_of_slice|done]. }
    split; [done|]. by rewrite Hids, Hlen.
  - rewrite (getitems_Some blocks_v1 i1 i2 Hi). simpl.
    eexists. split; [done|].
    destruct (number_spec whole_deleted (change_from blocks_v1 blocks_v2)
                (slice blocks_v1 i1 i2) change_id) as (HF & Hids & Hlen).
    { intros id b Hb. split; [|done]. exists b.
      split_and!; try done. by eapply elem_of_slice. }
    split; [done|]. by rewrite Hids, Hlen.
  - rewrite (getitems_Some blocks_v2 j1 j2 Hj). simpl.
    eexists. split; [done|].
    destruct (number_spec whole_added (change_from blocks_v1 blocks_v2)
                (slice blocks_v2 j1 j2) change_id) as (HF & Hids & Hlen).
    { intros id b Hb. split; [|done]. exists b.
      split_and!; try done. by eapply elem_of_slice. }
    split; [done|]. by rewrite Hids, Hlen.
  - exists []. by split_and!.
Qed.

Lemma opcodes_changes_spec blocks_v1 blocks_v2 ops : ∀ changes change_id,
  Forall (opcode_inside (map ContentBlock.content blocks_v1)
                        (map ContentBlock.content blocks_v2)) ops →
  Forall (change_from blocks_v1 blocks_v2) changes →
  map Change.change_id changes = seqZ 1 (Z.of_nat (length changes)) →
  change_id = (1 + Z.of_nat (length changes))%Z →
  ∃ result,
    opcodes_changes blocks_v1 blocks_v2 ops changes change_id = Some result
    ∧ Forall (change_from blocks_v1 blocks_v2) result
    ∧ map Change.change_id result = seqZ 1 (Z.of_nat (length result)).
Proof.
  induction ops as [|op ops IH]; intros changes change_id Hops Hch Hids Hid;
    simpl.
  - by exists changes.
  - apply Forall_cons in Hops as [Hop Hops].
    destruct (opcode_changes_spec blocks_v1 blocks_v2 change_id op Hop)
      as (new & -> & Hnew & Hnewids).
    simpl. apply IH; try done.
    + by apply Forall_app.
    + rewrite map_app, Hids, Hnewids, length_app, Nat2Z.inj_add, Hid.
      rewrite seqZ_app by lia. done.
    + rewrite length_app. lia.
Qed.

(** [diff_documents] always returns a list of changes: no index it uses
    is out of range.  Each change describes blocks of the two documents,
    and the ids count [1, 2, ...] in the order of the list. *)
Lemma diff_documents_spec blocks_v1 blocks_v2 :
  ∃ changes,
    diff_documents blocks_v1 blocks_v2 = Some changes
    ∧ Forall (change_from blocks_v1 blocks_v2) changes
    ∧ map Change.change_id changes = seqZ 1 (Z.of_nat (length changes)).
Proof.
  unfold diff_documents. apply opcodes_changes_spec; try done.
  apply get_opcodes_inside.
Qed.
End Changes.

(** ** One empty side *)

Section EmptySide.
Context {A : Type} `{EqDecision A}.
Variable a : list A.
Import Difflib.

Lemma b2j_get_nil (x : A) : b2j_get [] x = [].
Proof. done. Qed.

Lemma outer_loop_nil_b rows : ∀ J best,
  outer_loop a [] 0 0 rows J best = best.
Proof.
  induction rows as [|i rows IH]; intros J best; simpl; [done|].
  destruct (a !! i); simpl; apply IH.
Qed.

Lemma extend_nil_b P : extend a [] 0 (length a) 0 0 P (0, 0, 0) = (0, 0, 0).
Proof.
  unfold extend, extend_fwd. cbn [extend_back].
  destruct (length a - (0 + 0)) as [|n]; [done|].
  cbn [extend_fwd_loop]. by rewrite andb_false_r.
Qed.

Lemma find_longest_match_nil_b :
  find_longest_match a [] 0 (length a) 0 0 = (0, 0, 0).
Proof.
  unfold find_longest_match. rewrite outer_loop_nil_b.
  by rewrite !extend_nil_b.
Qed.

Lemma get_opcodes_nil_b :
  get_opcodes a []
  = if length a =? 0 then [] else [(Delete, 0, length a, 0, 0)].
Proof.
  unfold get_opcodes, get_matching_blocks, get_matching_blocks_opt, queue_fuel.
  replace (2 * length a + 2) with (S (2 * length a + 1)) by lia.
  cbn [queue_loop length]. rewrite find_longest_match_nil_b.
  cbn [Nat.eqb].
  assert (∀ fuel, queue_loop a [] fuel [] [] = Some []) as ->
    by by intros [|?].
  unfold finish_blocks. cbn.
  destruct (length a) eqn:Hn; cbn; by rewrite ?Hn.
Qed.

Lemma find_longest_match_nil_a :
  find_longest_match [] a 0 0 0 (length a) = (0, 0, 0).
Proof. done. Qed.

Lemma get_opcodes_nil_a :
  get_opcodes [] a
  = if length a =? 0 then [] else [(Insert, 0, 0, 0, length a)].
Proof.
  unfold get_opcodes, get_matching_blocks, get_matching_blocks_opt, queue_fuel.
  change (2 * length (@nil A) + 2) with 2.
  cbn [queue_loop length]. rewrite find_longest_match_nil_a.
  cbn [Nat.eqb queue_loop].
  unfold finish_blocks. cbn.
  destruct (length a) eqn:Hn; cbn; by rewrite ?Hn.
Qed.
End EmptySide.

Section EmptyDocument.
Context `{unicode_db}.
Import Differ.

Lemma slice_all {X} (l : list X) : slice l 0 (length l) = l.
Proof. unfold slice. by rewrite Nat.sub_0_r, drop_0, firstn_all. Qed.

(** X3: against an empty document every block is deleted, or added, whole;
    the changes follow the order of the blocks, with ids from 1. *)
Lemma diff_documents_empty_side blocks :
  diff_documents blocks [] = Some (number whole_deleted 1 blocks)
  ∧ diff_documents [] blocks = Some (number whole_added 1 blocks).
Proof.
  unfold diff_documents.
  change (map ContentBlock.content []) with (@nil text).
  rewrite get_opcodes_nil_b, get_opcodes_nil_a, length_map.
  destruct (Nat.eqb_spec (length blocks) 0) as [Hlen|Hlen].
  - by destruct blocks.
  - cbn [opcodes_changes opcode_changes].
    rewrite !getitems_Some by done. rewrite slice_all. done.
Qed.
End EmptyDocument.

Section Greedy.
Context `{unicode_db}.
Import Differ.

(** When the search picks a v2 block, every unconsumed block before it
    scores strictly less than it. *)
Lemma best_loop_first used b1 v2_blocks : ∀ idx bm bs k b2 bs',
  best_loop used b1 idx v2_blocks bm bs = (Some (idx + k, b2), bs') →
  bm = Some (idx + k, b2) ∧ bs' = bs
  ∨ (bs < bs')%Q
    ∧ ∀ k' b', k' < k → v2_blocks !! k' = Some b' → (idx + k') ∉ used →
               (similarity_of b1 b' < bs')%Q.
Proof.
  induction v2_blocks as [|b rest IH]; intros idx bm bs k b2 bs' Hrun;
    simpl in Hrun.
  - injection Hrun as -> ->. by left.
  - destruct (decide (idx ∈ used)) as [Hused|Hfree].
    + destruct k as [|k].
      * assert (idx + 0 = S idx + 0 ∨ True) as _ by by right.
        pose proof (best_loop_spec used b1 rest (S idx) bm bs _ _ Hrun)
          as (_ & _ & [[Hbm ->]|(k0 & b0 & _ & _ & Hbm & _)]).
        -- by left.
        -- injection Hbm as Hk _. lia.
      * replace (idx + S k) with (S idx + k) in Hrun by lia.
        apply IH in Hrun as [[-> ->]|[Hlt Hfirst]].
        -- left. split; [f_equal; f_equal; lia|done].
        -- right. split; [done|].
           intros [|k'] b' Hk' Hb' Hnot; simpl in Hb'.
           ++ rewrite Nat.add_0_r in Hnot. done.
           ++ apply (Hfirst k'); [lia|done|].
              by replace (S idx + k') with (idx + S k') by lia.
    + fold (similarity_of b1 b) in Hrun.
      destruct (Qlt_bool bs (similarity_of b1 b)) eqn:Hcmp.
      * apply Qlt_bool_true in Hcmp.
        destruct k as [|k].
        -- pose proof (best_loop_spec used b1 rest (S idx) _ _ _ _ Hrun)
             as (_ & _ & [[Hbm ->]|(k0 & b0 & _ & _ & Hbm & _)]).
           ++ right. split; [done|]. intros k' b' Hk'. lia.
           ++ injection Hbm as Hk _. lia.
        -- replace (idx + S k) with (S idx + k) in Hrun by lia.
           apply IH in Hrun as [[Hbm ->]|[Hlt Hfirst]].
           ++ injection Hbm as Hk _. lia.
           ++ right. split; [by eapply Qlt_trans|].
              intros [|k'] b' Hk' Hb' Hnot; simpl in Hb'.
              ** by injection Hb' as <-.
              ** apply (Hfirst k'); [lia|done|].
                 by replace (S idx + k') with (idx + S k') by lia.
      * apply Qlt_bool_false in Hcmp.
        destruct k as [|k].
        -- pose proof (best_loop_spec used b1 rest (S idx) _ _ _ _ Hrun)
             as (_ & _ & [[Hbm ->]|(k0 & b0 & _ & _ & Hbm & _)]).
           ++ by left.
           ++ injection Hbm as Hk _. lia.
        -- replace (idx + S k) with (S idx + k) in Hrun by lia.
           apply IH in Hrun as [[-> ->]|[Hlt Hfirst]].
           ++ left. split; [f_equal; f_equal; lia|done].
           ++ right. split; [done|].
              intros [|k'] b' Hk' Hb' Hnot; simpl in Hb'.
              ** injection Hb' as <-. by eapply Qle_lt_trans.
              ** apply (Hfirst k'); [lia|done|].
                 by replace (S idx + k') with (idx + S k') by lia.
Qed.

(** X5: the partner of a v1 block is the first unconsumed v2 block of the run
    with the highest similarity. *)
Lemma match_step_first_best v2_blocks used b1 r used' :
  match_step v2_blocks used b1 = (r, used') →
  is_modified r = true →
  ∃ k b2,
    v2_blocks !! k = Some b2 ∧ (k ∉ used)
    ∧ r = modified_entry b1 b2 ∧ used' = {[k]} ∪ used
    ∧ (∀ k' b', v2_blocks !! k' = Some b' → k' ∉ used →
                (similarity_of b1 b' <= similarity_of b1 b2)%Q)
    ∧ (∀ k' b', k' < k → v2_blocks !! k' = Some b' → k' ∉ used →
                (similarity_of b1 b' < similarity_of b1 b2)%Q).
Proof.
  unfold match_step.
  destruct (best_loop used b1 0 v2_blocks None 0%Q) as [bm bs] eqn:Hrun.
  pose proof (best_loop_spec _ _ _ _ _ _ _ _ Hrun) as (_ & Hbound & Hwho).
  destruct Hwho as [[-> ->]|(k & b2 & Hk & Hnot & -> & -> & Hlt)].
  { intros [= <- _]. done. }
  simpl in *.
  destruct (Qle_bool threshold (similarity_of b1 b2)) eqn:Hcmp.
  2: { intros [= <- _]. done. }
  destruct (get_word_level_diff _ _) as [dt wcs] eqn:Hdiff.
  intros [= <- <-] _. exists k, b2. split_and!.
  - done.
  - done.
  - unfold modified_entry. by rewrite Hdiff.
  - done.
  - intros k' b' Hb' Hnot'. by apply (Hbound k').
  - apply (best_loop_first _ _ _ 0 None 0%Q k b2) in Hrun
      as [[? _]|[_ Hfirst]]; [done|].
    intros k' b' Hk' Hb' Hnot'. by apply (Hfirst k').
Qed.
End Greedy.

Section WordDiff.
Context `{unicode_db}.
Import Differ.

(** X6: two texts with the same words, whatever the whitespace between them,
    differ by no word change; the diff text is the words joined by single
    spaces. *)
Lemma get_word_level_diff_same_words original modified :
  Py.split original = Py.split modified →
  get_word_level_diff original modified
  = (space_join (Py.split original), []).
Proof.
  intros Hsame. unfold get_word_level_diff. rewrite <-Hsame.
  rewrite get_opcodes_identical.
  destruct (Nat.eqb_spec (length (Py.split original)) 0) as [Hlen|Hlen].
  - simpl. by destruct (Py.split original).
  - cbn [foldl word_diff_step app]. by rewrite slice_all.
Qed.
End WordDiff.

Section Coverage.
Context `{unicode_db}.
Import Differ.

Lemma omap_lookup_seq {X} (l : list X) m : ∀ i,
  i + m ≤ length l →
  omap (λ k, l !! k) (seq i m) = take m (drop i l).
Proof.
  induction m as [|m IH]; intros i Hi; simpl; [done|].
  destruct (lookup_lt_is_Some_2 l i ltac:(lia)) as [x Hx].
  rewrite Hx, IH by lia. by rewrite (drop_S l x i Hx).
Qed.

Lemma omap_lookup_all {X} (l : list X) :
  omap (λ k, l !! k) (seq 0 (length l)) = l.
Proof. rewrite omap_lookup_seq by done. by rewrite drop_0, firstn_all. Qed.

(** The v1 sides of the entries of the first loop are the v1 blocks, in
    order; the v2 sides are the blocks at the indices consumed. *)
Lemma match_loop_sides v2_blocks v1_blocks : ∀ used rs used',
  match_loop v2_blocks v1_blocks used = (rs, used') →
  omap v1_side rs = v1_blocks
  ∧ ∃ ks, NoDup ks
      ∧ (∀ k, k ∈ ks → (k ∉ used) ∧ k < length v2_blocks)
      ∧ used' = list_to_set ks ∪ used
      ∧ omap v2_side rs = omap (λ k, v2_blocks !! k) ks.
Proof.
  induction v1_blocks as [|b1 rest IH]; intros used rs used' Hrun;
    simpl in Hrun.
  - injection Hrun as <- <-. split; [done|]. exists [].
    split_and!; [constructor| |by rewrite list_to_set_nil, union_empty_l_L|done].
    intros k Hk. by apply not_elem_of_nil in Hk.
  - destruct (match_step v2_blocks used b1) as [r used1] eqn:Hstep.
    destruct (match_loop v2_blocks rest used1) as [rs' used2] eqn:Hrest.
    injection Hrun as <- <-.
    destruct (IH _ _ _ Hrest) as (Hv1 & ks & Hnd & Hks & -> & Hv2).
    destruct (match_step_cases v2_blocks used b1)
      as [[Hdel _]|(k & b2 & Hk & Hnot & _ & _ & Hmod)].
    + rewrite Hdel in Hstep. injection Hstep as <- <-.
      split; [csimpl; by rewrite Hv1|].
      exists ks. by split_and!.
    + rewrite Hmod in Hstep. injection Hstep as <- <-.
      split; [unfold modified_entry; csimpl; by rewrite Hv1|].
      exists (k :: ks). split_and!.
      * apply NoDup_cons. split; [|done].
        intros Hin. destruct (Hks k Hin) as [Hk' _].
        apply Hk'. apply elem_of_union. left. by apply elem_of_singleton.
      * intros k' Hk'. apply elem_of_cons in Hk' as [->|Hk'].
        -- split; [done|by eapply lookup_lt_Some].
        -- destruct (Hks k' Hk') as [Hn ?]. split; [|done].
           intros Hu. apply Hn. apply elem_of_union. by right.
      * rewrite list_to_set_cons. apply set_eq. intros x.
        rewrite !elem_of_union. tauto.
      * unfold modified_entry. csimpl. by rewrite Hk, Hv2.
Qed.

Lemma additions_sides used rest : ∀ idx,
  omap v1_side (additions used idx rest) = []
  ∧ omap v2_side (additions used idx rest)
    = omap (λ k, rest !! (k - idx))
           (filter (λ k, k ∉ used) (seq idx (length rest))).
Proof.
  induction rest as [|b rest IH]; intros idx; [done|].
  destruct (IH (S idx)) as [Hv1 Hv2].
  assert (omap (λ k, (b :: rest) !! (k - idx))
               (filter (λ k, k ∉ used) (seq (S idx) (length rest)))
          = omap (λ k, rest !! (k - S idx))
                 (filter (λ k, k ∉ used) (seq (S idx) (length rest))))
    as Hshift.
  { apply list_omap_ext. apply Forall_Forall2_diag, Forall_forall.
    intros k Hk. apply list_elem_of_filter in Hk as [_ Hk].
    apply elem_of_seq in Hk.
    by replace (k - idx) with (S (k - S idx)) by lia. }
  cbn [additions length seq]. rewrite filter_cons.
  destruct (decide (idx ∈ used)) as [Hin|Hout].
  - rewrite decide_False by (intros Hn; by apply Hn).
    split; [done|]. by rewrite Hv2, Hshift.
  - rewrite decide_True by done. unfold added_entry at 1 2. csimpl.
    rewrite Nat.sub_diag. csimpl.
    split; [done|]. by rewrite Hshift, Hv2.
Qed.

(** The v1 sides and the v2 sides of the entries of a replace run. *)
Lemma match_similar_blocks_sides v1_blocks v2_blocks :
  omap v1_side (_match_similar_blocks v1_blocks v2_blocks) = v1_blocks
  ∧ omap v2_side (_match_similar_blocks v1_blocks v2_blocks) ≡ₚ v2_blocks.
Proof.
  unfold _match_similar_blocks.
  destruct (match_loop v2_blocks v1_blocks ∅) as [rs used] eqn:Hrun.
  apply match_loop_sides in Hrun as (Hv1 & ks & Hnd & Hks & -> & Hv2).
  destruct (additions_sides (list_to_set ks ∪ ∅) v2_blocks 0) as [Ha1 Ha2].
  rewrite !omap_app, Hv1, Ha1, app_nil_r. split; [done|].
  rewrite Hv2, Ha2.
  assert (∀ l, omap (λ k, v2_blocks !! (k - 0)) l
               = omap (λ k, v2_blocks !! k) l) as ->.
  { intros l. apply list_omap_ext, Forall_Forall2_diag, Forall_forall.
    intros k _. by rewrite Nat.sub_0_r. }
  rewrite <-omap_app.
  transitivity (omap (λ k, v2_blocks !! k) (seq 0 (length v2_blocks)));
    [|by rewrite omap_lookup_all].
  apply omap_Permutation, NoDup_Permutation.
  - apply NoDup_app. split_and!; [done| |apply NoDup_filter, NoDup_seq].
    intros k Hk Hk'. apply list_elem_of_filter in Hk' as [Hn _].
    apply Hn. apply elem_of_union. left. by apply elem_of_list_to_set.
  - apply NoDup_seq.
  - intros k. rewrite elem_of_app, list_elem_of_filter, elem_of_seq. split.
    + intros [Hk|[_ ?]]; [|done]. destruct (Hks k Hk). lia.
    + intros Hk. destruct (decide (k ∈ ks)); [by left|right].
      split; [|done]. intros Hu. apply elem_of_union in Hu as [Hu|Hu].
      * by apply elem_of_list_to_set in Hu.
      * by apply not_elem_of_empty in Hu.
Qed.

(** X4: every block of a replace run is spoken of exactly once: the entries
    name the v1 blocks one by one in order, and name each v2 block once. *)
Lemma match_similar_blocks_covers v1_blocks v2_blocks :
  omap v1_side (_match_similar_blocks v1_blocks v2_blocks) = v1_blocks
  ∧ omap v2_side (_match_similar_blocks v1_blocks v2_blocks) ≡ₚ v2_blocks.
Proof. apply match_similar_blocks_sides. Qed.
End Coverage.

Section Opcodes.
Import Difflib.

Lemma opcodes_loop_tags blocks : ∀ i j answer,
  Forall tag_ok answer → Forall tag_ok (opcodes_loop i j blocks answer).
Proof.
  induction blocks as [|[[ai bj] size] blocks IH]; intros i j answer Ha;
    simpl; [done|].
  apply IH.
  destruct (Nat.ltb_spec i ai), (Nat.ltb_spec j bj),
    (Nat.eqb_spec size 0); simpl;
    repeat (apply Forall_app; split); try done;
    apply Forall_singleton; simpl; lia.
Qed.

Lemma get_opcodes_tags {A} `{EqDecision A} (a b : list A) :
  Forall tag_ok (get_opcodes a b).
Proof. apply opcodes_loop_tags. constructor. Qed.
End Opcodes.

Section Words.
Context `{unicode_db}.
Import Differ.

Lemma split_loop_words s : ∀ cur,
  Forall (λ w, w ≠ []) (Py.split_loop s cur).
Proof.
  induction s as [|c s IH]; intros cur; simpl.
  - case_bool_decide; [constructor|]. by apply Forall_singleton.
  - destruct (Py.isspace c); [|apply IH].
    case_bool_decide; [apply IH|]. constructor; [done|apply IH].
Qed.

(** [split] returns no empty word. *)
Lemma split_words s : Forall (λ w, w ≠ []) (Py.split s).
Proof. apply split_loop_words. Qed.

Lemma join_not_empty sep (parts : list text) :
  parts ≠ [] → Forall (λ w, w ≠ []) parts → Py.join sep parts ≠ [].
Proof.
  destruct parts as [|p [|q rest]]; [done| |].
  - intros _ Hp. apply Forall_inv in Hp. exact Hp.
  - intros _ Hp. apply Forall_cons in Hp as [Hp _]. simpl.
    by destruct p.
Qed.

Lemma slice_words (words : list text) i1 i2 :
  Forall (λ w, w ≠ []) words → i1 < i2 → i2 ≤ length words →
  space_join (slice words i1 i2) ≠ [].
Proof.
  intros Hw Hi Hlen. apply join_not_empty.
  - intros Hnil. apply (f_equal length) in Hnil.
    unfold slice in Hnil. rewrite length_take, length_drop in Hnil.
    simpl in Hnil. lia.
  - apply Forall_forall. intros w Hin. apply elem_of_slice in Hin.
    rewrite Forall_forall in Hw. by apply Hw.
Qed.

Lemma word_diff_step_ok orig_words mod_words st op :
  Forall (λ w, w ≠ []) orig_words → Forall (λ w, w ≠ []) mod_words →
  tag_ok op → opcode_inside orig_words mod_words op →
  Forall word_change_ok st.2 →
  Forall word_change_ok (word_diff_step orig_words mod_words st op).2.
Proof.
  intros Ho Hm Htag Hin Hst.
  destruct st as [parts wcs], op as [[[[tag i1] i2] j1] j2].
  simpl in Htag, Hin, Hst. destruct Hin as [Hi Hj].
  destruct tag; simpl; try done; apply Forall_app; (split; [done|]);
    apply Forall_singleton.
  - right; right. destruct Htag. simpl.
    split_and!; [done|by apply slice_words..].
  - left. simpl. split_and!; [done|by apply slice_words|done].
  - right; left. simpl. split_and!; [done|done|by apply slice_words].
Qed.

(** X7: each word change of [get_word_level_diff] has the texts its type
    asks for: a deletion an old text only, an addition a new text only, a
    replacement both. *)
Lemma get_word_level_diff_shape original modified :
  Forall word_change_ok (get_word_level_diff original modified).2.
Proof.
  unfold get_word_level_diff.
  pose proof (get_opcodes_tags (Py.split original) (Py.split modified))
    as Htags.
  pose proof (get_opcodes_inside (Py.split original) (Py.split modified))
    as Hins.
  assert (∀ ops st,
            Forall tag_ok ops →
            Forall (opcode_inside (Py.split original) (Py.split modified)) ops →
            Forall word_change_ok st.2 →
            Forall word_change_ok
              (foldl (word_diff_step (Py.split original) (Py.split modified))
                     st ops).2) as Hfold.
  { induction ops as [|op ops IH]; intros st Ht Hi Hst; simpl; [done|].
    apply Forall_cons in Ht as [Hop Ht]. apply Forall_cons in Hi as [Hop' Hi].
    apply IH; [done..|].
    apply word_diff_step_ok; try done; apply split_words. }
  specialize (Hfold _ ([], []) Htags Hins ltac:(constructor)).
  by destruct (foldl _ _ _).
Qed.
End Words.

Section Layers.
Context `{unicode_db} `{interpreter} `{service}.
Variable settings : Settings.
Import Classifier.

(** The first layer keeps the two lists in the order of the input: the
    changes with a rule verdict, classified by it, and the others. *)
Lemma rule_layer_lists (changes : list Change.t) : ∀ done needs,
  rule_layer changes done needs
  = (done ++ omap (λ c, match classify_by_rules c with
                        | (Some impact, reasoning, risk) =>
                            Some (classified c (impact, reasoning, risk)
                                             (Py.str "rule-based"))
                        | _ => None
                        end) changes,
     needs ++ filter (λ c, unresolved c = true) changes).
Proof.
  induction changes as [|c cs IH]; intros done needs; simpl.
  - by rewrite !app_nil_r.
  - rewrite filter_cons. csimpl.
    destruct (classify_by_rules c) as [[[impact|] reasoning] risk] eqn:Hc.
    + rewrite IH. rewrite decide_False by (unfold unresolved; by rewrite Hc).
      by rewrite <-app_assoc.
    + rewrite IH. rewrite decide_True by (unfold unresolved; by rewrite Hc).
      by rewrite <-app_assoc.
Qed.

Lemma seqZ_sorted n : ∀ m, StronglySorted Z.lt (seqZ m (Z.of_nat n)).
Proof.
  induction n as [|n IH]; intros m.
  - constructor.
  - replace (Z.of_nat (S n)) with (Z.succ (Z.of_nat n)) by lia.
    rewrite seqZ_cons by lia. rewrite Z.pred_succ.
    constructor; [apply IH|].
    apply Forall_forall. intros k Hk. apply elem_of_seqZ in Hk. lia.
Qed.

Lemma ids_sorted (changes : list Change.t) :
  StronglySorted Z.lt (map Change.change_id changes) →
  StronglySorted change_id_lt changes.
Proof.
  induction changes as [|c cs IH]; simpl; intros Hs; [constructor|].
  apply StronglySorted_inv in Hs as [Hs Hc].
  constructor; [by apply IH|].
  apply Forall_forall. intros d Hd. rewrite Forall_forall in Hc.
  apply Hc. by apply list_elem_of_fmap_2.
Qed.

Lemma sorted_NoDup (l : list Z) : StronglySorted Z.lt l → NoDup l.
Proof.
  induction 1 as [|x l _ IH Hx]; constructor; [|done].
  intros Hin. rewrite Forall_forall in Hx. specialize (Hx x Hin). lia.
Qed.

(** When the ids of the input ascend strictly, the result lists the
    classified changes in the order of the input. *)
Lemma classify_changes_keeps_order changes document_type api_key :
  StronglySorted Z.lt (map Change.change_id changes) →
  map base (classified_changes
              (classify_changes settings changes document_type api_key))
  = changes.
Proof.
  intros Hsorted.
  pose proof (classify_changes_perm settings changes document_type api_key)
    as Hperm.
  pose proof (classify_changes_sorted settings changes document_type api_key)
    as Hout.
  set (out := classified_changes _) in *.
  apply (StronglySorted_unique_strong change_id_lt); [| |by apply ids_sorted|done].
  - intros c d _ _. unfold change_id_lt. lia.
  - apply (StronglySorted_fmap _ id_lt change_id_lt); [by intros c d|].
    apply sorted_distinct_strict; [done|].
    assert (map ClassifiedChange.change_id out
            = map Change.change_id (map base out)) as -> by by rewrite map_map.
    rewrite Hperm. by apply sorted_NoDup.
Qed.

Lemma classify_changes_unfold changes document_type api_key :
  classify_changes settings changes document_type api_key
  = let needs_llm := filter (λ c, unresolved c = true) changes in
    if Py.truthy needs_llm
    then
      let r := classify_batch settings (make_classifier settings api_key)
                 needs_llm document_type in
      {| classified_changes :=
           sort_by_id (omap by_rules changes
                       ++ map (llm_classified r.1) needs_llm);
         llm_time_ms := r.2;
         llm_calls := 1 |}
    else
      {| classified_changes := sort_by_id (omap by_rules changes);
         llm_time_ms := 0;
         llm_calls := 0 |}.
Proof.
  unfold classify_changes. rewrite rule_layer_lists. simpl.
  fold by_rules.
  destruct (filter _ changes) as [|c cs] eqn:Hneeds; [done|].
  simpl. by destruct (classify_batch _ _ _ _).
Qed.

Lemma by_rules_Some c cc :
  by_rules c = Some cc →
  base cc = c
  ∧ ClassifiedChange.classification_source cc = Py.str "rule-based"
  ∧ classify_by_rules c
    = (Some (ClassifiedChange.impact cc), ClassifiedChange.reasoning cc,
       ClassifiedChange.risk_analysis cc).
Proof.
  unfold by_rules.
  destruct (classify_by_rules c) as [[[impact|] reasoning] risk]; [|done].
  intros [= <-]. by rewrite base_classified.
Qed.

(** Each classified change says where its verdict comes from: one tagged
    [rule-based] carries the verdict of the rules for its change; one
    tagged [llm] belongs to a change the rules left open. *)
Lemma classify_changes_sources changes document_type api_key :
  Forall (λ cc,
            (ClassifiedChange.classification_source cc = Py.str "rule-based"
             ∧ classify_by_rules (base cc)
               = (Some (ClassifiedChange.impact cc),
                  ClassifiedChange.reasoning cc,
                  ClassifiedChange.risk_analysis cc))
            ∨ (ClassifiedChange.classification_source cc = Py.str "llm"
               ∧ (classify_by_rules (base cc)).1.1 = None))
         (classified_changes
            (classify_changes settings changes document_type api_key)).
Proof.
  rewrite classify_changes_unfold. cbv zeta.
  assert (Forall (λ cc,
            (ClassifiedChange.classification_source cc = Py.str "rule-based"
             ∧ classify_by_rules (base cc)
               = (Some (ClassifiedChange.impact cc),
                  ClassifiedChange.reasoning cc,
                  ClassifiedChange.risk_analysis cc))
            ∨ (ClassifiedChange.classification_source cc = Py.str "llm"
               ∧ (classify_by_rules (base cc)).1.1 = None))
            (omap by_rules changes)) as Hrules.
  { apply Forall_forall. intros cc Hcc.
    apply list_elem_of_omap in Hcc as (c & _ & Hc).
    apply by_rules_Some in Hc as (<- & Hsrc & Hv). by left. }
  destruct (Py.truthy _); simpl; rewrite sort_by_id_perm; [|done].
  apply Forall_app. split; [done|].
  apply Forall_forall. intros cc Hcc.
  apply list_elem_of_fmap in Hcc as (c & -> & Hc).
  apply list_elem_of_filter in Hc as [Hc _].
  right. unfold llm_classified. rewrite base_classified. split; [done|].
  unfold unresolved in Hc. by destruct ((classify_by_rules c).1.1).
Qed.

(** X9: when the rules resolve every change the service is not used: no call
    is counted, no time reported, and every change is tagged
    [rule-based]. *)
Lemma classify_changes_rules_only changes document_type api_key :
  Forall (λ c, (classify_by_rules c).1.1 ≠ None) changes →
  let result := classify_changes settings changes document_type api_key in
  llm_calls result = 0%Z
  ∧ llm_time_ms result = 0%Z
  ∧ classified_changes result = sort_by_id (omap by_rules changes)
  ∧ Forall (λ cc, ClassifiedChange.classification_source cc
                  = Py.str "rule-based") (classified_changes result).
Proof.
  intros Hall result. subst result. rewrite classify_changes_unfold. cbv zeta.
  assert (filter (λ c, unresolved c = true) changes = []) as ->.
  { induction Hall as [|c cs Hc _ IH]; [done|].
    rewrite filter_cons, decide_False; [done|].
    unfold unresolved. by destruct ((classify_by_rules c).1.1). }
  simpl. split_and!; [done..|].
  rewrite sort_by_id_perm. apply Forall_forall. intros cc Hcc.
  apply list_elem_of_omap in Hcc as (c & _ & Hc).
  by apply by_rules_Some in Hc as (_ & ? & _).
Qed.

End Layers.

Section OneCall.
Context `{unicode_db} `{interpreter}.
Variable settings : Settings.
Import Classifier.

(** X13: the result depends on the service only through its answer to one
    request: the model name, the changes the rules left open, in the order
    of the input, and the document type. *)
Lemma classify_changes_one_request (sv1 sv2 : service) changes document_type
    api_key :
  @chat_completions_create sv1 (OPENAI_MODEL settings)
     (filter (λ c, unresolved c = true) changes) document_type
  = @chat_completions_create sv2 (OPENAI_MODEL settings)
      (filter (λ c, unresolved c = true) changes) document_type →
  @classify_changes _ _ sv1 settings changes document_type api_key
  = @classify_changes _ _ sv2 settings changes document_type api_key.
Proof.
  intros Hsame. rewrite !classify_changes_unfold. cbv zeta.
  destruct (Py.truthy _); [|done].
  assert (@classify_batch _ _ sv1 settings (make_classifier settings api_key)
            (filter (λ c, unresolved c = true) changes) document_type
          = @classify_batch _ _ sv2 settings
              (make_classifier settings api_key)
              (filter (λ c, unresolved c = true) changes) document_type)
    as ->; [|done].
  unfold classify_batch. by rewrite Hsame.
Qed.
End OneCall.

Section Composition.
Context `{unicode_db} `{interpreter} `{service}.
Variable settings : Settings.
Import Classifier.

(** Differ and classifier composed: the classified changes are the
    changes of [diff_documents], one by one and in the same order, with ids
    1, 2, ... *)
Lemma compare_keeps_changes blocks_v1 blocks_v2 document_type api_key :
  ∃ changes,
    Differ.diff_documents blocks_v1 blocks_v2 = Some changes
    ∧ map base
        (classified_changes
           (classify_changes settings changes document_type api_key))
      = changes
    ∧ map ClassifiedChange.change_id
        (classified_changes
           (classify_changes settings changes document_type api_key))
      = seqZ 1 (Z.of_nat (length changes)).
Proof.
  destruct (diff_documents_spec blocks_v1 blocks_v2)
    as (changes & Hdiff & _ & Hids).
  exists changes. split; [done|].
  assert (map base
            (classified_changes
               (classify_changes settings changes document_type api_key))
          = changes) as Hbase.
  { apply classify_changes_keeps_order. rewrite Hids. apply seqZ_sorted. }
  split; [done|].
  transitivity (map Change.change_id (map base
    (classified_changes
       (classify_changes settings changes document_type api_key)))).
  - by rewrite map_map.
  - by rewrite Hbase.
Qed.
End Composition.

Section Reply.
Context `{unicode_db} `{interpreter}.
Import Classifier.

Lemma impact_map_lookup (word : text) :
  default MEDIUM (impact_map !! word) = impact_of word.
Proof.
  unfold impact_map, impact_of. cbn [list_to_map foldr fst snd uncurry].
  rewrite !lookup_insert, lookup_empty.
  repeat case_decide; subst; try done.
  all: exfalso; match goal with
                | Heq : Py.str _ = Py.str _ |- _ =>
                    vm_compute in Heq; discriminate Heq
                end.
Qed.

Lemma parse_item_reply results id impact :
  parse_item results (reply_item id impact)
  = Ok (<[Some id := verdict_of impact]> results).
Proof.
  unfold parse_item, reply_item, dict_get. cbn [assoc].
  rewrite (decide_True (P := Py.str "id" = Py.str "id")) by done.
  rewrite (decide_False (P := Py.str "id" = Py.str "impact")).
  2: { intros Heq. vm_compute in Heq. discriminate Heq. }
  rewrite (decide_True (P := Py.str "impact" = Py.str "impact")) by done.
  cbn [except_bind to_int]. unfold default at 1.
  cbn [from_option Datatypes.id except_bind]. rewrite impact_map_lookup.
  unfold verdict_of. by destruct (default_reasons _).
Qed.

Lemma parse_items_reply items : ∀ results,
  parse_items (map (λ p, reply_item p.1 p.2) items) results
  = Ok (foldl (λ m p, <[Some p.1 := verdict_of p.2]> m) results items).
Proof.
  induction items as [|[id impact] items IH]; intros results; [done|].
  cbn [map parse_items foldl fst snd].
  rewrite parse_item_reply. cbn [except_bind]. apply IH.
Qed.

Lemma foldl_insert_lookup (items : list (Z * text)) :
  ∀ (m : gmap (option Z) verdict) id,
  foldl (λ m p, <[Some p.1 := verdict_of p.2]> m) m items !! Some id
  = match list_find (λ p, p.1 = id) (reverse items) with
    | Some (_, p) => Some (verdict_of p.2)
    | None => m !! Some id
    end.
Proof.
  induction items as [|[id' impact] items IH]; intros m id; [done|].
  cbn [foldl]. rewrite IH, reverse_cons.
  destruct (list_find (λ p, p.1 = id) (reverse items)) as [[i p]|] eqn:Hfind.
  - erewrite list_find_app_l; [|done]. done.
  - rewrite list_find_app_r by done. simpl.
    destruct (decide (id' = id)) as [->|Hne].
    + simpl. by rewrite lookup_insert_eq.
    + simpl. rewrite lookup_insert_ne by congruence. done.
Qed.

(** X15: a reply that loads as a list of well-formed items gives each id named
    the verdict of the impact word of the last item that names it; ids
    not named get none.  The word is compared in lower case; [high]
    counts as [critical], and an unknown word as [medium]. *)
Lemma parse_response_items response_text changes (items : list (Z * text)) :
  json_loads (unfence response_text)
  = Loaded (JList (map (λ p, reply_item p.1 p.2) items)) →
  ∃ results,
    _parse_response response_text changes = Ok results
    ∧ (∀ id, id ∉ map fst items → results !! Some id = None)
    ∧ (∀ before id impact after,
         items = before ++ (id, impact) :: after →
         id ∉ map fst after →
         results !! Some id
         = Some (impact_of (Py.lower impact),
                 (default_reasons (impact_of (Py.lower impact))).1,
                 (default_reasons (impact_of (Py.lower impact))).2)).
Proof.
  intros Hload. unfold _parse_response. rewrite Hload.
  cbn [iterate except_bind]. rewrite parse_items_reply.
  eexists. split; [done|]. split.
  - intros id Hid. rewrite foldl_insert_lookup.
    destruct (list_find _ _) as [[i p]|] eqn:Hfind; [|done].
    apply list_find_Some in Hfind as (Hp & Hpid & _).
    exfalso. apply Hid. rewrite <-Hpid.
    apply list_elem_of_fmap_2. apply list_elem_of_lookup_2 in Hp.
    by apply elem_of_reverse.
  - intros before id impact after -> Hafter.
    rewrite foldl_insert_lookup, reverse_app, reverse_cons, <-app_assoc.
    rewrite list_find_app_r.
    2: { apply list_find_None, Forall_forall. intros p Hp Hpid.
         apply Hafter. rewrite <-Hpid. apply list_elem_of_fmap_2.
         by apply elem_of_reverse. }
    simpl. by rewrite decide_True.
Qed.
End Reply.

Section Fences.
Context `{unicode_db}.
Import Classifier.

Lemma lstrip_spaces ws s :
  forallb Py.isspace ws = true → Py.lstrip (ws ++ s) = Py.lstrip s.
Proof.
  induction ws as [|c ws IH]; [done|]. cbn [forallb app Py.lstrip].
  intros [-> Hws]%andb_prop. by apply IH.
Qed.

Lemma lstrip_nonspace c s :
  Py.isspace c = false → Py.lstrip (c :: s) = c :: s.
Proof. intros Hc. cbn [Py.lstrip]. by rewrite Hc. Qed.

Lemma forallb_reverse {A} (f : A → bool) l :
  forallb f (reverse l) = forallb f l.
Proof.
  induction l as [|x l IH]; [done|].
  rewrite reverse_cons, forallb_app, IH. cbn. by rewrite andb_true_r, andb_comm.
Qed.

Lemma rstrip_spaces s ws :
  forallb Py.isspace ws = true → Py.rstrip (s ++ ws) = Py.rstrip s.
Proof.
  intros Hws. unfold Py.rstrip. rewrite reverse_app, lstrip_spaces; [done|].
  by rewrite forallb_reverse.
Qed.

Lemma rstrip_nonspace s c :
  Py.isspace c = false → Py.rstrip (s ++ [c]) = s ++ [c].
Proof.
  intros Hc. unfold Py.rstrip. rewrite reverse_app. cbn [reverse rev_append app].
  change (rev_append [c] []) with [c]. cbn [app].
  rewrite lstrip_nonspace by done.
  by rewrite reverse_cons, reverse_involutive.
Qed.

(** Stripping a text that is wrapped in whitespace and has no whitespace
    at either end of its core. *)
Lemma strip_core ws1 core ws2 c1 c2 :
  forallb Py.isspace ws1 = true → forallb Py.isspace ws2 = true →
  head core = Some c1 → Py.isspace c1 = false →
  last core = Some c2 → Py.isspace c2 = false →
  Py.strip (ws1 ++ core ++ ws2) = core.
Proof.
  intros Hws1 Hws2 Hhead Hc1 Hlast Hc2. unfold Py.strip.
  rewrite lstrip_spaces by done.
  destruct core as [|c core]; [done|]. injection Hhead as ->.
  cbn [app]. rewrite lstrip_nonspace by done.
  rewrite (app_comm_cons _ ws2 c1), rstrip_spaces by done.
  apply last_Some in Hlast as [init ->]. by apply rstrip_nonspace.
Qed.

Lemma backtick_nonspace : Py.isspace 96%N = false.
Proof. done. Qed.

Lemma startswith_app p s : startswith p (p ++ s) = true.
Proof.
  unfold startswith. apply bool_decide_eq_true. by rewrite take_app_length.
Qed.

Lemma endswith_app p s : endswith p (s ++ p) = true.
Proof.
  unfold endswith. rewrite length_app.
  replace (length s + length p - length p) with (length s) by lia.
  rewrite drop_app_length, bool_decide_eq_true_2 by done.
  apply Nat.leb_le. lia.
Qed.

(** X16: a reply wrapped in a [```json] fence, with any whitespace around the
    fence, is read as the stripped text between the fence lines. *)
Lemma unfence_json ws1 body ws2 :
  forallb Py.isspace ws1 = true → forallb Py.isspace ws2 = true →
  startswith (Py.str "```") (body ++ Py.str "```") = false →
  unfence (ws1 ++ (Py.str "```json" ++ body ++ Py.str "```") ++ ws2)
  = Py.strip body.
Proof.
  intros Hws1 Hws2 Hbody. unfold unfence.
  rewrite (strip_core _ _ _ 96%N 96%N); try done.
  2: { by rewrite !app_assoc, last_app. }
  rewrite startswith_app.
  change 7 with (length (Py.str "```json")). rewrite drop_app_length.
  rewrite Hbody, endswith_app, length_app.
  change (length (Py.str "```")) with 3.
  replace (length body + 3 - 3) with (length body) by lia.
  by rewrite take_app_length.
Qed.

(** X17: a reply wrapped in a plain [```] fence, with any whitespace around
    the fence, is read as the stripped text between the fence lines, when
    the body does not begin with the word [json]. *)
Lemma unfence_plain ws1 body ws2 :
  forallb Py.isspace ws1 = true → forallb Py.isspace ws2 = true →
  startswith (Py.str "json") (body ++ Py.str "```") = false →
  unfence (ws1 ++ (Py.str "```" ++ body ++ Py.str "```") ++ ws2)
  = Py.strip body.
Proof.
  intros Hws1 Hws2 Hbody. unfold unfence.
  rewrite (strip_core _ _ _ 96%N 96%N); try done.
  2: { by rewrite !app_assoc, last_app. }
  assert (startswith (Py.str "```json") (Py.str "```" ++ body ++ Py.str "```")
          = false) as ->.
  { unfold startswith in *. apply bool_decide_eq_false.
    apply bool_decide_eq_false in Hbody. intros Heq. apply Hbody.
    change (Py.str "```json") with (Py.str "```" ++ Py.str "json") in Heq.
    rewrite length_app in Heq.
    rewrite take_app_ge in Heq by (change (length (Py.str "```")) with 3; lia).
    apply app_inv_head in Heq.
    by replace (length (Py.str "```") + length (Py.str "json")
                - length (Py.str "```")) with (length (Py.str "json")) in Heq
      by lia. }
  rewrite startswith_app.
  change (drop 3 (Py.str "```" ++ body ++ Py.str "```"))
    with (body ++ Py.str "```").
  rewrite endswith_app, length_app.
  change (length (Py.str "```")) with 3.
  replace (length body + 3 - 3) with (length body) by lia.
  by rewrite take_app_length.
Qed.
End Fences.

Section Locations.
Context `{unicode_db} `{interpreter}.
Import Annotator.

Lemma digits_loop_digits fuel : ∀ n acc,
  Forall is_digit acc → Forall is_digit (Py.digits_loop fuel n acc).
Proof.
  induction fuel as [|fuel IH]; intros n acc Hacc; [done|].
  cbn [Py.digits_loop].
  assert (Forall is_digit ((48 + n mod 10)%N :: acc)) as Hacc'.
  { constructor; [|done]. unfold is_digit.
    assert (n mod 10 < 10)%N by (by apply N.mod_lt).
    generalize dependent (n mod 10)%N. intros m Hm. lia. }
  destruct (n / 10 =? 0)%N; [done|]. by apply IH.
Qed.

Lemma digits_loop_not_empty fuel n acc :
  acc ≠ [] ∨ fuel ≠ 0 → Py.digits_loop fuel n acc ≠ [].
Proof.
  revert n acc. induction fuel as [|fuel IH]; intros n acc Hne.
  - cbn. by destruct Hne.
  - cbn [Py.digits_loop]. destruct (n / 10 =? 0)%N; [done|].
    apply IH. by left.
Qed.

Lemma digits_digits n : Forall is_digit (Py.digits n) ∧ Py.digits n ≠ [].
Proof.
  split.
  - by apply digits_loop_digits.
  - apply digits_loop_not_empty. by right.
Qed.

Lemma is_digit_decimal c : is_digit c → Py.isdecimal c = true.
Proof.
  unfold is_digit, Py.isdecimal, Py.is_ascii, Py.ascii_isdigit, Py.between.
  intros Hc.
  replace (c <? 128)%N with true by (symmetry; apply N.ltb_lt; lia).
  apply andb_true_intro. split; apply N.leb_le; lia.
Qed.

Lemma digit_run_digits s : Forall is_digit s → digit_run s = s.
Proof.
  induction 1 as [|c s Hc _ IH]; [done|].
  cbn [digit_run]. by rewrite is_digit_decimal, IH.
Qed.

Lemma search_block_other c s :
  c ≠ 66%N → search_block (c :: s) = search_block s.
Proof.
  intros Hc. cbn [search_block].
  assert (Classifier.startswith (Py.str "Block ") (c :: s) = false) as ->.
  { apply bool_decide_eq_false. intros Heq.
    change (Py.str "Block ") with [66; 108; 111; 99; 107; 32]%N in Heq.
    cbn in Heq. apply Hc. by injection Heq as -> _. }
  done.
Qed.

Lemma search_block_no_capital s :
  66%N ∉ s → search_block s = None.
Proof.
  induction s as [|c s IH]; intros Hs; [done|].
  apply not_elem_of_cons in Hs as [Hc Hs].
  rewrite search_block_other by done. by apply IH.
Qed.

Lemma search_block_cons c s :
  search_block (c :: s)
  = let here :=
      if Classifier.startswith (Py.str "Block ") (c :: s)
      then digit_run (drop 6 (c :: s)) else [] in
    if Py.truthy here then Some here else search_block s.
Proof. done. Qed.

Lemma search_block_here s :
  search_block (Py.str "Block " ++ s)
  = if Py.truthy (digit_run s) then Some (digit_run s) else search_block s.
Proof.
  change (Py.str "Block ") with [66; 108; 111; 99; 107; 32]%N.
  cbn [app]. rewrite search_block_cons.
  assert (Classifier.startswith (Py.str "Block ")
            (66 :: 108 :: 111 :: 99 :: 107 :: 32 :: s)%N = true) as ->.
  { by apply bool_decide_eq_true. }
  cbn [drop]. cbv zeta. rewrite drop_0. destruct (Py.truthy (digit_run s)); [done|].
  by rewrite !search_block_other.
Qed.

(** X20: the location written by the differ for a block is read back by the
    annotator as that block's index. *)
Lemma extract_block_index_location block :
  (0 ≤ ContentBlock.index block + 1)%Z →
  int_of_str (Py.str_of_int (ContentBlock.index block + 1))
  = Some (ContentBlock.index block + 1)%Z →
  _extract_block_index (Differ.location_of block)
  = Index (ContentBlock.index block).
Proof.
  intros Hpos Hint. unfold _extract_block_index, Differ.location_of.
  assert (Forall is_digit (Py.str_of_int (ContentBlock.index block + 1))
          ∧ Py.str_of_int (ContentBlock.index block + 1) ≠ []) as [Hd Hne].
  { destruct (ContentBlock.index block + 1)%Z; [apply digits_digits..|lia]. }
  rewrite search_block_here, digit_run_digits by done.
  destruct (Py.str_of_int _) eqn:Hstr; [done|]. cbn [Py.truthy].
  rewrite Hint. f_equal. lia.
Qed.

(** X21: a location whose number is negative holds no block index. *)
Lemma extract_block_index_negative block :
  (ContentBlock.index block + 1 < 0)%Z →
  _extract_block_index (Differ.location_of block) = NoIndex.
Proof.
  intros Hneg. unfold _extract_block_index, Differ.location_of.
  destruct (ContentBlock.index block + 1)%Z as [|p|p] eqn:Hz; [lia..|].
  cbn [Py.str_of_int].
  assert (66%N ∉ Py.digits (N.pos p)) as Hno.
  { intros Hin. destruct (digits_digits (N.pos p)) as [Hd _].
    rewrite Forall_forall in Hd. apply Hd in Hin. unfold is_digit in Hin. lia. }
  rewrite search_block_here. cbn [digit_run].
  assert (Py.isdecimal 45%N = false) as -> by done. cbn [Py.truthy].
  rewrite search_block_other by done.
  by rewrite search_block_no_capital.
Qed.
End Locations.

Section Summary.
Import Main.

Lemma count_impact_from level classified : ∀ n,
  foldl (λ n c, if decide (ClassifiedChange.impact c = level)
                then (n + 1)%Z else n) n classified
  = (n + count_impact level classified)%Z.
Proof.
  unfold count_impact.
  induction classified as [|c l IH] using rev_ind; intros n.
  - cbn. lia.
  - rewrite !foldl_app. cbn [foldl]. rewrite (IH n).
    destruct (decide _); lia.
Qed.

Lemma count_impact_cons level c classified :
  count_impact level (c :: classified)
  = ((if decide (ClassifiedChange.impact c = level) then 1 else 0)
     + count_impact level classified)%Z.
Proof.
  unfold count_impact at 1. cbn [foldl]. rewrite count_impact_from.
  destruct (decide _); lia.
Qed.

Lemma summary_counts classified :
  (critical (summary classified) + medium (summary classified)
   + low (summary classified) = total (summary classified))%Z.
Proof.
  cbn [summary critical medium low total].
  induction classified as [|c l IH]; [done|].
  rewrite !count_impact_cons. cbn [length].
  destruct (ClassifiedChange.impact c);
    repeat (destruct (decide _); try done); lia.
Qed.
End Summary.

Section CompareSummary.
Context `{unicode_db} `{interpreter} `{service}.
Variable settings : Settings.
Import Main.

(** X19: the summary of a comparison counts the changes of the differ: the
    total is their number and the three impact counts add up to it. *)
Lemma compare_summary_total blocks_v1 blocks_v2 document_type :
  ∃ changes s,
    Differ.diff_documents blocks_v1 blocks_v2 = Some changes
    ∧ compare_summary settings blocks_v1 blocks_v2 document_type = Some s
    ∧ total s = Z.of_nat (length changes)
    ∧ (critical s + medium s + low s = total s)%Z.
Proof.
  destruct (compare_keeps_changes settings blocks_v1 blocks_v2 document_type
              (Some (OPENAI_API_KEY settings)))
    as (changes & Hdiff & Hbase & _).
  exists changes. eexists. unfold compare_summary. rewrite Hdiff.
  split; [done|]. split; [done|]. split.
  - cbn [summary total]. f_equal.
    rewrite <-Hbase at 2. by rewrite length_map.
  - apply summary_counts.
Qed.
End CompareSummary.

Section StorageFacts.
Variable time : Type.
Variable older_than : time → time → Z → bool.
Import Storage.

Lemma lookup_foldl_delete (ids : list text) : ∀ (st : gmap text (document time)) k,
  foldl (λ m doc_id, base.delete doc_id m) st ids !! k
  = if decide (k ∈ ids) then None else st !! k.
Proof.
  induction ids as [|i ids IH]; intros st k; cbn [foldl].
  - rewrite decide_False; [done|]. apply not_elem_of_nil.
  - rewrite IH, lookup_delete.
    destruct (decide (k ∈ ids)) as [Hin|Hnin].
    + rewrite decide_True; [done|]. by right.
    + destruct (decide (i = k)) as [->|Hne].
      * rewrite decide_True; [done|]. by left.
      * rewrite decide_False; [done|].
        rewrite elem_of_cons. intros [->|?]; done.
Qed.

Lemma size_foldl_delete (ids : list text) : ∀ (st : gmap text (document time)),
  NoDup ids → (∀ k, k ∈ ids → is_Some (st !! k)) →
  size (foldl (λ m doc_id, base.delete doc_id m) st ids) + length ids
  = size st.
Proof.
  induction ids as [|i ids IH]; intros st Hnd Hin; cbn [foldl length].
  - lia.
  - apply NoDup_cons in Hnd as [Hi Hnd].
    destruct (Hin i) as [d Hd]; [by left|].
    pose proof (map_size_delete_Some i st (ex_intro _ d Hd)) as Hsize.
    assert (size st ≠ 0) as Hnz.
    { intros Hz%map_size_empty_iff. by rewrite Hz, lookup_empty in Hd. }
    specialize (IH (base.delete i st) Hnd).
    rewrite <-Nat.add_succ_comm. cbn [Nat.add]. rewrite IH; [lia|].
    intros k Hk. rewrite lookup_delete_ne.
    + apply Hin. by right.
    + by intros ->.
Qed.

Lemma elem_of_to_remove (st : gmap text (document time)) now max_age k :
  k ∈ to_remove time older_than st now max_age
  ↔ ∃ d, st !! k = Some d ∧ older_than now (created _ d) max_age = true.
Proof.
  unfold to_remove. rewrite list_elem_of_fmap. split.
  - intros ([k' d] & -> & [Hold Hin]%list_elem_of_filter).
    apply elem_of_map_to_list in Hin. by exists d.
  - intros (d & Hd & Hold). exists (k, d). split; [done|].
    apply list_elem_of_filter. split; [done|]. by apply elem_of_map_to_list.
Qed.

(** [cleanup] removes exactly the documents that are older than the
    given age and keeps every other one as it is; the number it returns
    is the number of documents removed. *)
Lemma cleanup_spec (st : gmap text (document time)) now max_age :
  (∀ doc_id,
     get _ (cleanup _ older_than st now max_age).1 doc_id
     = match get _ st doc_id with
       | Some d =>
           if older_than now (created _ d) max_age then None else Some d
       | None => None
       end)
  ∧ (Z.of_nat (size (cleanup _ older_than st now max_age).1)
     + (cleanup _ older_than st now max_age).2
     = Z.of_nat (size st))%Z.
Proof.
  unfold cleanup, get. cbn [fst snd]. split.
  - intros k. rewrite lookup_foldl_delete.
    destruct (decide _) as [Hin|Hnin].
    + apply elem_of_to_remove in Hin as (d & -> & ->). done.
    + destruct (st !! k) as [d|] eqn:Hd; [|done].
      destruct (older_than now (created _ d) max_age) eqn:Hold; [|done].
      exfalso. apply Hnin, elem_of_to_remove. by exists d.
  - rewrite <-Nat2Z.inj_add. f_equal. apply size_foldl_delete.
    + unfold to_remove. apply (sublist_NoDup _ ((map_to_list st).*1)).
      * apply NoDup_fst_map_to_list.
      * apply fmap_sublist, sublist_filter.
    + intros k (d & Hd & _)%elem_of_to_remove. by exists d.
Qed.

(** X23: a second [cleanup] at the same time removes nothing. *)
Lemma cleanup_twice (st : gmap text (document time)) now max_age :
  cleanup _ older_than (cleanup _ older_than st now max_age).1 now max_age
  = ((cleanup _ older_than st now max_age).1, 0%Z).
Proof.
  destruct (cleanup_spec st now max_age) as [Hget _].
  unfold get in Hget.
  set (st' := (cleanup _ older_than st now max_age).1) in *.
  unfold cleanup.
  assert (to_remove _ older_than st' now max_age = []) as ->; [|done].
  apply elem_of_nil_inv. intros k (d & Hd & Hold)%elem_of_to_remove.
  rewrite Hget in Hd. destruct (st !! k) as [d'|]; [|done].
  destruct (older_than now (created _ d') max_age) eqn:Hold'; [done|].
  injection Hd as ->. congruence.
Qed.

(** X24: a stored document is served by [get] until a [cleanup] finds it too
    old or the id is stored again. *)
Lemma store_get_cleanup (st : gmap text (document time)) doc_id doc_bytes name t now
    max_age :
  get _ (store _ st doc_id doc_bytes name t) doc_id
  = Some {| bytes := doc_bytes; filename := name; created := t |}
  ∧ get _ (cleanup _ older_than (store _ st doc_id doc_bytes name t)
             now max_age).1 doc_id
    = (if older_than now t max_age then None
       else Some {| bytes := doc_bytes; filename := name; created := t |}).
Proof.
  destruct (cleanup_spec (store _ st doc_id doc_bytes name t) now max_age)
    as [Hget _].
  rewrite Hget. unfold get, store. by rewrite lookup_insert_eq.
Qed.
End StorageFacts.

Section RuleRange.
Context `{unicode_db}.
Import Classifier.

Lemma scan_patterns_range (patterns : list (Re.regex * text)) (s : text) :
  Forall (λ pr, is_Some (RISK_STATEMENTS !! pr.2)) patterns →
  scan_patterns patterns s = (None, [], [])
  ∨ ∃ p reason risk,
      (p, reason) ∈ patterns
      ∧ RISK_STATEMENTS !! reason = Some risk
      ∧ Re.search p s = true
      ∧ scan_patterns patterns s = (Some CRITICAL, reason, risk).
Proof.
  induction 1 as [|[q r] rest [risk Hrisk] _ IH]; [by left|].
  cbn [scan_patterns]. destruct (Re.search q s) eqn:Hq.
  - right. exists q, r, risk. cbn [snd] in Hrisk. rewrite Hrisk.
    split; [by left|done].
  - destruct IH as [IH|(p & reason & risk' & Hin & ? & ? & ?)]; [by left|].
    right. exists p, reason, risk'. split; [by right|done].
Qed.

Lemma critical_patterns_risks :
  Forall (λ pr : Re.regex * text, is_Some (RISK_STATEMENTS !! pr.2))
    CRITICAL_PATTERNS.
Proof.
  unfold CRITICAL_PATTERNS.
  repeat constructor; cbn [snd]; eexists; by vm_compute.
Qed.

(** The rules answer in one of three ways: LOW with the fixed wording for
    a trivial change; CRITICAL with the reason of a pattern that is found
    in the analysed text and the risk statement listed for that reason
    (the fallback statement is never used); or nothing.  They never
    answer MEDIUM. *)
Lemma classify_by_rules_range (change : Change.t) :
  (_is_trivial_change change = true
   ∧ classify_by_rules change = trivial_result)
  ∨ classify_by_rules change = (None, [], [])
  ∨ ∃ p reason risk,
      (p, reason) ∈ CRITICAL_PATTERNS
      ∧ RISK_STATEMENTS !! reason = Some risk
      ∧ Re.search p (text_to_analyze change) = true
      ∧ classify_by_rules change = (Some CRITICAL, reason, risk).
Proof.
  unfold classify_by_rules. cbv zeta.
  destruct (_is_trivial_change change); [by left|]. right.
  apply scan_patterns_range, critical_patterns_risks.
Qed.
End RuleRange.

Section Medium.
Context `{unicode_db} `{interpreter} `{service}.
Variable settings : Settings.
Import Classifier.

(** X11: a change classified by the rules is CRITICAL or LOW: MEDIUM comes
    from the second layer only. *)
Lemma rule_based_not_medium changes document_type api_key :
  Forall (λ cc,
            ClassifiedChange.classification_source cc = Py.str "rule-based" →
            ClassifiedChange.impact cc = CRITICAL
            ∨ ClassifiedChange.impact cc = LOW)
         (classified_changes
            (classify_changes settings changes document_type api_key)).
Proof.
  eapply Forall_impl;
    [apply (classify_changes_sources settings changes document_type api_key)|].
  intros cc [[_ Hrule]|[Hllm _]] Hsrc.
  - destruct (classify_by_rules_range (base cc))
      as [[_ Ht]|[Hn|(p & reason & risk & _ & _ & _ & Hc)]];
      rewrite Hrule in *.
    + right. unfold trivial_result in Ht. congruence.
    + discriminate Hn.
    + left. congruence.
  - rewrite Hllm in Hsrc. by vm_compute in Hsrc.
Qed.
End Medium.

(** ** The matching blocks are matches, in ascending order *)

Section Sound.
Context {A : Type} `{EqDecision A}.
Variables a b : list A.
Import Difflib.

Lemma agree_empty i j : agree a b (i, j, 0).
Proof. intros t Ht. simpl in Ht. lia. Qed.

Lemma agree_grow i j k x :
  agree a b (i, j, k) →
  a !! (i + k) = Some x → b !! (j + k) = Some x →
  agree a b (i, j, S k).
Proof.
  intros Hm Ha Hb t Ht. simpl in *.
  destruct (decide (t = k)) as [->|Hne].
  - rewrite Ha, Hb. by split; [eexists|].
  - apply Hm. simpl. lia.
Qed.

Lemma agree_grow_back i j k x :
  agree a b (S i, S j, k) →
  a !! i = Some x → b !! j = Some x →
  agree a b (i, j, S k).
Proof.
  intros Hm Ha Hb t Ht. simpl in *.
  destruct t as [|t].
  - rewrite !Nat.add_0_r, Ha, Hb. by split; [eexists|].
  - replace (i + S t) with (S i + t) by lia.
    replace (j + S t) with (S j + t) by lia.
    apply Hm. simpl. lia.
Qed.

Lemma same_at_true i j P :
  same_at a b i j P = true → ∃ x, a !! i = Some x ∧ b !! j = Some x.
Proof.
  unfold same_at. destruct (a !! i) as [x|]; [|done].
  destruct (b !! j) as [y|]; [|done].
  intros [_ Hxy%bool_decide_eq_true]%andb_prop. subst. by exists y.
Qed.

(** A lookup that holds up to arithmetic on the index. *)
Ltac at_index H :=
  match type of H with
  | ?l !! ?m = _ =>
      match goal with
      | |- l !! ?n = _ => replace n with m by lia; exact H
      end
  end.

Lemma inner_loop_agree blo bhi J i x :
  a !! i = Some x →
  j2len_sound a b i J →
  ∀ js N best,
    Forall (λ j, b !! j = Some x) js →
    j2len_sound a b (S i) N →
    agree a b best →
    let r := inner_loop blo bhi J i js N best in
    j2len_sound a b (S i) r.1 ∧ agree a b r.2.
Proof.
  intros Hx HJ.
  induction js as [|j js IH]; intros N best Hjs HN Hbest; simpl; [done|].
  apply Forall_cons in Hjs as [Hj Hjs].
  destruct (Nat.ltb_spec j blo) as [?|Hjlo]; [by apply IH|].
  destruct (Nat.leb_spec bhi j) as [?|Hjhi]; [done|].
  assert (j2lenget J j + 1 ≤ S i ∧ j2lenget J j + 1 ≤ j + 1
          ∧ agree a b (i + 1 - (j2lenget J j + 1),
                       j + 1 - (j2lenget J j + 1),
                       j2lenget J j + 1)) as (Hk1 & Hk2 & Hk).
  { destruct j as [|j']; simpl.
    - split; [lia|]. split; [lia|].
      replace (i + 1 - 1) with i by lia.
      apply (agree_grow _ _ _ x); [apply agree_empty|at_index Hx|at_index Hj].
    - destruct (J !! j') as [v|] eqn:Hv; simpl.
      + destruct (HJ j' v Hv) as (Hv1 & Hv2 & Hm).
        split; [lia|]. split; [lia|].
        replace (i + 1 - (v + 1)) with (i - v) by lia.
        replace (S (j' + 1) - (v + 1)) with (j' + 1 - v) by lia.
        replace (v + 1) with (S v) by lia.
        apply (agree_grow _ _ _ x); [done|at_index Hx|at_index Hj].
      + split; [lia|]. split; [lia|].
        replace (i + 1 - 1) with i by lia.
        replace (S (j' + 1) - 1) with (S j') by lia.
        apply (agree_grow _ _ _ x); [apply agree_empty|at_index Hx|at_index Hj]. }
  apply IH; [done| |].
  - intros j' v. destruct (decide (j' = j)) as [->|Hne].
    + rewrite lookup_insert_eq. intros [= <-].
      split; [lia|]. split; [lia|].
      by replace (S i - (j2lenget J j + 1))
        with (i + 1 - (j2lenget J j + 1)) by lia.
    + rewrite lookup_insert_ne by done. apply HN.
  - by destruct (Nat.ltb_spec best.2 (j2lenget J j + 1)).
Qed.

Lemma outer_loop_agree blo bhi m : ∀ i J best,
  j2len_sound a b i J →
  agree a b best →
  agree a b (outer_loop a b blo bhi (seq i m) J best).
Proof.
  induction m as [|m IH]; intros i J best HJ Hbest; simpl; [done|].
  destruct (a !! i) as [x|] eqn:Hx.
  - pose proof (inner_loop_agree blo bhi J i x Hx HJ (b2j_get b x) ∅ best)
      as Hrow.
    simpl in Hrow.
    destruct (inner_loop blo bhi J i _ ∅ best) as [J' best'].
    destruct Hrow as [HJ' Hbest']; [| |done|by apply IH].
    + apply Forall_forall. intros j Hj. by apply elem_of_b2j_get in Hj as [? _].
    + by intros j v; rewrite lookup_empty.
  - simpl. apply IH; [|done]. by intros j v; rewrite lookup_empty.
Qed.

Lemma extend_back_agree alo blo P besti : ∀ bestj bestsize,
  agree a b (besti, bestj, bestsize) →
  agree a b (extend_back a b alo blo P besti bestj bestsize).
Proof.
  induction besti as [|i IH]; intros bestj bestsize Hm; simpl; [done|].
  destruct bestj as [|j]; [done|].
  destruct (Nat.ltb_spec alo (S i)); simpl; [|done].
  destruct (Nat.ltb_spec blo (S j)); simpl; [|done].
  destruct (same_at a b i j P) eqn:Hsame; [|done].
  apply same_at_true in Hsame as (x & Ha & Hb).
  apply IH. by apply (agree_grow_back _ _ _ x).
Qed.

Lemma extend_fwd_loop_agree ahi bhi P n : ∀ besti bestj bestsize,
  agree a b (besti, bestj, bestsize) →
  agree a b (extend_fwd_loop a b ahi bhi n P besti bestj bestsize).
Proof.
  induction n as [|n IH]; intros besti bestj bestsize Hm; simpl; [done|].
  destruct (Nat.ltb_spec (besti + bestsize) ahi); simpl; [|done].
  destruct (Nat.ltb_spec (bestj + bestsize) bhi); simpl; [|done].
  destruct (same_at a b _ _ P) eqn:Hsame; [|done].
  apply same_at_true in Hsame as (x & Ha & Hb).
  apply IH. by apply (agree_grow _ _ _ x).
Qed.

Lemma extend_agree alo ahi blo bhi P m :
  agree a b m → agree a b (extend a b alo ahi blo bhi P m).
Proof.
  destruct m as [[besti bestj] bestsize]. intros Hm. unfold extend.
  pose proof (extend_back_agree alo blo P besti bestj bestsize Hm) as Hback.
  destruct (extend_back a b alo blo P besti bestj bestsize) as [[i j] k].
  by apply extend_fwd_loop_agree.
Qed.

(** The longest match is a match. *)
Lemma find_longest_match_agree alo ahi blo bhi :
  agree a b (find_longest_match a b alo ahi blo bhi).
Proof.
  unfold find_longest_match. do 2 apply extend_agree.
  apply outer_loop_agree.
  - by intros j v; rewrite lookup_empty.
  - apply agree_empty.
Qed.
End Sound.

Section Chain.
Context {A : Type} `{EqDecision A}.
Variables a b : list A.
Import Difflib.

Ltac forall_cons :=
  repeat (first [apply Forall_nil_2 | apply Forall_cons_2; [assumption|]]).

Ltac chain_cons :=
  repeat (first [apply SSorted_nil | apply SSorted_cons; [|forall_cons]]).

Lemma apart_inside_l r p s : apart r s → inside r p → apart p s.
Proof.
  destruct r as [[[??]?]?], p as [[[??]?]?], s as [[[??]?]?].
  unfold apart, before, inside. simpl. lia.
Qed.

Lemma apart_inside_r r p s : apart s r → inside r p → apart s p.
Proof.
  destruct r as [[[??]?]?], p as [[[??]?]?], s as [[[??]?]?].
  unfold apart, before, inside. simpl. lia.
Qed.

(** Replacing an entry of a chain by parts of it keeps the chain. *)
Lemma chain_replace l1 r l2 pieces :
  StronglySorted apart (l1 ++ r :: l2) →
  Forall (inside r) pieces →
  StronglySorted apart pieces →
  StronglySorted apart (l1 ++ pieces ++ l2).
Proof.
  rewrite !StronglySorted_app, StronglySorted_cons, !Forall_forall.
  intros (H12 & H1 & Hr & H2) Hin Hp. split_and!; try done.
  - intros x y Hx [Hy|Hy]%elem_of_app.
    + apply (apart_inside_r r); [|by apply Hin].
      apply H12; [done|by left].
    + apply H12; [done|by right].
  - intros x y Hx Hy. apply (apart_inside_l r); [by apply Hr|by apply Hin].
Qed.

Lemma chain_drop l1 r l2 :
  StronglySorted apart (l1 ++ r :: l2) → StronglySorted apart (l1 ++ l2).
Proof.
  intros Hc. apply (chain_replace l1 r l2 []) in Hc; [done|constructor..].
Qed.

(** The blocks the queue loop finds are matches, not empty, and apart
    from one another. *)
Lemma queue_loop_chain fuel : ∀ queue blocks result,
  queue_loop a b fuel queue blocks = Some result →
  Forall (range_ok (length a) (length b)) queue →
  StronglySorted apart (map rect blocks ++ queue) →
  Forall (λ m, agree a b m ∧ 0 < m.2) blocks →
  StronglySorted apart (map rect result)
  ∧ Forall (λ m, agree a b m ∧ 0 < m.2) result.
Proof.
  induction fuel as [|fuel IH]; intros queue blocks result Hrun Hok Hc Hb.
  - destruct queue as [|[[[alo ahi] blo] bhi] queue]; [|done].
    injection Hrun as <-. by rewrite app_nil_r in Hc.
  - destruct queue as [|[[[alo ahi] blo] bhi] queue].
    { injection Hrun as <-. by rewrite app_nil_r in Hc. }
    apply Forall_cons in Hok as [(Ha1 & Ha2 & Hb1 & Hb2) Hok].
    cbn [queue_loop] in Hrun.
    pose proof (find_longest_match_within a b alo ahi blo bhi Ha1 Hb1) as Hin.
    pose proof (find_longest_match_agree a b alo ahi blo bhi) as Hm.
    destruct (find_longest_match a b alo ahi blo bhi) as [[i j] k].
    destruct Hin as (Hi1 & Hi2 & Hj1 & Hj2). simpl in Hi1, Hi2, Hj1, Hj2.
    destruct (k =? 0) eqn:Hk.
    + apply (IH queue blocks result Hrun Hok); [|done].
      by apply chain_drop in Hc.
    + apply Nat.eqb_neq in Hk.
      set (q1 := if (alo <? i) && (blo <? j) then (alo, i, blo, j) :: queue
                 else queue) in *.
      set (q2 := if (i + k <? ahi) && (j + k <? bhi)
                 then (i + k, ahi, j + k, bhi) :: q1 else q1) in *.
      apply (IH q2 (blocks ++ [(i, j, k)]) result Hrun).
      * subst q1 q2.
        assert (range_ok (length a) (length b) (alo, i, blo, j)) as Hr1
          by (unfold range_ok; lia).
        assert (range_ok (length a) (length b) (i + k, ahi, j + k, bhi))
          as Hr2 by (unfold range_ok; lia).
        destruct ((alo <? i) && (blo <? j)),
          ((i + k <? ahi) && (j + k <? bhi));
          repeat (apply Forall_cons; split; [assumption|]); exact Hok.
      * rewrite map_app, <-app_assoc. cbn [map app].
        assert (∃ pieces,
                  rect (i, j, k) :: q2 = pieces ++ queue
                  ∧ Forall (inside (alo, ahi, blo, bhi)) pieces
                  ∧ StronglySorted apart pieces) as (pieces & -> & Hp1 & Hp2).
        { subst q1 q2.
          assert (inside (alo, ahi, blo, bhi) (rect (i, j, k))) as Hi0
            by (unfold inside, rect; simpl; lia).
          assert (inside (alo, ahi, blo, bhi) (alo, i, blo, j)) as Hil
            by (unfold inside; simpl; lia).
          assert (inside (alo, ahi, blo, bhi) (i + k, ahi, j + k, bhi)) as Hir
            by (unfold inside; simpl; lia).
          assert (apart (rect (i, j, k)) (alo, i, blo, j)) as Hal
            by (unfold apart, before, rect; simpl; lia).
          assert (apart (rect (i, j, k)) (i + k, ahi, j + k, bhi)) as Har
            by (unfold apart, before, rect; simpl; lia).
          assert (apart (i + k, ahi, j + k, bhi) (alo, i, blo, j)) as Hrl
            by (unfold apart, before; simpl; lia).
          destruct ((alo <? i) && (blo <? j)),
            ((i + k <? ahi) && (j + k <? bhi)).
          - exists [rect (i, j, k); (i + k, ahi, j + k, bhi);
                    (alo, i, blo, j)].
            split; [done|]. split; [forall_cons|chain_cons].
          - exists [rect (i, j, k); (alo, i, blo, j)].
            split; [done|]. split; [forall_cons|chain_cons].
          - exists [rect (i, j, k); (i + k, ahi, j + k, bhi)].
            split; [done|]. split; [forall_cons|chain_cons].
          - exists [rect (i, j, k)].
            split; [done|]. split; [forall_cons|chain_cons]. }
        by apply (chain_replace _ (alo, ahi, blo, bhi)).
      * apply Forall_app. split; [done|].
        apply Forall_singleton. split; [done|]. simpl. lia.
Qed.

Lemma block_le_total x y : ¬ block_le x y → block_le y x.
Proof.
  destruct x as [[??]?], y as [[??]?]. unfold block_le. lia.
Qed.

Lemma block_le_trans x y z : block_le x y → block_le y z → block_le x z.
Proof.
  destruct x as [[??]?], y as [[??]?], z as [[??]?]. unfold block_le. lia.
Qed.

Lemma insert_sorted_sorted x l :
  StronglySorted block_le l → StronglySorted block_le (insert_sorted x l).
Proof.
  induction 1 as [|y l Hl IH Hy]; simpl; [by repeat constructor|].
  destruct (decide (block_le x y)) as [Hxy|Hxy].
  - constructor; [by constructor|].
    constructor; [done|].
    eapply Forall_impl; [exact Hy|]. intros z. by apply block_le_trans.
  - constructor; [done|].
    rewrite insert_sorted_perm. constructor; [|done].
    by apply block_le_total.
Qed.

Lemma sort_blocks_sorted l : StronglySorted block_le (sort_blocks l).
Proof.
  induction l as [|x l IH]; simpl; [constructor|].
  by apply insert_sorted_sorted.
Qed.

Lemma apart_sym r s : apart r s → apart s r.
Proof. unfold apart. tauto. Qed.

Lemma chain_perm l l' :
  l ≡ₚ l' → StronglySorted apart l → StronglySorted apart l'.
Proof.
  induction 1 as [|x l l' Hp IH|x y l|l l' l'' _ IH1 _ IH2]; intros Hc.
  - done.
  - apply StronglySorted_cons in Hc as [Hx Hc].
    constructor; [by apply IH|]. by rewrite <-Hp.
  - apply StronglySorted_cons in Hc as [Hy Hc].
    apply StronglySorted_cons in Hc as [Hx Hc].
    apply Forall_cons in Hy as [Hyx Hy].
    apply SSorted_cons; [by apply SSorted_cons|].
    apply Forall_cons_2; [by apply apart_sym|done].
  - by apply IH2, IH1.
Qed.

(** Sorted blocks that are apart follow one another in both sequences. *)
Lemma sorted_apart_before l :
  StronglySorted block_le l →
  StronglySorted apart (map rect l) →
  Forall (λ m : block, 0 < m.2) l →
  StronglySorted before_block l.
Proof.
  induction 1 as [|x l Hl IH Hx]; intros Hc Hk; [constructor|].
  cbn [map] in Hc. apply StronglySorted_cons in Hc as [Hax Hc].
  apply Forall_cons in Hk as [Hkx Hk].
  constructor; [by apply IH|].
  apply Forall_forall. intros y Hy.
  pose proof (proj1 (Forall_forall _ _) Hx y Hy) as Hxy.
  pose proof (proj1 (Forall_forall _ _) Hk y Hy) as Hky.
  pose proof (proj1 (Forall_forall _ _) Hax (rect y)
                (list_elem_of_fmap_2 rect l y Hy)) as Ha.
  destruct x as [[??]?], y as [[??]?].
  unfold before_block, apart, before, rect, block_le in *. simpl in *. lia.
Qed.
End Chain.

Section Tiling.
Context {A : Type} `{EqDecision A}.
Variables a b : list A.
Import Difflib.

Lemma agree_join i j k1 k2 :
  agree a b (i, j, k1) → agree a b (i + k1, j + k1, k2) →
  agree a b (i, j, k1 + k2).
Proof.
  intros H1 H2 t Ht. simpl in *.
  destruct (decide (t < k1)) as [Hlt|Hge]; [by apply H1|].
  specialize (H2 (t - k1)). simpl in H2.
  replace (i + k1 + (t - k1)) with (i + t) in H2 by lia.
  replace (j + k1 + (t - k1)) with (j + t) in H2 by lia.
  apply H2. lia.
Qed.

(** Collapsing keeps the blocks matches that follow one another. *)
Lemma collapse_chain l : ∀ cur acc,
  StronglySorted before_block (acc ++ cur :: l) →
  Forall (agree a b) (acc ++ cur :: l) →
  let r := collapse cur l acc in
  StronglySorted before_block (r.1 ++ [r.2])
  ∧ Forall (agree a b) (r.1 ++ [r.2]).
Proof.
  induction l as [|[[i2 j2] k2] l IH]; intros [[i1 j1] k1] acc Hc Hm; [done|].
  cbn [collapse].
  destruct ((i1 + k1 =? i2) && (j1 + k1 =? j2)) eqn:Hadj.
  - apply andb_true_iff in Hadj as [Hi Hj].
    apply Nat.eqb_eq in Hi, Hj. subst i2 j2.
    apply IH.
    + revert Hc. rewrite !StronglySorted_app, !StronglySorted_cons.
      rewrite !Forall_forall.
      intros (Hacc & Hs & Hcur & Hnext & Hl). split_and!; try done.
      * intros x y Hx [->|Hy]%elem_of_cons.
        -- specialize (Hacc x (i1, j1, k1) Hx ltac:(by left)).
           destruct x as [[??]?].
           unfold before_block, before, rect in *. simpl in *. lia.
        -- apply Hacc; [done|]. by do 2 right.
      * intros y Hy. specialize (Hnext y Hy). destruct y as [[??]?].
        unfold before_block, before, rect in *. simpl in *. lia.
    + revert Hm. rewrite !Forall_app, !Forall_cons.
      intros (Hacc & Hcur & Hnext & Hl). split_and!; try done.
      by apply agree_join.
  - destruct (Nat.eqb_spec k1 0) as [->|Hk].
    + apply IH.
      * revert Hc. rewrite !StronglySorted_app, !StronglySorted_cons.
        intros (Hacc & Hs & Hcur & Hnext & Hl). split_and!; try done.
        intros x y Hx Hy. apply Hacc; [done|by right].
      * revert Hm. rewrite !Forall_app, !Forall_cons. tauto.
    + apply IH.
      * by rewrite <-app_assoc.
      * by rewrite <-app_assoc.
Qed.

(** The matching blocks follow one another in both sequences, each is a
    match, and the last one is the sentinel. *)
Lemma get_matching_blocks_chain :
  StronglySorted before_block (get_matching_blocks a b)
  ∧ Forall (agree a b) (get_matching_blocks a b)
  ∧ last (get_matching_blocks a b) = Some (length a, length b, 0).
Proof.
  pose proof (get_matching_blocks_total a b) as (Hopt & Hends & _).
  unfold get_matching_blocks in *. unfold get_matching_blocks_opt in *.
  destruct (queue_loop a b (queue_fuel a) [(0, length a, 0, length b)] [])
    as [found|] eqn:Hrun; [|done].
  cbn [fmap option_fmap option_map default] in *.
  destruct (queue_loop_chain a b _ _ _ _ Hrun) as [Hc Hf].
  { apply Forall_singleton. simpl. lia. }
  { repeat constructor. }
  { constructor. }
  assert (StronglySorted before_block (sort_blocks found)) as Hsorted.
  { apply sorted_apart_before.
    - apply sort_blocks_sorted.
    - eapply chain_perm; [|exact Hc].
      by rewrite sort_blocks_perm.
    - rewrite sort_blocks_perm. eapply Forall_impl; [exact Hf|].
      by intros m [_ ?]. }
  assert (Forall (agree a b) (sort_blocks found)) as Hagree.
  { rewrite sort_blocks_perm. eapply Forall_impl; [exact Hf|].
    by intros m [? _]. }
  unfold finish_blocks in *.
  destruct (collapse_chain (sort_blocks found) (0, 0, 0) []) as [Hc' Hm'].
  { cbn [app]. constructor; [done|].
    apply Forall_forall. intros [[??]?] _.
    unfold before_block, before, rect. simpl. lia. }
  { cbn [app]. constructor; [apply agree_empty|done]. }
  destruct (collapse (0, 0, 0) (sort_blocks found) []) as [acc [[i1 j1] k1]].
  cbn [fst snd] in Hc', Hm'.
  assert (∀ body,
            Forall (ends_inside a b) (body ++ [(length a, length b, 0)]) →
            StronglySorted before_block body →
            Forall (agree a b) body →
            StronglySorted before_block (body ++ [(length a, length b, 0)])
            ∧ Forall (agree a b) (body ++ [(length a, length b, 0)])
            ∧ last (body ++ [(length a, length b, 0)])
              = Some (length a, length b, 0)) as Hfinal.
  { intros body Hin Hbody Hbm. split_and!.
    - apply StronglySorted_app. split_and!; [|done|by repeat constructor].
      intros x y Hx ->%list_elem_of_singleton.
      apply Forall_app in Hin as [Hin _]. rewrite Forall_forall in Hin.
      specialize (Hin x Hx). destruct x as [[??]?].
      unfold ends_inside, before_block, before, rect in *. simpl in *. lia.
    - apply Forall_app. split; [done|].
      apply Forall_singleton, agree_empty.
    - by rewrite last_snoc. }
  destruct (k1 =? 0).
  - apply Hfinal; [done| |].
    + by apply StronglySorted_app_1_l in Hc'.
    + by apply Forall_app in Hm' as [? _].
  - by apply Hfinal.
Qed.

Lemma opcodes_loop_app blocks : ∀ i j answer,
  opcodes_loop i j blocks answer = answer ++ opcodes_loop i j blocks [].
Proof.
  induction blocks as [|[[ai bj] size] blocks IH]; intros i j answer.
  - by rewrite app_nil_r.
  - cbn [opcodes_loop]. rewrite IH. symmetry. rewrite IH. symmetry.
    destruct ((i <? ai) && (j <? bj)), (i <? ai), (j <? bj), (size =? 0);
      by rewrite ?app_nil_l, ?app_nil_r, <-?app_assoc.
Qed.

(** The opcodes built from blocks that follow one another tile the two
    sequences, each with the ranges its tag asks for. *)
Lemma opcodes_loop_tiles la lb blocks : ∀ i j,
  StronglySorted before_block blocks →
  Forall (λ m : block, i ≤ m.1.1 ∧ j ≤ m.1.2) blocks →
  Forall (agree a b) blocks →
  last blocks = Some (la, lb, 0) →
  chained i j (opcodes_loop i j blocks []) la lb
  ∧ Forall (opcode_exact a b) (opcodes_loop i j blocks []).
Proof.
  induction blocks as [|[[ai bj] size] blocks IH]; intros i j Hc Hij Hm Hlast;
    [done|].
  apply StronglySorted_cons in Hc as [Hnext Hc].
  apply Forall_cons in Hij as [[Hi Hj] _]. simpl in Hi, Hj.
  apply Forall_cons in Hm as [Hm0 Hm].
  assert (chained (ai + size) (bj + size)
            (opcodes_loop (ai + size) (bj + size) blocks []) la lb
          ∧ Forall (opcode_exact a b)
              (opcodes_loop (ai + size) (bj + size) blocks [])) as [Hch Hex].
  { destruct blocks as [|m blocks].
    - injection Hlast as -> -> ->. simpl. split; [lia|constructor].
    - apply IH; [done| |done|done].
      eapply Forall_impl; [exact Hnext|]. intros [[??]?].
      unfold before_block, before, rect. simpl. lia. }
  assert (opcode_exact a b (Equal, ai, ai + size, bj, bj + size) ∨ size = 0)
    as Hequal.
  { destruct (decide (size = 0)); [by right|left].
    simpl. split; [lia|]. split; [lia|].
    by replace (ai + size - ai) with size by lia. }
  cbn [opcodes_loop]. rewrite opcodes_loop_app.
  assert (size = 0 → chained ai bj
            (opcodes_loop (ai + size) (bj + size) blocks []) la lb) as Hch0.
  { intros Hs. rewrite Hs, !Nat.add_0_r in Hch. by rewrite Hs, !Nat.add_0_r. }
  destruct (Nat.ltb_spec i ai), (Nat.ltb_spec j bj); cbn [andb];
    destruct (Nat.eqb_spec size 0) as [Hz|Hz];
    destruct Hequal as [Hequal|?]; try lia;
    cbn [app chained]; rewrite ?Forall_cons.
  all: try (replace i with ai by lia).
  all: try (replace j with bj by lia).
  all: split_and!; try done; try lia; try (by apply Hch0); simpl; try lia.
Qed.

(** The opcodes tile the two sequences from their starts to their ends:
    each begins where the one before ends; a replace has two non-empty
    ranges, a delete an empty v2 range, an insert an empty v1 range, and
    an equal two ranges of one length whose elements agree. *)
Lemma get_opcodes_tiles :
  chained 0 0 (get_opcodes a b) (length a) (length b)
  ∧ Forall (opcode_exact a b) (get_opcodes a b).
Proof.
  destruct get_matching_blocks_chain as (Hc & Hm & Hlast).
  unfold get_opcodes. apply opcodes_loop_tiles; try done.
  apply Forall_forall. intros m _. lia.
Qed.
End Tiling.

Section Sums.
Context {A : Type}.
Variables a b : list A.
Import Difflib.

Lemma changed_cons op ops :
  v1_changed (op :: ops) = v1_changed [op] + v1_changed ops
  ∧ v2_changed (op :: ops) = v2_changed [op] + v2_changed ops
  ∧ equal_total (op :: ops) = equal_total [op] + equal_total ops.
Proof.
  unfold v1_changed, v2_changed, equal_total.
  cbn [map sum_list_with]. lia.
Qed.


(** Tiling opcodes that are all [equal] relate two equal sequences. *)
Lemma chained_equal la lb ops : ∀ i j,
  chained i j ops la lb →
  Forall (opcode_exact a b) ops →
  la = length a → lb = length b →
  v1_changed ops = 0 → v2_changed ops = 0 →
  ∀ t, a !! (i + t) = b !! (j + t).
Proof.
  induction ops as [|[[[[tag i1] i2] j1] j2] ops IH];
    intros i j Hch Hex Hla Hlb H1 H2 t.
  - destruct Hch as [-> ->]. subst.
    by rewrite !lookup_ge_None_2 by lia.
  - destruct Hch as (-> & -> & Hi & Hj & Hch).
    apply Forall_cons in Hex as [Hop Hex].
    destruct (changed_cons (tag, i, i2, j, j2) ops) as (Hc1 & Hc2 & _).
    rewrite Hc1 in H1. rewrite Hc2 in H2.
    unfold v1_changed, v2_changed in H1, H2.
    cbn [map sum_list_with] in H1, H2.
    destruct tag; simpl in Hop, H1, H2; try lia.
    destruct Hop as (Hlt & Hlen & Hagree).
    destruct (decide (t < i2 - i)) as [Ht|Ht].
    + by apply (Hagree t).
    + specialize (IH i2 j2 Hch Hex Hla Hlb ltac:(unfold v1_changed; lia)
                    ltac:(unfold v2_changed; lia) (t - (i2 - i))).
      replace (i2 + (t - (i2 - i))) with (i + t) in IH by lia.
      by replace (j2 + (t - (i2 - i))) with (j + t) in IH by lia.
Qed.
End Sums.

Section Counts.
Context `{unicode_db}.
Import Differ.

Lemma count_type_app ty l1 l2 :
  count_type ty (l1 ++ l2) = count_type ty l1 + count_type ty l2.
Proof. unfold count_type. by rewrite filter_app, length_app. Qed.

Lemma count_type_number {X} (mk : Z → X → Change.t) (kind : X → ChangeType)
    ty xs : ∀ id,
  (∀ id x, Change.change_type (mk id x) = kind x) →
  count_type ty (number mk id xs)
  = length (filter (λ x, kind x = ty) xs).
Proof.
  intros id Hmk. revert id. unfold count_type.
  induction xs as [|x xs IH]; intros id; [done|].
  cbn [number]. rewrite !filter_cons, Hmk.
  destruct (decide (kind x = ty)); simpl; by rewrite IH.
Qed.

Lemma entry_type_change id r :
  Change.change_type (change_of_match id r) = entry_type r.
Proof. by destruct r. Qed.

Lemma entries_v1_count rs :
  length (filter (λ r, entry_type r = DELETED) rs)
  + length (filter (λ r, entry_type r = MODIFIED) rs)
  = length (omap v1_side rs).
Proof.
  induction rs as [|r rs IH]; [done|].
  rewrite !filter_cons.
  destruct r; csimpl; repeat case_decide; try done; csimpl; lia.
Qed.

Lemma entries_v2_count rs :
  length (filter (λ r, entry_type r = ADDED) rs)
  + length (filter (λ r, entry_type r = MODIFIED) rs)
  = length (omap v2_side rs).
Proof.
  induction rs as [|r rs IH]; [done|].
  rewrite !filter_cons.
  destruct r; csimpl; repeat case_decide; try done; csimpl; lia.
Qed.

Lemma length_filter_const {X} (P : Prop) `{!Decision P} (xs : list X) :
  length (filter (λ _, P) xs) = if decide P then length xs else 0.
Proof.
  induction xs as [|x xs IH]; [by destruct (decide P)|].
  rewrite filter_cons. destruct (decide P); simpl; by rewrite ?IH.
Qed.

Lemma length_slice {X} (l : list X) i1 i2 :
  i2 ≤ length l → length (slice l i1 i2) = i2 - i1.
Proof. intros Hi. unfold slice. rewrite length_take, length_drop. lia. Qed.

(** The changes of one opcode, counted by type. *)
Lemma opcode_changes_counts blocks_v1 blocks_v2 change_id op new :
  opcode_inside (map ContentBlock.content blocks_v1)
                (map ContentBlock.content blocks_v2) op →
  opcode_exact (map ContentBlock.content blocks_v1)
               (map ContentBlock.content blocks_v2) op →
  opcode_changes blocks_v1 blocks_v2 change_id op = Some new →
  count_type DELETED new + count_type MODIFIED new = v1_changed [op]
  ∧ count_type ADDED new + count_type MODIFIED new = v2_changed [op].
Proof.
  destruct op as [[[[tag i1] i2] j1] j2]. simpl. rewrite !length_map.
  unfold v1_changed, v2_changed. cbn [map sum_list_with].
  intros [Hi Hj] Hex. destruct tag; cbn [decide_rel]; simpl.
  - rewrite (getitems_Some blocks_v1 i1 i2 Hi). simpl.
    rewrite (getitems_Some blocks_v2 j1 j2 Hj). simpl.
    intros [= <-].
    rewrite !(count_type_number change_of_match entry_type)
      by apply entry_type_change.
    rewrite entries_v1_count, entries_v2_count.
    destruct (match_similar_blocks_sides (slice blocks_v1 i1 i2)
                (slice blocks_v2 j1 j2)) as [-> ->].
    rewrite !length_slice by done. lia.
  - rewrite (getitems_Some blocks_v1 i1 i2 Hi). simpl.
    intros [= <-].
    rewrite !(count_type_number whole_deleted (λ _, DELETED)) by done.
    rewrite !length_filter_const, length_slice by done.
    repeat case_decide; try done. lia.
  - rewrite (getitems_Some blocks_v2 j1 j2 Hj). simpl.
    intros [= <-].
    rewrite !(count_type_number whole_added (λ _, ADDED)) by done.
    rewrite !length_filter_const, length_slice by done.
    repeat case_decide; try done. lia.
  - by intros [= <-].
Qed.

Lemma opcodes_changes_counts blocks_v1 blocks_v2 ops :
  ∀ changes change_id result,
  Forall (opcode_inside (map ContentBlock.content blocks_v1)
                        (map ContentBlock.content blocks_v2)) ops →
  Forall (opcode_exact (map ContentBlock.content blocks_v1)
                       (map ContentBlock.content blocks_v2)) ops →
  opcodes_changes blocks_v1 blocks_v2 ops changes change_id = Some result →
  count_type DELETED result + count_type MODIFIED result
  = count_type DELETED changes + count_type MODIFIED changes
    + v1_changed ops
  ∧ count_type ADDED result + count_type MODIFIED result
    = count_type ADDED changes + count_type MODIFIED changes
      + v2_changed ops.
Proof.
  induction ops as [|op ops IH]; intros changes change_id result Hin Hex Hrun.
  - injection Hrun as <-. unfold v1_changed, v2_changed. simpl. lia.
  - apply Forall_cons in Hin as [Hin0 Hin].
    apply Forall_cons in Hex as [Hex0 Hex].
    cbn [opcodes_changes] in Hrun.
    destruct (opcode_changes blocks_v1 blocks_v2 change_id op) as [new|]
      eqn:Hop; [|done].
    cbn in Hrun.
    destruct (opcode_changes_counts _ _ _ _ _ Hin0 Hex0 Hop) as [Hn1 Hn2].
    destruct (IH _ _ _ Hin Hex Hrun) as [H1 H2].
    destruct (changed_cons op ops) as (-> & -> & _).
    rewrite !count_type_app in H1, H2. lia.
Qed.


(** X25: no change is reported exactly when the two documents have the same
    contents, block by block. *)
Lemma diff_documents_nil_iff blocks_v1 blocks_v2 :
  diff_documents blocks_v1 blocks_v2 = Some []
  ↔ map ContentBlock.content blocks_v1 = map ContentBlock.content blocks_v2.
Proof.
  set (c1 := map ContentBlock.content blocks_v1).
  set (c2 := map ContentBlock.content blocks_v2).
  split.
  - intros Hdiff.
    destruct (get_opcodes_tiles c1 c2) as [Hch Hex].
    unfold diff_documents in Hdiff. fold c1 c2 in Hdiff.
    destruct (opcodes_changes_counts _ _ _ _ _ _
                (get_opcodes_inside c1 c2) Hex Hdiff) as [H1 H2].
    unfold count_type in H1, H2. simpl in H1, H2.
    apply list_eq. intros t.
    apply (chained_equal c1 c2 _ _ _ 0 0 Hch Hex); try done; lia.
  - intros Hsame. unfold diff_documents. fold c1 c2. rewrite Hsame.
    rewrite get_opcodes_identical. by destruct (length c2).
Qed.
End Counts.

Section WordChanges.
Context `{unicode_db}.
Import Differ.

Lemma word_diff_steps_nil orig_words mod_words ops : ∀ st,
  (foldl (word_diff_step orig_words mod_words) st ops).2 = [] →
  st.2 = [] ∧ v1_changed ops = 0 ∧ v2_changed ops = 0.
Proof.
  induction ops as [|[[[[tag i1] i2] j1] j2] ops IH]; intros [parts wcs] Hnil.
  - done.
  - cbn [foldl] in Hnil. apply IH in Hnil as (Hst & H1 & H2).
    destruct (changed_cons (tag, i1, i2, j1, j2) ops) as (-> & -> & _).
    rewrite H1, H2. unfold v1_changed, v2_changed. cbn [map sum_list_with].
    destruct tag; cbn [word_diff_step snd] in Hst;
      try (by apply app_nil in Hst as [_ ?]).
    by cbn [decide_rel].
Qed.

(** X27: [get_word_level_diff] reports no word change exactly when the two
    texts have the same words. *)
Lemma get_word_level_diff_nil_iff original modified :
  (get_word_level_diff original modified).2 = []
  ↔ Py.split original = Py.split modified.
Proof.
  split.
  - unfold get_word_level_diff.
    set (orig_words := Py.split original).
    set (mod_words := Py.split modified).
    destruct (foldl (word_diff_step orig_words mod_words) ([], [])
                (Difflib.get_opcodes orig_words mod_words))
      as [parts wcs] eqn:Hrun.
    cbn [snd]. intros ->.
    destruct (word_diff_steps_nil orig_words mod_words
                (Difflib.get_opcodes orig_words mod_words) ([], []))
      as (_ & H1 & H2); [by rewrite Hrun|].
    destruct (get_opcodes_tiles orig_words mod_words) as [Hch Hex].
    apply list_eq. intros t.
    by apply (chained_equal orig_words mod_words _ _ _ 0 0 Hch Hex).
  - intros Hsame. unfold get_word_level_diff.
    rewrite <-Hsame, get_opcodes_identical.
    by destruct (length (Py.split original) =? 0).
Qed.
End WordChanges.

(** ** What the differ, the classifier and their callers guarantee *)

Section DifferGuarantees.
Context `{unicode_db}.

(** X1: [diff_documents] returns a list for any two documents, no index
    it reads being out of range, and numbers the changes 1, 2, ... in the
    order of the list. *)
Lemma diff_documents_numbered blocks_v1 blocks_v2 :
  ∃ changes,
    Differ.diff_documents blocks_v1 blocks_v2 = Some changes
    ∧ map Change.change_id changes = seqZ 1 (Z.of_nat (length changes)).
Proof.
  destruct (diff_documents_spec blocks_v1 blocks_v2)
    as (changes & Hdiff & _ & Hids).
  by exists changes.
Qed.

(** X2: every change of [diff_documents] describes blocks of the two
    documents: a deletion a block of v1 and an addition a block of v2,
    with the whole-block markers; a modification a block of each, with
    their similarity, which lies between 0.5 and 1, and their word-level
    diff.  Type, location and texts are those of the blocks. *)
Lemma diff_documents_describes_blocks blocks_v1 blocks_v2 :
  ∃ changes,
    Differ.diff_documents blocks_v1 blocks_v2 = Some changes
    ∧ Forall (change_from blocks_v1 blocks_v2) changes.
Proof.
  destruct (diff_documents_spec blocks_v1 blocks_v2)
    as (changes & Hdiff & Hfrom & _).
  by exists changes.
Qed.

(** X8: the rules answer in one of three ways: LOW with the fixed wording
    for a trivial change; CRITICAL with the reason of a pattern found in
    the analysed text and the risk statement listed for that reason, the
    fallback statement never being used; or nothing.  They never answer
    MEDIUM. *)
Lemma classify_by_rules_verdicts (change : Change.t) :
  (Classifier._is_trivial_change change = true
   ∧ Classifier.classify_by_rules change = Classifier.trivial_result)
  ∨ Classifier.classify_by_rules change = (None, [], [])
  ∨ ∃ p reason risk,
      (p, reason) ∈ Classifier.CRITICAL_PATTERNS
      ∧ Classifier.RISK_STATEMENTS !! reason = Some risk
      ∧ Re.search p (Classifier.text_to_analyze change) = true
      ∧ Classifier.classify_by_rules change = (Some CRITICAL, reason, risk).
Proof. apply classify_by_rules_range. Qed.
End DifferGuarantees.

Section PipelineGuarantees.
Context `{unicode_db} `{interpreter} `{service}.
Variable settings : Settings.
Import Classifier.

(** X10: each classified change says where its verdict comes from: one
    tagged [rule-based] carries the verdict of the rules for its change;
    one tagged [llm] belongs to a change the rules left open. *)
Lemma classify_changes_tags changes document_type api_key :
  Forall (λ cc,
            (ClassifiedChange.classification_source cc = Py.str "rule-based"
             ∧ classify_by_rules (base cc)
               = (Some (ClassifiedChange.impact cc),
                  ClassifiedChange.reasoning cc,
                  ClassifiedChange.risk_analysis cc))
            ∨ (ClassifiedChange.classification_source cc = Py.str "llm"
               ∧ (classify_by_rules (base cc)).1.1 = None))
         (classified_changes
            (classify_changes settings changes document_type api_key)).
Proof. apply classify_changes_sources. Qed.

(** X12: when the ids of the input ascend strictly, the result lists the
    classified changes in the order of the input. *)
Lemma classify_changes_in_order changes document_type api_key :
  StronglySorted Z.lt (map Change.change_id changes) →
  map base (classified_changes
              (classify_changes settings changes document_type api_key))
  = changes.
Proof. apply classify_changes_keeps_order. Qed.

(** X18: differ and classifier composed, as [compare_documents] runs
    them: the classified changes are the changes of [diff_documents], one
    by one and in the same order, with ids 1, 2, ... *)
Lemma compare_changes_in_order blocks_v1 blocks_v2 document_type api_key :
  ∃ changes,
    Differ.diff_documents blocks_v1 blocks_v2 = Some changes
    ∧ map base
        (classified_changes
           (classify_changes settings changes document_type api_key))
      = changes
    ∧ map ClassifiedChange.change_id
        (classified_changes
           (classify_changes settings changes document_type api_key))
      = seqZ 1 (Z.of_nat (length changes)).
Proof. apply compare_keeps_changes. Qed.
End PipelineGuarantees.

Section StorageGuarantees.
Variable time : Type.
Variable older_than : time → time → Z → bool.
Import Storage.

(** X22: [cleanup] removes exactly the documents older than the given
    age and keeps every other one as it is; the number it returns is the
    number of documents removed. *)
Lemma cleanup_removes_old (st : gmap text (document time)) now max_age :
  (∀ doc_id,
     get _ (cleanup _ older_than st now max_age).1 doc_id
     = match get _ st doc_id with
       | Some d =>
           if older_than now (created _ d) max_age then None else Some d
       | None => None
       end)
  ∧ (Z.of_nat (size (cleanup _ older_than st now max_age).1)
     + (cleanup _ older_than st now max_age).2
     = Z.of_nat (size st))%Z.
Proof. apply cleanup_spec. Qed.
End StorageGuarantees.

(** ** Examples for the properties above *)

Module Examples.

Import Samples Classifier Differ.

Lemma match_step_first_best_witness :
  ∃ k b2,
    [Witnesses.half_b] !! k = Some b2 ∧ (k ∉ (∅ : gset nat))
    ∧ (@match_step ascii_db [Witnesses.half_b] ∅ Witnesses.half_a).1
      = @modified_entry ascii_db Witnesses.half_a b2
    ∧ (@match_step ascii_db [Witnesses.half_b] ∅ Witnesses.half_a).2
      = {[k]} ∪ ∅
    ∧ (∀ k' b', [Witnesses.half_b] !! k' = Some b' → k' ∉ (∅ : gset nat) →
                (similarity_of Witnesses.half_a b'
                 <= similarity_of Witnesses.half_a b2)%Q)
    ∧ (∀ k' b', k' < k → [Witnesses.half_b] !! k' = Some b' →
                k' ∉ (∅ : gset nat) →
                (similarity_of Witnesses.half_a b'
                 < similarity_of Witnesses.half_a b2)%Q).
Proof.
  refine (@match_step_first_best ascii_db [Witnesses.half_b] ∅
            Witnesses.half_a _ _ (surjective_pairing _) _).
  by vm_compute.
Defined.

Definition spaced : text := Py.str "net  30 days".
Definition unspaced : text := Py.str "net 30 days".

Lemma get_word_level_diff_same_words_witness :
  @get_word_level_diff ascii_db spaced unspaced
  = (space_join (@Py.split ascii_db spaced), []).
Proof.
  refine (@get_word_level_diff_same_words ascii_db spaced unspaced _).
  by vm_compute.
Defined.

Lemma classify_changes_rules_only_witness :
  let result :=
    @classify_changes ascii_db rejecting (raising "unused") with_key
      [Witnesses.hundred_dollars] general None in
  llm_calls result = 0%Z
  ∧ llm_time_ms result = 0%Z
  ∧ classified_changes result
    = sort_by_id (omap (@by_rules ascii_db) [Witnesses.hundred_dollars])
  ∧ Forall (λ cc, ClassifiedChange.classification_source cc
                  = Py.str "rule-based") (classified_changes result).
Proof.
  refine (@classify_changes_rules_only ascii_db rejecting (raising "unused")
            with_key [Witnesses.hundred_dollars] general None _).
  constructor; [|constructor]. by vm_compute.
Defined.

Lemma classify_changes_in_order_witness :
  map base
    (classified_changes
       (@classify_changes ascii_db (loading partial_reply)
          (replying 40 "[]") with_key three_edits general None))
  = three_edits.
Proof.
  refine (@classify_changes_in_order ascii_db (loading partial_reply)
            (replying 40 "[]") with_key three_edits general None _).
  change (map Change.change_id three_edits) with [1; 2; 3]%Z.
  repeat constructor; lia.
Defined.

(** A service that answers one model only. *)
Definition picky : service := {|
  chat_completions_create := λ model _ _,
    if decide (model = Py.str "gpt-4o")
    then Replies 40 (Some (Py.str "[]"))
    else Raises (Py.str "no such model")
|}.

Lemma classify_changes_one_request_witness :
  @classify_changes ascii_db (loading partial_reply) (replying 40 "[]")
    with_key three_edits general None
  = @classify_changes ascii_db (loading partial_reply) picky
      with_key three_edits general None.
Proof.
  refine (@classify_changes_one_request ascii_db (loading partial_reply)
            with_key (replying 40 "[]") picky three_edits general None _).
  by vm_compute.
Defined.



Definition sample_items : list (Z * text) :=
  [ (2%Z, Py.str "LOW"); (3%Z, Py.str "high"); (2%Z, Py.str "severe") ].

Definition sample_reply : json :=
  JList (map (λ p, reply_item p.1 p.2) sample_items).

Lemma parse_response_items_witness :
  ∃ results,
    @_parse_response ascii_db (loading sample_reply) (Py.str "[]") []
    = Ok results
    ∧ (∀ id, id ∉ map fst sample_items → results !! Some id = None)
    ∧ (∀ before id impact after,
         sample_items = before ++ (id, impact) :: after →
         id ∉ map fst after →
         results !! Some id
         = Some (impact_of (@Py.lower ascii_db impact),
                 (default_reasons (impact_of (@Py.lower ascii_db impact))).1,
                 (default_reasons
                    (impact_of (@Py.lower ascii_db impact))).2)).
Proof.
  exact (@parse_response_items ascii_db (loading sample_reply) (Py.str "[]")
           [] sample_items eq_refl).
Defined.

Definition fenced_body : text := [10%N] ++ Py.str "[]" ++ [10%N].

Lemma unfence_json_witness :
  @unfence ascii_db
    ([32%N] ++ (Py.str "```json" ++ fenced_body ++ Py.str "```") ++ [10%N])
  = @Py.strip ascii_db fenced_body.
Proof.
  refine (@unfence_json ascii_db [32%N] fenced_body [10%N] _ _ _);
    by vm_compute.
Defined.

Lemma unfence_plain_witness :
  @unfence ascii_db
    ([32%N] ++ (Py.str "```" ++ fenced_body ++ Py.str "```") ++ [10%N])
  = @Py.strip ascii_db fenced_body.
Proof.
  refine (@unfence_plain ascii_db [32%N] fenced_body [10%N] _ _ _);
    by vm_compute.
Defined.

(** An interpreter whose [int] reads ASCII digits. *)
Definition reading : interpreter := {|
  json_loads := λ _, DecodeError;
  int_of_str := λ s, Some (foldl (λ n c, 10 * n + Z.of_N c - 48)%Z 0%Z s);
  exn_str := λ _, Py.str "error"
|}.

Lemma extract_block_index_location_witness :
  @Annotator._extract_block_index ascii_db reading
    (location_of (paragraph 15 "Clause"))
  = Annotator.Index 15.
Proof.
  refine (@extract_block_index_location ascii_db reading
            (paragraph 15 "Clause") _ _).
  - by vm_compute.
  - by vm_compute.
Defined.

Lemma extract_block_index_negative_witness :
  @Annotator._extract_block_index ascii_db reading
    (location_of (paragraph (-5) "Clause"))
  = Annotator.NoIndex.
Proof.
  refine (@extract_block_index_negative ascii_db reading
            (paragraph (-5) "Clause") _).
  by vm_compute.
Defined.

End Examples.
